(** * Spreadsheet core: address codec, cell store, formulas, recalculation, undo log

    A shallow embedding of [src/spreadsheet] ([model.py], [formula.py],
    [engine.py], [undo.py]) together with the properties its specification
    states about it.

    Conventions of the embedding:
    - Python [int] is [Z]; Python [float] is the primitive binary64 [float].
    - Python [str] is [string].  Characters are 8-bit; on code points below
      128 the classification functions below are Python's [str.isdigit],
      [str.isalpha], [str.isspace] and [str.upper]; code points from 128 up
      are classified as neither letter, digit nor space.
    - A [dict] is a [gmap], a [set] is a [gset]; iteration over a set follows
      [elements].
    - A raised exception is an explicit error result. *)

From Stdlib Require Import ZArith Lia Bool List String Ascii.
From Stdlib Require Import Floats.PrimFloat Floats.SpecFloat Floats.FloatOps.
From stdpp Require Import gmap strings list.

#[local] Set Warnings "-register-all,-clear-no-such-hyp".
#[local] Open Scope string_scope.
#[local] Open Scope list_scope.
#[local] Open Scope Z_scope.

(** ** Characters and strings *)

Module PyStr.

(** A text is a list of the code points below 256 that [ascii] holds.
    The character classes and [upper] below are those of Python's [str]
    on the code points below 128; above, [str] knows further letters,
    digits and blanks and upper-cases some characters to others, so every
    statement that depends on them for an arbitrary text carries the
    hypothesis [ascii_text]. *)

Definition ord (c : ascii) : Z := Z.of_N (N_of_ascii c).
Definition chr (z : Z) : ascii := ascii_of_N (Z.to_N z).

Definition is_ascii (c : ascii) : bool := ord c <? 128.
Definition ascii_text (l : list ascii) : bool := forallb is_ascii l.

Definition is_upper (c : ascii) : bool := (65 <=? ord c) && (ord c <=? 90).
Definition is_lower (c : ascii) : bool := (97 <=? ord c) && (ord c <=? 122).
Definition isdigit (c : ascii) : bool := (48 <=? ord c) && (ord c <=? 57).
Definition isalpha (c : ascii) : bool := is_upper c || is_lower c.
Definition isalnum (c : ascii) : bool := isalpha c || isdigit c.
Definition isspace (c : ascii) : bool :=
  ((9 <=? ord c) && (ord c <=? 13)) || ((28 <=? ord c) && (ord c <=? 32)).

Definition upper_char (c : ascii) : ascii :=
  if is_lower c then chr (ord c - 32) else c.

(** [s.upper()] *)
Definition upper (l : list ascii) : list ascii := map upper_char l.

(** Longest prefix whose characters satisfy [p], and the rest. *)
Fixpoint span (p : ascii -> bool) (l : list ascii) : list ascii * list ascii :=
  match l with
  | [] => ([], [])
  | c :: r => if p c then let '(a, b) := span p r in (c :: a, b) else ([], l)
  end.

(** [int(s)] on a string of decimal digits. *)
Definition digit_val (c : ascii) : Z := ord c - 48.
Definition int_of_digits (l : list ascii) : Z :=
  fold_left (fun acc c => acc * 10 + digit_val c) l 0.

(** [str(n)] for an integer: CPython emits the digits from the least
    significant one. *)
Fixpoint digits_loop (fuel : nat) (n : Z) (acc : list ascii) : list ascii :=
  match fuel with
  | O => acc
  | S k =>
      let acc' := chr (48 + n mod 10) :: acc in
      if n / 10 =? 0 then acc' else digits_loop k (n / 10) acc'
  end.

Definition digits_of (n : Z) : list ascii := digits_loop (S (Z.to_nat n)) n [].

Definition str_of_int (n : Z) : list ascii :=
  if n <? 0 then "-"%char :: digits_of (- n) else digits_of n.

End PyStr.

(** ** Address codec ([model.py]) *)

Module Address.
Import PyStr.

(** [col_to_letter]: the [while col >= 0] loop, with the early [break]. *)
Fixpoint col_to_letter_loop (fuel : nat) (col : Z) (result : list ascii)
  : list ascii :=
  match fuel with
  | O => result
  | S k =>
      if 0 <=? col then
        let result' := chr (65 + col mod 26) :: result in
        let col' := col / 26 - 1 in
        if col' <? 0 then result' else col_to_letter_loop k col' result'
      else result
  end.

Definition col_letters (col : Z) : list ascii :=
  col_to_letter_loop (S (Z.to_nat col)) col [].

Definition col_to_letter (col : Z) : string :=
  string_of_list_ascii (col_letters col).

(** [letter_to_col]: no validation of the characters takes place. *)
Definition letters_value (l : list ascii) : Z :=
  fold_left (fun result c => result * 26 + (ord c - 64)) l 0.

Definition letter_to_col_chars (letter : list ascii) : Z :=
  letters_value (upper letter) - 1.

Definition letter_to_col (letter : string) : Z :=
  letter_to_col_chars (list_ascii_of_string letter).

(** [re.match(r'^([A-Z]+)(\d+)$', u)] on an ASCII text: the two character
    classes are disjoint, so the groups are the longest runs; [$] matches
    at the end of the text or just before one final newline. *)
Definition match_address (u : list ascii) : option (list ascii * list ascii) :=
  let '(letters, rest) := span is_upper u in
  let '(digits, tail) := span isdigit rest in
  match letters, digits with
  | [], _ => None
  | _, [] => None
  | _, _ =>
      match tail with
      | [] => Some (letters, digits)
      | [c] => if Ascii.eqb c "010"%char then Some (letters, digits) else None
      | _ => None
      end
  end.

(** [parse_address]: [None] stands for the raised [ValueError]. *)
Definition parse_address (addr : string) : option (Z * Z) :=
  match match_address (upper (list_ascii_of_string addr)) with
  | None => None
  | Some (col_str, row_str) =>
      Some (int_of_digits row_str - 1, letter_to_col_chars col_str)
  end.

Definition address_to_string (row col : Z) : string :=
  string_of_list_ascii (col_letters col ++ str_of_int (row + 1)).

(** [parse_range] *)
Definition py_range (lo hi : Z) : list Z :=
  map (fun i => lo + Z.of_nat i) (seq 0 (Z.to_nat (hi - lo))).

Definition split_colon (l : list ascii) : list ascii * list ascii :=
  let '(a, b) := span (fun c => negb (Ascii.eqb c ":"%char)) l in
  (a, tl b).

Definition has_colon (l : list ascii) : bool :=
  existsb (fun c => Ascii.eqb c ":"%char) l.

Definition parse_range (range_str : string) : option (list (Z * Z)) :=
  let l := list_ascii_of_string range_str in
  if negb (has_colon l) then
    match parse_address range_str with
    | Some rc => Some [rc]
    | None => None
    end
  else
    let '(start_addr, end_addr) := split_colon l in
    match parse_address (string_of_list_ascii start_addr),
          parse_address (string_of_list_ascii end_addr) with
    | Some (start_row, start_col), Some (end_row, end_col) =>
        Some (concat
          (map (fun row =>
                  map (fun col => (row, col))
                      (py_range (Z.min start_col end_col)
                                (Z.max start_col end_col + 1)))
               (py_range (Z.min start_row end_row)
                         (Z.max start_row end_row + 1))))
    | _, _ => None
    end.

(** The regular expression of the specification, [^[A-Z]+[1-9][0-9]*$],
    read on the text itself with [$] as the end of the text. *)
Definition spec_address_regex (s : string) : bool :=
  let '(letters, rest) := span is_upper (list_ascii_of_string s) in
  match letters, rest with
  | _ :: _, d :: ds =>
      isdigit d && negb (Ascii.eqb d "0"%char) && forallb isdigit ds
  | _, _ => false
  end.

(** The texts [parse_address] accepts, as a grammar: after upper-casing,
    letters [A..Z], then decimal digits, then at most one final newline. *)
Definition accepted_address (s : string) (letters digits : list ascii) : Prop :=
  letters <> [] /\ digits <> [] /\
  forallb is_upper letters = true /\ forallb isdigit digits = true /\
  (upper (list_ascii_of_string s) = letters ++ digits \/
   upper (list_ascii_of_string s) = letters ++ digits ++ ["010"%char]).

End Address.

(** ** Python values *)

Module Py.
Import PyStr.

(** Exceptions, as far as the code distinguishes them.  The last two are
    not Python exceptions: [FuelExhausted] marks the bound of a loop of the
    embedding, [Untyped] data of a type the embedding does not cover. *)
Inductive exn :=
| ZeroDivisionError | ValueError | OtherException | FuelExhausted | Untyped.

Inductive result (A : Type) :=
| Ok (a : A)
| Raise (e : exn).
Arguments Ok {A} a.
Arguments Raise {A} e.

Definition bind {A B} (r : result A) (k : A -> result B) : result B :=
  match r with
  | Ok a => k a
  | Raise e => Raise e
  end.

#[global] Instance result_bind : MBind result := fun A B k r => bind r k.
#[global] Instance result_ret : MRet result := fun A a => Ok a.

(** The values a cell or an expression can hold. *)
Inductive pyval :=
| PNone
| PBool (b : bool)
| PInt (z : Z)
| PFloat (f : float)
| PStr (s : string)
| PList (l : list pyval).

(** JSON-like objects: a value, or a [dict] keyed by strings. *)
Inductive pyobj :=
| OVal (v : pyval)
| ODict (d : gmap string pyobj).

(** *** [float] *)

(** The correctly rounded binary64 value of [m * 10^e10], for [0 <= m]. *)
Definition float_of_decimal (m : Z) (e10 : Z) : float :=
  SF2Prim
    match m with
    | Zpos p =>
        if 0 <=? e10 then binary_normalize prec emax (Zpos p * 10 ^ e10) 0 false
        else
          match 10 ^ (- e10) with
          | Zpos q => SFdiv prec emax (S754_finite false p 0) (S754_finite false q 0)
          | _ => S754_nan
          end
    | _ => S754_zero false
    end.

Definition signed (neg : bool) (f : float) : float :=
  if neg then (- f)%float else f.

(** [float(n)] for an integer; a value beyond the range raises
    [OverflowError]. *)
Definition float_of_int (z : Z) : result float :=
  match binary_normalize prec emax z 0 false with
  | S754_infinity _ => Raise OtherException
  | sf => Ok (SF2Prim sf)
  end.

(** [int(f)]: truncation; raises on [nan] ([ValueError]) and on an
    infinity ([OverflowError]). *)
Definition int_of_float (f : float) : result Z :=
  match Prim2SF f with
  | S754_nan => Raise ValueError
  | S754_infinity _ => Raise OtherException
  | S754_zero _ => Ok 0
  | S754_finite s m e =>
      let a := if 0 <=? e then Zpos m * 2 ^ e else Zpos m / 2 ^ (- e) in
      Ok (if s then - a else a)
  end.

(** [f == n] between a float and an integer compares the exact values. *)
Definition float_eq_int (f : float) (z : Z) : bool :=
  match Prim2SF f with
  | S754_zero _ => z =? 0
  | S754_finite s m e =>
      let sg a := if s then - a else a in
      if 0 <=? e then z =? sg (Zpos m * 2 ^ e)
      else (Zpos m mod 2 ^ (- e) =? 0) && (z =? sg (Zpos m / 2 ^ (- e)))
  | _ => false
  end.

(** C [isspace], which [float] strips from both ends. *)
Definition c_isspace (c : ascii) : bool :=
  ((9 <=? ord c) && (ord c <=? 13)) || (ord c =? 32).

Definition strip_with (p : ascii -> bool) (l : list ascii) : list ascii :=
  rev (snd (span p (rev (snd (span p l))))).

Definition lower_char (c : ascii) : ascii :=
  if is_upper c then chr (ord c + 32) else c.

(** Underscores are accepted between two digits only, and dropped. *)
Fixpoint drop_underscores (prev : option ascii) (l : list ascii)
  : option (list ascii) :=
  let prev_digit := match prev with Some p => isdigit p | None => false end in
  match l with
  | [] =>
      match prev with
      | Some p => if Ascii.eqb p "_" then None else Some []
      | None => Some []
      end
  | c :: r =>
      if Ascii.eqb c "_" then
        if prev_digit then drop_underscores (Some c) r else None
      else
        let after_underscore :=
          match prev with Some p => Ascii.eqb p "_" | None => false end in
        if after_underscore && negb (isdigit c) then None
        else option_map (cons c) (drop_underscores (Some c) r)
  end.

Definition take_sign (l : list ascii) : bool * list ascii :=
  match l with
  | c :: r =>
      if Ascii.eqb c "-" then (true, r)
      else if Ascii.eqb c "+" then (false, r) else (false, l)
  | [] => (false, l)
  end.

(** Mantissa digits, an optional point, an optional exponent; the whole
    text must be consumed. *)
Definition parse_decimal (neg : bool) (l : list ascii) : option float :=
  let '(ip, r1) := span isdigit l in
  let '(fp, r2) :=
    match r1 with
    | c :: r => if Ascii.eqb c "." then span isdigit r else ([], r1)
    | [] => ([], r1)
    end in
  match ip ++ fp with
  | [] => None
  | _ :: _ =>
      let m := int_of_digits (ip ++ fp) in
      let k := Z.of_nat (length fp) in
      match r2 with
      | [] => Some (signed neg (float_of_decimal m (- k)))
      | c :: r =>
          if Ascii.eqb c "e" || Ascii.eqb c "E" then
            let '(eneg, r3) := take_sign r in
            let '(ed, r4) := span isdigit r3 in
            match ed, r4 with
            | _ :: _, [] =>
                let e := int_of_digits ed in
                Some (signed neg
                        (float_of_decimal m ((if eneg then - e else e) - k)))
            | _, _ => None
            end
          else None
      end
  end.

(** [float(s)] for a string; [None] stands for the raised [ValueError]. *)
Definition float_of_chars (s : list ascii) : option float :=
  match drop_underscores None (strip_with c_isspace s) with
  | None => None
  | Some t =>
      let '(neg, body) := take_sign t in
      let low := string_of_list_ascii (map lower_char body) in
      if String.eqb low "inf" || String.eqb low "infinity" then
        Some (signed neg infinity)
      else if String.eqb low "nan" then Some nan
      else parse_decimal neg body
  end.

Definition float_of_str (s : string) : option float :=
  float_of_chars (list_ascii_of_string s).

(** *** Equality, [==] *)

Inductive number := NInt (z : Z) | NFloat (f : float).

Definition as_number (v : pyval) : option number :=
  match v with
  | PBool b => Some (NInt (Z.b2z b))
  | PInt z => Some (NInt z)
  | PFloat f => Some (NFloat f)
  | _ => None
  end.

Definition number_eq (a b : number) : bool :=
  match a, b with
  | NInt x, NInt y => x =? y
  | NFloat f, NFloat g => PrimFloat.eqb f g
  | NFloat f, NInt z | NInt z, NFloat f => float_eq_int f z
  end.

Fixpoint py_eq (a b : pyval) {struct a} : bool :=
  match as_number a, as_number b with
  | Some x, Some y => number_eq x y
  | _, _ =>
      match a, b with
      | PNone, PNone => true
      | PStr s, PStr t => String.eqb s t
      | PList l, PList m =>
          (fix all2 (l m : list pyval) {struct l} : bool :=
             match l, m with
             | [], [] => true
             | x :: l', y :: m' => py_eq x y && all2 l' m'
             | _, _ => false
             end) l m
      | _, _ => false
      end
  end.

(** [isinstance(v, str) and v.startswith('#')] *)
Definition is_error (v : pyval) : bool :=
  match v with
  | PStr (String c _) => Ascii.eqb c "#"
  | _ => false
  end.

(** The operations of the Python runtime that the embedding leaves
    abstract: [x ** y] on floats, [round(x, n)], [sum] of a list of floats,
    and [str] of a float and of a list. *)
Class Runtime := {
  py_pow : float -> float -> result pyval;
  py_round : float -> Z -> float;
  py_sum : list float -> float;
  py_str_float : float -> string;
  py_str_list : list pyval -> string
}.

(** For closed examples whose evaluation calls none of the abstract
    operations. *)
Definition unused_runtime : Runtime := {|
  py_pow := fun _ _ => Raise OtherException;
  py_round := fun f _ => f;
  py_sum := fun _ => nan;
  py_str_float := fun _ => "";
  py_str_list := fun _ => ""
|}.

Definition py_str `{Runtime} (v : pyval) : string :=
  match v with
  | PNone => "None"
  | PBool true => "True"
  | PBool false => "False"
  | PInt z => string_of_list_ascii (str_of_int z)
  | PFloat f => py_str_float f
  | PStr s => s
  | PList l => py_str_list l
  end.

End Py.

(** ** Cells and the sheet ([model.py]) *)

Module Model.
Import Py.

Abbreviation addr := (Z * Z)%type.

Record Cell := mkCell {
  raw : string;
  value : pyval;
  format : gmap string pyobj;
  error : option string
}.

(** [Cell(raw, value, format_dict)]: [format_dict or {}] is the dictionary
    itself, and [error] starts as [None]. *)
Definition new_cell (raw : string) (value : pyval)
    (format_dict : option (gmap string pyobj)) : Cell :=
  mkCell raw value (default ∅ format_dict) None.

(** [Cell()] *)
Definition empty_cell : Cell := new_cell "" (PStr "") None.

Definition is_formula (c : Cell) : bool :=
  match raw c with
  | String ch _ => Ascii.eqb ch "="
  | EmptyString => false
  end.

Definition set_value (v : pyval) (c : Cell) : Cell :=
  mkCell (raw c) v (format c) (error c).
Definition set_error (e : option string) (c : Cell) : Cell :=
  mkCell (raw c) (value c) (format c) e.
Definition set_format (f : gmap string pyobj) (c : Cell) : Cell :=
  mkCell (raw c) (value c) f (error c).

Record Sheet := mkSheet {
  cells : gmap addr Cell;
  name : string;
  max_row : Z;
  max_col : Z
}.

(** [Sheet()] *)
Definition new_sheet : Sheet := mkSheet ∅ "Sheet1" 0 0.

Definition with_cells (m : gmap addr Cell) (s : Sheet) : Sheet :=
  mkSheet m (name s) (max_row s) (max_col s).

(** [get_cell]: "creating empty cell if needed"; the cell read and the
    sheet afterwards. *)
Definition get_cell (s : Sheet) (row col : Z) : Cell * Sheet :=
  match cells s !! (row, col) with
  | Some c => (c, s)
  | None => (empty_cell, with_cells (<[(row, col) := empty_cell]> (cells s)) s)
  end.

(** [set_cell(row, col, raw, value=None, format_dict=None)] *)
Definition set_cell (s : Sheet) (row col : Z) (raw : string)
    (value : option pyval) (format_dict : option (gmap string pyobj)) : Sheet :=
  let cell := new_cell raw (default (PStr raw) value) format_dict in
  mkSheet (<[(row, col) := cell]> (cells s)) (name s)
          (Z.max (max_row s) row) (Z.max (max_col s) col).

Definition delete_cell (s : Sheet) (row col : Z) : Sheet :=
  with_cells (delete (row, col) (cells s)) s.

(** The four structural operations rebuild the dictionary from its items. *)
Definition rebuild (f : addr -> option addr) (m : gmap addr Cell)
  : gmap addr Cell :=
  map_fold (fun k c acc => match f k with
                           | Some k' => <[k' := c]> acc
                           | None => acc
                           end) ∅ m.

Definition insert_row (s : Sheet) (row : Z) : Sheet :=
  mkSheet (rebuild (fun '(r, c) => Some (if row <=? r then (r + 1, c) else (r, c)))
                   (cells s))
          (name s) (max_row s + 1) (max_col s).

Definition delete_row (s : Sheet) (row : Z) : Sheet :=
  mkSheet (rebuild (fun '(r, c) =>
                      if r =? row then None
                      else Some (if row <? r then (r - 1, c) else (r, c)))
                   (cells s))
          (name s) (if 0 <? max_row s then max_row s - 1 else max_row s)
          (max_col s).

Definition insert_column (s : Sheet) (col : Z) : Sheet :=
  mkSheet (rebuild (fun '(r, c) => Some (if col <=? c then (r, c + 1) else (r, c)))
                   (cells s))
          (name s) (max_row s) (max_col s + 1).

Definition delete_column (s : Sheet) (col : Z) : Sheet :=
  mkSheet (rebuild (fun '(r, c) =>
                      if c =? col then None
                      else Some (if col <? c then (r, c - 1) else (r, c)))
                   (cells s))
          (name s) (max_row s)
          (if 0 <? max_col s then max_col s - 1 else max_col s).

(** Events sent to the observers; an observer answers [false] when it
    raises. *)
Inductive event :=
| cell_changed (row col : Z)
| structure_changed
| model_loaded.

Record SpreadsheetModel := mkModel {
  sheet : Sheet;
  filename : option string;
  modified : bool;
  observers : list (event -> bool)
}.

Definition new_model : SpreadsheetModel := mkModel new_sheet None false [].

Definition with_sheet (s : Sheet) (m : SpreadsheetModel) : SpreadsheetModel :=
  mkModel s (filename m) (modified m) (observers m).

Definition add_observer (m : SpreadsheetModel) (callback : event -> bool)
  : SpreadsheetModel :=
  mkModel (sheet m) (filename m) (modified m) (observers m ++ [callback]).

(** [notify_observers]: [true] when every callback returned. *)
Definition notify_observers (m : SpreadsheetModel) (ev : event) : bool :=
  forallb (fun callback => callback ev) (observers m).

(** [set_cell_raw]: the model afterwards, and whether the call returned
    (the sheet is written before the observers run). *)
Definition set_cell_raw (m : SpreadsheetModel) (row col : Z) (raw : string)
  : SpreadsheetModel * bool :=
  let m' := mkModel (set_cell (sheet m) row col raw None None)
                    (filename m) true (observers m) in
  (m', notify_observers m' (cell_changed row col)).

(** The sheet states reachable through the operations of [Sheet]. *)
Inductive sheet_reachable : Sheet -> Prop :=
| reach_new : sheet_reachable new_sheet
| reach_get s row col :
    sheet_reachable s -> sheet_reachable (snd (get_cell s row col))
| reach_set s row col raw value format_dict :
    sheet_reachable s ->
    sheet_reachable (set_cell s row col raw value format_dict)
| reach_delete s row col :
    sheet_reachable s -> sheet_reachable (delete_cell s row col)
| reach_insert_row s row :
    sheet_reachable s -> sheet_reachable (insert_row s row)
| reach_delete_row s row :
    sheet_reachable s -> sheet_reachable (delete_row s row)
| reach_insert_column s col :
    sheet_reachable s -> sheet_reachable (insert_column s col)
| reach_delete_column s col :
    sheet_reachable s -> sheet_reachable (delete_column s col).

End Model.

(** ** Formulas ([formula.py]) *)

Module Formula.
Import PyStr Py Address.

Inductive TokenType :=
| NUMBER | STRING | CELL_REF | RANGE | FUNCTION | OPERATOR
| LPAREN | RPAREN | COMMA | EOF.

Definition TokenType_eqb (a b : TokenType) : bool :=
  match a, b with
  | NUMBER, NUMBER | STRING, STRING | CELL_REF, CELL_REF | RANGE, RANGE
  | FUNCTION, FUNCTION | OPERATOR, OPERATOR | LPAREN, LPAREN
  | RPAREN, RPAREN | COMMA, COMMA | EOF, EOF => true
  | _, _ => false
  end.

Record Token := mkToken {
  type_ : TokenType;
  value : string;
  position : Z
}.

Inductive ASTNode :=
| NumberNode (value : float)
| StringNode (value : string)
| CellRefNode (row col : Z)
| RangeNode (cells : list (Z * Z))
| BinaryOpNode (left : ASTNode) (operator : string) (right : ASTNode)
| UnaryOpNode (operator : string) (operand : ASTNode)
| FunctionNode (name : string) (args : list ASTNode).

(** *** Tokenizer

    The state of the scan is the position and the text from there on. *)

Definition len (l : list ascii) : Z := Z.of_nat (length l).
Definition str (l : list ascii) : string := string_of_list_ascii l.

Definition is_char (a : ascii) (c : ascii) : bool := Ascii.eqb c a.

(** [re.match(r'^[A-Z]+\d+$', value)] *)
Definition is_cell_ref (value : list ascii) : bool :=
  match match_address value with Some _ => true | None => false end.

Definition skip_whitespace (pos : Z) (rest : list ascii) : Z * list ascii :=
  let '(ws, rest') := span isspace rest in (pos + len ws, rest').

Definition read_number (pos : Z) (rest : list ascii)
  : Token * Z * list ascii :=
  let '(value, rest') := span (fun c => isdigit c || is_char "." c) rest in
  (mkToken NUMBER (str value) pos, pos + len value, rest').

(** [_read_string]: [rest] starts at the opening quote.  Without a closing
    quote the slice [formula[start+1:position-1]] loses the last
    character of the text. *)
Definition read_string (pos : Z) (rest : list ascii)
  : Token * Z * list ascii :=
  let '(body, rest') := span (fun c => negb (is_char "034" c)) (tl rest) in
  match rest' with
  | _ :: rest'' =>
      (mkToken STRING (str body) pos, pos + 1 + len body + 1, rest'')
  | [] =>
      (mkToken STRING (str (removelast body)) pos, pos + 1 + len body, [])
  end.

Definition read_identifier (pos : Z) (rest : list ascii)
  : Token * Z * list ascii :=
  let '(value, rest1) := span isalnum rest in
  let pos1 := pos + len value in
  if is_cell_ref value then
    match rest1 with
    | c :: ((_ :: _) as after) =>
        if is_char ":" c then
          let '(range_end, rest2) := span isalnum after in
          if is_cell_ref range_end then
            (mkToken RANGE (str (value ++ ":"%char :: range_end)) pos,
             pos1 + 1 + len range_end, rest2)
          else (mkToken CELL_REF (str value) pos, pos1, rest1)
        else (mkToken CELL_REF (str value) pos, pos1, rest1)
    | _ => (mkToken CELL_REF (str value) pos, pos1, rest1)
    end
  else (mkToken FUNCTION (str value) pos, pos1, rest1).

Definition read_operator (pos : Z) (rest : list ascii)
  : Token * Z * list ascii :=
  match rest with
  | c :: rest' =>
      if is_char "<" c || is_char ">" c || is_char "=" c then
        match rest' with
        | d :: rest'' =>
            if is_char "=" d then
              (mkToken OPERATOR (str [c; d]) pos, pos + 2, rest'')
            else (mkToken OPERATOR (str [c]) pos, pos + 1, rest')
        | [] => (mkToken OPERATOR (str [c]) pos, pos + 1, rest')
        end
      else (mkToken OPERATOR (str [c]) pos, pos + 1, rest')
  | [] => (mkToken OPERATOR "" pos, pos, [])
  end.

Definition is_operator_char (c : ascii) : bool :=
  existsb (Ascii.eqb c) (list_ascii_of_string "+-*/^=<>").

(** The ASCII characters no branch of the tokenizer recognises. *)
Definition is_unknown_char (c : ascii) : bool :=
  is_ascii c &&
  negb (isspace c || isdigit c || is_char "." c || is_char "034" c
        || isalpha c || is_operator_char c
        || is_char "(" c || is_char ")" c || is_char "," c).

Fixpoint tokenize_loop (fuel : nat) (pos : Z) (rest : list ascii)
    (tokens : list Token) : result (list Token) :=
  match fuel with
  | O => Raise FuelExhausted
  | S k =>
      let '(pos, rest) := skip_whitespace pos rest in
      match rest with
      | [] => Ok (tokens ++ [mkToken EOF "" pos])
      | char :: rest' =>
          let continue '(tok, pos', rest'') :=
            tokenize_loop k pos' rest'' (tokens ++ [tok]) in
          if isdigit char || is_char "." char then
            continue (read_number pos rest)
          else if is_char "034" char then continue (read_string pos rest)
          else if isalpha char then continue (read_identifier pos rest)
          else if is_operator_char char then continue (read_operator pos rest)
          else if is_char "(" char then
            tokenize_loop k (pos + 1) rest' (tokens ++ [mkToken LPAREN "(" pos])
          else if is_char ")" char then
            tokenize_loop k (pos + 1) rest' (tokens ++ [mkToken RPAREN ")" pos])
          else if is_char "," char then
            tokenize_loop k (pos + 1) rest' (tokens ++ [mkToken COMMA "," pos])
          else tokenize_loop k (pos + 1) rest' tokens
      end
  end.

(** [FormulaTokenizer(formula)]: the text is stripped, then one leading
    [=] is dropped. *)
Definition prepare (formula : string) : list ascii :=
  match strip_with isspace (list_ascii_of_string formula) with
  | c :: r => if is_char "=" c then r else c :: r
  | [] => []
  end.

Definition tokenize (formula : string) : result (list Token) :=
  let text := prepare formula in
  tokenize_loop (S (length text)) 0 text [].

(** *** Parser

    The parser state is the list of tokens from the current one on. *)

Definition current_token (st : list Token) : Token :=
  match st with
  | t :: _ => t
  | [] => mkToken EOF "" 0
  end.

(** [_advance] stays on the last token. *)
Definition advance (st : list Token) : list Token :=
  match st with
  | _ :: ((_ :: _) as rest) => rest
  | _ => st
  end.

Definition is_op (st : list Token) (ops : list string) : bool :=
  TokenType_eqb (type_ (current_token st)) OPERATOR
  && existsb (String.eqb (value (current_token st))) ops.

Definition is_type (st : list Token) (ty : TokenType) : bool :=
  TokenType_eqb (type_ (current_token st)) ty.

Definition parse_result := result (ASTNode * list Token).

Definition of_option {A} (o : option A) : result A :=
  match o with
  | Some a => Ok a
  | None => Raise ValueError
  end.

Fixpoint parse_expression (fuel : nat) (st : list Token) {struct fuel}
  : parse_result :=
  match fuel with
  | O => Raise FuelExhausted
  | S k => parse_comparison k st
  end

with parse_comparison (fuel : nat) (st : list Token) {struct fuel}
  : parse_result :=
  match fuel with
  | O => Raise FuelExhausted
  | S k => '(node, st) ← parse_addition k st; comparison_loop k node st
  end

with comparison_loop (fuel : nat) (node : ASTNode) (st : list Token)
    {struct fuel} : parse_result :=
  match fuel with
  | O => Raise FuelExhausted
  | S k =>
      if is_op st ["="; "<>"; "<"; "<="; ">"; ">="] then
        let operator := value (current_token st) in
        '(rhs, st) ← parse_addition k (advance st);
        comparison_loop k (BinaryOpNode node operator rhs) st
      else Ok (node, st)
  end

with parse_addition (fuel : nat) (st : list Token) {struct fuel}
  : parse_result :=
  match fuel with
  | O => Raise FuelExhausted
  | S k => '(node, st) ← parse_multiplication k st; addition_loop k node st
  end

with addition_loop (fuel : nat) (node : ASTNode) (st : list Token)
    {struct fuel} : parse_result :=
  match fuel with
  | O => Raise FuelExhausted
  | S k =>
      if is_op st ["+"; "-"] then
        let operator := value (current_token st) in
        '(rhs, st) ← parse_multiplication k (advance st);
        addition_loop k (BinaryOpNode node operator rhs) st
      else Ok (node, st)
  end

with parse_multiplication (fuel : nat) (st : list Token) {struct fuel}
  : parse_result :=
  match fuel with
  | O => Raise FuelExhausted
  | S k => '(node, st) ← parse_power k st; multiplication_loop k node st
  end

with multiplication_loop (fuel : nat) (node : ASTNode) (st : list Token)
    {struct fuel} : parse_result :=
  match fuel with
  | O => Raise FuelExhausted
  | S k =>
      if is_op st ["*"; "/"] then
        let operator := value (current_token st) in
        '(rhs, st) ← parse_power k (advance st);
        multiplication_loop k (BinaryOpNode node operator rhs) st
      else Ok (node, st)
  end

with parse_power (fuel : nat) (st : list Token) {struct fuel} : parse_result :=
  match fuel with
  | O => Raise FuelExhausted
  | S k =>
      '(node, st) ← parse_unary k st;
      if is_op st ["^"] then
        let operator := value (current_token st) in
        '(rhs, st) ← parse_power k (advance st);
        Ok (BinaryOpNode node operator rhs, st)
      else Ok (node, st)
  end

with parse_unary (fuel : nat) (st : list Token) {struct fuel} : parse_result :=
  match fuel with
  | O => Raise FuelExhausted
  | S k =>
      if is_op st ["+"; "-"] then
        let operator := value (current_token st) in
        '(operand, st) ← parse_unary k (advance st);
        Ok (UnaryOpNode operator operand, st)
      else parse_primary k st
  end

with parse_primary (fuel : nat) (st : list Token) {struct fuel}
  : parse_result :=
  match fuel with
  | O => Raise FuelExhausted
  | S k =>
      let token := current_token st in
      match type_ token with
      | NUMBER =>
          f ← of_option (float_of_str (value token));
          Ok (NumberNode f, advance st)
      | STRING => Ok (StringNode (value token), advance st)
      | CELL_REF =>
          '(row, col) ← of_option (parse_address (value token));
          Ok (CellRefNode row col, advance st)
      | RANGE =>
          cells ← of_option (parse_range (value token));
          Ok (RangeNode cells, advance st)
      | FUNCTION => parse_function k st
      | LPAREN =>
          '(node, st) ← parse_expression k (advance st);
          Ok (node, if is_type st RPAREN then advance st else st)
      | _ => Raise ValueError
      end
  end

with parse_function (fuel : nat) (st : list Token) {struct fuel}
  : parse_result :=
  match fuel with
  | O => Raise FuelExhausted
  | S k =>
      let name := value (current_token st) in
      let st := advance st in
      if negb (is_type st LPAREN) then Raise ValueError
      else
        let st := advance st in
        '(args, st) ←
          (if negb (is_type st RPAREN) then
             '(arg, st) ← parse_expression k st; arguments_loop k [arg] st
           else Ok ([], st));
        if negb (is_type st RPAREN) then Raise ValueError
        else Ok (FunctionNode name args, advance st)
  end

with arguments_loop (fuel : nat) (args : list ASTNode) (st : list Token)
    {struct fuel} : result (list ASTNode * list Token) :=
  match fuel with
  | O => Raise FuelExhausted
  | S k =>
      if is_type st COMMA then
        '(arg, st) ← parse_expression k (advance st);
        arguments_loop k (args ++ [arg]) st
      else Ok (args, st)
  end.

(** The nesting of calls grows by at most a dozen per token. *)
Definition parse_fuel (tokens : list Token) : nat := 12 * S (length tokens).

(** [FormulaParser(tokens).parse()] *)
Definition parse (tokens : list Token) : result ASTNode :=
  '(node, _) ← parse_expression (parse_fuel tokens) tokens; Ok node.

(** [parse_formula] *)
Definition parse_formula (formula : string) : result ASTNode :=
  tokens ← tokenize formula; parse tokens.

(** *** Evaluator *)

Section Evaluator.
Context `{Runtime}.
Variable get_cell_value : Z -> Z -> result pyval.

(** [value.replace('.', '').replace('-', '').isdigit()] *)
Definition digit_like (s : string) : bool :=
  let l := List.filter (fun c => negb (is_char "." c || is_char "-" c))
                  (list_ascii_of_string s) in
  match l with
  | [] => false
  | _ => forallb isdigit l
  end.

(** [_to_number]: [bool] is a subclass of [int], so the first test takes
    booleans too. *)
Definition to_number (value : pyval) : result float :=
  match value with
  | PBool b => float_of_int (Z.b2z b)
  | PInt z => float_of_int z
  | PFloat f => Ok f
  | PStr s =>
      if String.eqb s "" then Ok 0%float else of_option (float_of_str s)
  | _ => Raise ValueError
  end.

Definition not_empty (v : pyval) : bool := negb (py_eq v (PStr "")).

(** [_flatten_ranges] *)
Definition flatten_ranges (args : list pyval) : list pyval :=
  concat (map (fun arg => match arg with PList l => l | _ => [arg] end) args).

Fixpoint map_result {A B} (f : A -> result B) (l : list A)
  : result (list B) :=
  match l with
  | [] => Ok []
  | a :: l' => b ← f a; bs ← map_result f l'; Ok (b :: bs)
  end.

Definition numeric_values (args : list pyval) : result (list float) :=
  map_result to_number (List.filter not_empty (flatten_ranges args)).

Definition _sum (args : list pyval) : result pyval :=
  total ← fold_left
    (fun acc value => total ← acc;
                      if not_empty value then
                        n ← to_number value; Ok (total + n)%float
                      else Ok total)
    (flatten_ranges args) (Ok 0%float);
  Ok (PFloat total).

Definition _average (args : list pyval) : result pyval :=
  values ← numeric_values args;
  match values with
  | [] => Ok (PStr "#DIV/0!")
  | _ =>
      n ← float_of_int (Z.of_nat (length values));
      Ok (PFloat (py_sum values / n)%float)
  end.

(** [min] and [max] keep the first of the smallest, resp. largest. *)
Definition _min (args : list pyval) : result pyval :=
  values ← numeric_values args;
  match values with
  | [] => Ok (PStr "#VALUE!")
  | v :: vs =>
      Ok (PFloat (fold_left (fun m x => if (x <? m)%float then x else m) vs v))
  end.

Definition _max (args : list pyval) : result pyval :=
  values ← numeric_values args;
  match values with
  | [] => Ok (PStr "#VALUE!")
  | v :: vs =>
      Ok (PFloat (fold_left (fun m x => if (m <? x)%float then x else m) vs v))
  end.

Definition _count (args : list pyval) : result pyval :=
  Ok (PInt (Z.of_nat (length (List.filter not_empty (flatten_ranges args))))).

Definition _if (args : list pyval) : result pyval :=
  match args with
  | condition :: true_value :: rest =>
      let false_value := match rest with
                         | v :: _ => v
                         | [] => PStr ""
                         end in
      match condition with
      | PBool b => Ok (if b then true_value else false_value)
      | _ =>
          n ← to_number condition;
          Ok (if (n =? 0)%float then false_value else true_value)
      end
  | _ => Ok (PStr "#VALUE!")
  end.

Definition _abs (args : list pyval) : result pyval :=
  match args with
  | [x] => n ← to_number x; Ok (PFloat (abs n))
  | _ => Ok (PStr "#VALUE!")
  end.

Definition _round (args : list pyval) : result pyval :=
  match args with
  | [x] => number ← to_number x; Ok (PFloat (py_round number 0))
  | [x; d] =>
      number ← to_number x;
      digits ← (n ← to_number d; int_of_float n);
      Ok (PFloat (py_round number digits))
  | _ => Ok (PStr "#VALUE!")
  end.

Definition _concat (args : list pyval) : result pyval :=
  Ok (PStr (fold_right String.append "" (map py_str args))).

(** The table [self.functions]. *)
Definition functions (func_name : string)
  : option (list pyval -> result pyval) :=
  if String.eqb func_name "SUM" then Some _sum
  else if String.eqb func_name "AVERAGE" then Some _average
  else if String.eqb func_name "MIN" then Some _min
  else if String.eqb func_name "MAX" then Some _max
  else if String.eqb func_name "COUNT" then Some _count
  else if String.eqb func_name "IF" then Some _if
  else if String.eqb func_name "ABS" then Some _abs
  else if String.eqb func_name "ROUND" then Some _round
  else if String.eqb func_name "CONCAT" then Some _concat
  else None.

Definition upper_str (s : string) : string :=
  string_of_list_ascii (upper (list_ascii_of_string s)).

(** The first argument that is an error sentinel, in argument order. *)
Definition first_error (args : list pyval) : option pyval :=
  List.find is_error args.

Definition apply_binary (op : string) (left right : pyval) : result pyval :=
  if is_error left then Ok left
  else if is_error right then Ok right
  else
    let arith (f : float -> float -> float) :=
      l ← to_number left; r ← to_number right; Ok (PFloat (f l r)) in
    let compare (f : float -> float -> bool) :=
      l ← to_number left; r ← to_number right; Ok (PBool (f l r)) in
    if String.eqb op "+" then arith PrimFloat.add
    else if String.eqb op "-" then arith PrimFloat.sub
    else if String.eqb op "*" then arith PrimFloat.mul
    else if String.eqb op "/" then
      right_num ← to_number right;
      if (right_num =? 0)%float then Raise ZeroDivisionError
      else l ← to_number left; Ok (PFloat (l / right_num)%float)
    else if String.eqb op "^" then
      l ← to_number left; r ← to_number right; py_pow l r
    else if String.eqb op "=" then Ok (PBool (py_eq left right))
    else if String.eqb op "<>" then Ok (PBool (negb (py_eq left right)))
    else if String.eqb op "<" then compare PrimFloat.ltb
    else if String.eqb op "<=" then compare PrimFloat.leb
    else if String.eqb op ">" then compare (fun a b => PrimFloat.ltb b a)
    else if String.eqb op ">=" then compare (fun a b => PrimFloat.leb b a)
    else Ok (PStr "#ERROR!").

(** [_evaluate_function], once the arguments are evaluated. *)
Definition apply_function (name : string) (args : list pyval)
  : result pyval :=
  match functions (upper_str name) with
  | None => Ok (PStr "#NAME?")
  | Some f =>
      match first_error args with
      | Some arg => Ok arg
      | None => f args
      end
  end.

Definition read_cell_ref (row col : Z) : pyval :=
  match get_cell_value row col with
  | Raise _ => PStr "#REF!"
  | Ok value =>
      match value with
      | PStr s =>
          if digit_like s then
            match to_number value with
            | Ok f => PFloat f
            | Raise _ => PStr "#REF!"
            end
          else value
      | _ => value
      end
  end.

Definition read_range (cells : list (Z * Z)) : list pyval :=
  concat (map (fun '(row, col) =>
                 match get_cell_value row col with
                 | Ok value => if not_empty value then [value] else []
                 | Raise _ => []
                 end) cells).

Fixpoint _evaluate_node (node : ASTNode) : result pyval :=
  match node with
  | NumberNode value => Ok (PFloat value)
  | StringNode value => Ok (PStr value)
  | CellRefNode row col => Ok (read_cell_ref row col)
  | RangeNode cells => Ok (PList (read_range cells))
  | BinaryOpNode lhs op rhs =>
      l ← _evaluate_node lhs;
      r ← _evaluate_node rhs;
      apply_binary op l r
  | UnaryOpNode op operand =>
      v ← _evaluate_node operand;
      if String.eqb op "+" then n ← to_number v; Ok (PFloat n)
      else if String.eqb op "-" then n ← to_number v; Ok (PFloat (- n)%float)
      else Ok (PStr "#ERROR!")
  | FunctionNode name args =>
      match functions (upper_str name) with
      | None => Ok (PStr "#NAME?")
      | Some _ =>
          vs ← (fix eval_args (l : list ASTNode) : result (list pyval) :=
                  match l with
                  | [] => Ok []
                  | a :: l' =>
                      v ← _evaluate_node a; vs ← eval_args l'; Ok (v :: vs)
                  end) args;
          apply_function name vs
      end
  end.

(** [evaluate]: every exception becomes a sentinel. *)
Definition evaluate (node : ASTNode) : pyval :=
  match _evaluate_node node with
  | Ok v => v
  | Raise ZeroDivisionError => PStr "#DIV/0!"
  | Raise ValueError => PStr "#VALUE!"
  | Raise _ => PStr "#ERROR!"
  end.

(** [evaluate_formula] *)
Definition evaluate_formula (formula : string) : pyval :=
  match parse_formula formula with
  | Ok ast => evaluate ast
  | Raise _ => PStr "#ERROR!"
  end.

End Evaluator.

End Formula.

(** ** Dependency graph and recalculation ([engine.py]) *)

Module Engine.
Import Py Model Formula.

(** A [defaultdict(set)]: a missing key reads as the empty set.  The empty
    entries that reads create in Python are not recorded. *)
Definition get_set (m : gmap addr (gset addr)) (k : addr) : gset addr :=
  default ∅ (m !! k).

Record DependencyGraph := mkGraph {
  dependents : gmap addr (gset addr);
  dependencies : gmap addr (gset addr);
  ast_cache : gmap addr ASTNode
}.

Definition new_graph : DependencyGraph := mkGraph ∅ ∅ ∅.

(** [clear_dependencies] *)
Definition discard_dependent (cell : addr)
    (m : gmap addr (gset addr)) (dep : addr) : gmap addr (gset addr) :=
  <[dep := get_set m dep ∖ {[cell]}]> m.

Definition clear_dependencies (g : DependencyGraph) (cell : addr)
  : DependencyGraph :=
  mkGraph
    (foldl (discard_dependent cell) (dependents g)
           (elements (get_set (dependencies g) cell)))
    (<[cell := ∅]> (dependencies g))
    (delete cell (ast_cache g)).

(** [add_dependency] *)
Definition add_dependency (g : DependencyGraph) (dependent dependency : addr)
  : DependencyGraph :=
  mkGraph
    (<[dependency := {[dependent]} ∪ get_set (dependents g) dependency]>
       (dependents g))
    (<[dependent := {[dependency]} ∪ get_set (dependencies g) dependent]>
       (dependencies g))
    (ast_cache g).

Definition get_dependencies (g : DependencyGraph) (cell : addr) : gset addr :=
  get_set (dependencies g) cell.

Definition get_dependents (g : DependencyGraph) (cell : addr) : gset addr :=
  get_set (dependents g) cell.

(** A chain of a relation: each element is related to the next. *)
Fixpoint chain (R : addr -> addr -> Prop) (l : list addr) : Prop :=
  match l with
  | x :: l' =>
      match l' with
      | y :: _ => R x y /\ chain R l'
      | [] => True
      end
  | [] => True
  end.

(** [v] is a dependent of [u]. *)
Definition edge (ds : gmap addr (gset addr)) (u v : addr) : Prop :=
  v ∈ get_set ds u.

(** A cycle of the [dependents] relation: a chain whose first cell is a
    dependent of its last. *)
Definition is_cycle (ds : gmap addr (gset addr)) (l : list addr) : Prop :=
  exists x y, head l = Some x /\ last l = Some y /\ edge ds y x /\
              chain (edge ds) l.

(** The two maps mirror each other. *)
Definition consistent (g : DependencyGraph) : Prop :=
  forall c d : addr,
    d ∈ get_set (dependencies g) c <-> c ∈ get_set (dependents g) d.

(** The graph states reachable through the two mutators. *)
Inductive graph_reachable : DependencyGraph -> Prop :=
| reach_new_graph : graph_reachable new_graph
| reach_clear g cell :
    graph_reachable g -> graph_reachable (clear_dependencies g cell)
| reach_add g dependent dependency :
    graph_reachable g ->
    graph_reachable (add_dependency g dependent dependency).

(** [find_cycles]: the depth-first search threads [visited], [rec_stack]
    and [path]. *)
Record dfs_state := mkDfs {
  visited : gset addr;
  rec_stack : gset addr;
  path : list addr
}.

(** What holds whenever [dfs] is called on [cell]: the path is a chain
    that ends in a cell which has [cell] among its dependents, and the
    stack holds the cells of the path. *)
Definition dfs_inv (ds : gmap addr (gset addr)) (st : dfs_state)
    (cell : addr) : Prop :=
  chain (edge ds) (path st) /\
  (forall x, x ∈ rec_stack st <-> x ∈ path st) /\
  match last (path st) with
  | Some y => edge ds y cell
  | None => True
  end.

(** What [dfs] answers: a cycle, or nothing with stack and path as before. *)
Definition dfs_post (ds : gmap addr (gset addr)) (st : dfs_state)
    (r : option (list addr) * dfs_state) : Prop :=
  match r with
  | (Some cycle, _) => is_cycle ds cycle
  | (None, st') => path st' = path st /\ rec_stack st' = rec_stack st
  end.

(** [path[path.index(cell):]] *)
Fixpoint from_index (cell : addr) (path : list addr) : list addr :=
  match path with
  | [] => []
  | x :: rest => if decide (x = cell) then path else from_index cell rest
  end.

(** The [for] loop of [dfs] over the dependents of a cell, given the
    recursive call. *)
Fixpoint dfs_children (call : addr -> dfs_state -> option (list addr) * dfs_state)
    (l : list addr) (st : dfs_state) : option (list addr) * dfs_state :=
  match l with
  | [] => (None, st)
  | dependent :: l' =>
      match call dependent st with
      | (Some cycle, st') => (Some cycle, st')
      | (None, st') => dfs_children call l' st'
      end
  end.

Fixpoint dfs (fuel : nat) (dependents : gmap addr (gset addr))
    (cell : addr) (st : dfs_state) : option (list addr) * dfs_state :=
  match fuel with
  | O => (None, st)
  | S k =>
      if decide (cell ∈ rec_stack st) then (Some (from_index cell (path st)), st)
      else if decide (cell ∈ visited st) then (None, st)
      else
        let st1 := mkDfs ({[cell]} ∪ visited st) ({[cell]} ∪ rec_stack st)
                         (path st ++ [cell]) in
        match dfs_children (dfs k dependents)
                (elements (get_set dependents cell)) st1 with
        | (Some cycle, st') => (Some cycle, st')
        | (None, st') =>
            (None, mkDfs (visited st') (rec_stack st' ∖ {[cell]})
                         (removelast (path st')))
        end
  end.

(** Every cell that occurs in the [dependents] relation. *)
Definition graph_nodes (dependents : gmap addr (gset addr)) : gset addr :=
  map_fold (fun k s acc => {[k]} ∪ s ∪ acc) ∅ dependents.

(** The cells that marking from [start] can ever meet. *)
Definition universe (g : DependencyGraph) (start : addr) : gset addr :=
  {[start]} ∪ graph_nodes (dependents g).

Definition find_cycles (g : DependencyGraph) (start_cell : addr) : list addr :=
  let fuel := S (S (size (graph_nodes (dependents g)))) in
  match fst (dfs fuel (dependents g) start_cell (mkDfs ∅ ∅ [])) with
  | Some cycle => cycle
  | None => []
  end.

(** [topological_sort] *)
Definition get_degree (m : gmap addr Z) (k : addr) : Z := default 0 (m !! k).

Definition in_degrees (g : DependencyGraph) (cells : gset addr) : gmap addr Z :=
  foldl (fun in_degree cell =>
           foldl (fun in_degree dep =>
                    if decide (dep ∈ cells)
                    then <[cell := get_degree in_degree cell + 1]> in_degree
                    else in_degree)
                 in_degree (elements (get_set (dependencies g) cell)))
        ∅ (elements cells).

Definition release (cells : gset addr)
    (acc : gmap addr Z * list addr) (dependent : addr)
  : gmap addr Z * list addr :=
  let '(in_degree, queue) := acc in
  if decide (dependent ∈ cells) then
    let d := get_degree in_degree dependent - 1 in
    (<[dependent := d]> in_degree,
     if d =? 0 then queue ++ [dependent] else queue)
  else acc.

Fixpoint sort_loop (fuel : nat) (g : DependencyGraph) (cells : gset addr)
    (in_degree : gmap addr Z) (queue result : list addr) : list addr :=
  match fuel, queue with
  | S k, cell :: queue' =>
      let '(in_degree', queue'') :=
        foldl (release cells) (in_degree, queue')
              (elements (get_set (dependents g) cell)) in
      sort_loop k g cells in_degree' queue'' (result ++ [cell])
  | _, _ => result
  end.

Definition topological_sort (g : DependencyGraph) (cells : gset addr)
  : list addr :=
  let in_degree := in_degrees g cells in
  let queue :=
    List.filter (fun cell => get_degree in_degree cell =? 0) (elements cells) in
  sort_loop (S (size cells)) g cells in_degree queue [].

(** The number of cells of [cells] that [c] reads and that are not in
    [done] yet. *)
Definition waits_for (cells : gset addr) (done : list addr) (d : addr) : bool :=
  bool_decide (d ∈ cells) && negb (bool_decide (d ∈ done)).

Definition pending (g : DependencyGraph) (cells : gset addr)
    (done : list addr) (c : addr) : nat :=
  length (List.filter (waits_for cells done)
                      (elements (get_set (dependencies g) c))).

(** No cycle among [cells]: no non-empty part of [cells] in which every
    cell reads another cell of the part. *)
Definition acyclic_among (g : DependencyGraph) (cells : gset addr) : Prop :=
  forall part : gset addr,
    part ⊆ cells ->
    (forall c, c ∈ part ->
       exists d, d ∈ get_set (dependencies g) c /\ d ∈ part) ->
    part = ∅.

(** In [order], every cell comes after the cells of [cells] it reads. *)
Definition dependencies_first (g : DependencyGraph) (cells : gset addr)
    (order : list addr) : Prop :=
  forall before c after,
    order = before ++ c :: after ->
    forall d, d ∈ get_set (dependencies g) c -> d ∈ cells -> d ∈ before.

(** The invariant of the loop of [topological_sort]. *)
Definition sort_inv (g : DependencyGraph) (cells : gset addr)
    (in_degree : gmap addr Z) (queue result : list addr) : Prop :=
  NoDup (result ++ queue) /\
  (forall c, c ∈ result ++ queue -> c ∈ cells) /\
  (forall c, c ∈ cells ->
     get_degree in_degree c = Z.of_nat (pending g cells result c)) /\
  (forall c, c ∈ cells ->
     pending g cells result c = 0%nat <-> c ∈ result ++ queue) /\
  dependencies_first g cells result.

(** [extract_dependencies_from_ast] *)
Fixpoint extract_dependencies_from_ast (ast : ASTNode) : gset addr :=
  match ast with
  | CellRefNode row col => {[(row, col)]}
  | RangeNode cells => list_to_set cells
  | BinaryOpNode lhs _ rhs =>
      extract_dependencies_from_ast lhs ∪ extract_dependencies_from_ast rhs
  | UnaryOpNode _ operand => extract_dependencies_from_ast operand
  | FunctionNode _ args =>
      (fix visit_all (l : list ASTNode) : gset addr :=
         match l with
         | [] => ∅
         | a :: l' => extract_dependencies_from_ast a ∪ visit_all l'
         end) args
  | _ => ∅
  end.

Section CalculationEngine.
Context `{Runtime}.

Record CalculationEngine := mkEngine {
  model : SpreadsheetModel;
  dependency_graph : DependencyGraph;
  dirty_cells : gset addr;
  calculating : bool
}.

(** [CalculationEngine(model)] *)
Definition new_engine (m : SpreadsheetModel) : CalculationEngine :=
  mkEngine m new_graph ∅ false.

Definition with_model (m : SpreadsheetModel) (e : CalculationEngine) :=
  mkEngine m (dependency_graph e) (dirty_cells e) (calculating e).

(** Writes through the reference that [get_cell] returns: the cell is
    created when absent, then updated in place. *)
Definition update_cell (s : Sheet) (pos : addr) (f : Cell -> Cell) : Sheet :=
  let '(cell, s') := get_cell s (fst pos) (snd pos) in
  with_cells (<[pos := f cell]> (cells s')) s'.

(** [_get_cell_value] *)
Definition _get_cell_value (s : Sheet) (row col : Z) : pyval :=
  match cells s !! (row, col) with
  | None => PStr ""
  | Some cell =>
      match Model.value cell with
      | PNone => PStr ""
      | v => v
      end
  end.

(** [mark_dirty]: [to_mark.pop()] takes the first of [elements]. *)
Fixpoint mark_loop (fuel : nat) (g : DependencyGraph)
    (to_mark marked dirty : gset addr) : gset addr :=
  match fuel, elements to_mark with
  | S k, current :: _ =>
      let to_mark := to_mark ∖ {[current]} in
      if decide (current ∈ marked) then mark_loop k g to_mark marked dirty
      else
        mark_loop k g (to_mark ∪ get_dependents g current)
                  ({[current]} ∪ marked) ({[current]} ∪ dirty)
  | _, _ => dirty
  end.

Definition mark_fuel (g : DependencyGraph) : nat :=
  let n := S (size (graph_nodes (dependents g))) in S (S (S n * n)).

Definition mark_dirty (e : CalculationEngine) (cell : addr)
  : CalculationEngine :=
  mkEngine (model e) (dependency_graph e)
    (mark_loop (mark_fuel (dependency_graph e)) (dependency_graph e)
               {[cell]} ∅ (dirty_cells e))
    (calculating e).

(** The literal of a cell that holds no formula. *)
Definition literal_value (raw : string) : pyval :=
  if digit_like raw then
    match float_of_str raw with
    | Some f => PFloat f
    | None => PStr raw
    end
  else PStr raw.

(** [_calculate_cell] *)
Definition _calculate_cell (g : DependencyGraph) (s : Sheet) (cell_pos : addr)
  : Sheet :=
  let s := update_cell s cell_pos (set_error None) in
  let cell := fst (get_cell s (fst cell_pos) (snd cell_pos)) in
  if negb (is_formula cell) then
    update_cell s cell_pos (set_value (literal_value (raw cell)))
  else
    match ast_cache g !! cell_pos with
    | Some ast =>
        let result :=
          evaluate (fun row col => Ok (_get_cell_value s row col)) ast in
        if is_error result then
          update_cell s cell_pos
            (fun c => set_value result
                        (set_error (match result with
                                    | PStr e => Some e
                                    | _ => None
                                    end) c))
        else update_cell s cell_pos (set_value result)
    | None =>
        update_cell s cell_pos
          (fun c => set_value (PStr "#ERROR!") (set_error (Some "#ERROR!") c))
    end.

(** [recalculate] *)
Definition recalculate (e : CalculationEngine) : CalculationEngine :=
  if calculating e || bool_decide (dirty_cells e = ∅) then e
  else
    let calc_order :=
      topological_sort (dependency_graph e) (dirty_cells e) in
    let s := foldl (_calculate_cell (dependency_graph e))
                   (sheet (model e)) calc_order in
    mkEngine (with_sheet s (model e)) (dependency_graph e) ∅ false.

Definition starts_with_eq (formula : string) : bool :=
  match formula with
  | String c _ => Ascii.eqb c "="
  | EmptyString => false
  end.

Definition mark_cycle (s : Sheet) (cycle_cell : addr) : Sheet :=
  update_cell s cycle_cell
    (fun c => set_value (PStr "#CYCLE!") (set_error (Some "#CYCLE!") c)).

Definition with_graph (g : DependencyGraph) (e : CalculationEngine) :=
  mkEngine (model e) g (dirty_cells e) (calculating e).

Definition finish_edit (e : CalculationEngine) (cell_pos : addr)
  : CalculationEngine :=
  let e := mark_dirty e cell_pos in
  if negb (calculating e) then recalculate e else e.

(** The AST is cached, then every dependency it mentions is added. *)
Definition install_formula (g : DependencyGraph) (cell_pos : addr)
    (ast : ASTNode) : DependencyGraph :=
  foldl (fun g dep => add_dependency g cell_pos dep)
        (mkGraph (dependents g) (dependencies g)
                 (<[cell_pos := ast]> (ast_cache g)))
        (elements (extract_dependencies_from_ast ast)).

(** [set_cell_formula] *)
Definition set_cell_formula (e : CalculationEngine) (row col : Z)
    (formula : string) : CalculationEngine :=
  let cell_pos := (row, col) in
  let e := with_graph (clear_dependencies (dependency_graph e) cell_pos) e in
  if starts_with_eq formula then
    match parse_formula formula with
    | Ok ast =>
        let g := install_formula (dependency_graph e) cell_pos ast in
        let e := with_graph g e in
        match find_cycles g cell_pos with
        | [] => finish_edit e cell_pos
        | cycles =>
            with_model
              (with_sheet (foldl mark_cycle (sheet (model e)) cycles)
                          (model e)) e
        end
    | Raise _ =>
        with_model
          (with_sheet
             (update_cell (sheet (model e)) cell_pos
                (fun c => set_value (PStr "#ERROR!")
                            (set_error (Some "#ERROR!") c)))
             (model e)) e
    end
  else finish_edit e cell_pos.

(** [recalculate_all] *)
Definition recalculate_all (e : CalculationEngine) : CalculationEngine :=
  let formula_cells :=
    dom (filter (fun kc => is_formula (snd kc) = true) (cells (sheet (model e)))) in
  recalculate
    (mkEngine (model e) (dependency_graph e)
              (dirty_cells e ∪ formula_cells) (calculating e)).

(** A user edit of one cell: the raw text is stored in the sheet, then
    the engine is told ([test_basic.py], [test_calculation_engine]). *)
Definition edit (e : CalculationEngine) (row col : Z) (text : string)
  : CalculationEngine :=
  set_cell_formula (with_model (fst (set_cell_raw (model e) row col text)) e)
                   row col text.


(** What recalculating the cell at [pos] gives on the sheet [s]: the
    literal of its text, or the value of its cached formula on the values
    that the cells of [s] show. *)
Definition normal_value (g : DependencyGraph) (s : Sheet) (pos : addr)
  : pyval :=
  let cell := default empty_cell (cells s !! pos) in
  if negb (is_formula cell) then literal_value (raw cell)
  else
    match ast_cache g !! pos with
    | Some ast => evaluate (fun row col => Ok (_get_cell_value s row col)) ast
    | None => PStr "#ERROR!"
    end.

Definition normal_error (g : DependencyGraph) (s : Sheet) (pos : addr)
  : option string :=
  let cell := default empty_cell (cells s !! pos) in
  if negb (is_formula cell) then None
  else
    match normal_value g s pos with
    | PStr e => if is_error (PStr e) then Some e else None
    | _ => None
    end.

(** The cell at [pos] shows its normal value, and the error that goes
    with it. *)
Definition recomputed (g : DependencyGraph) (s : Sheet) (pos : addr) : Prop :=
  exists c, cells s !! pos = Some c /\
            Model.value c = normal_value g s pos /\
            error c = normal_error g s pos.

(** Every cached formula reads only cells that the graph records as
    dependencies of its cell. *)
Definition cache_coherent (g : DependencyGraph) : Prop :=
  forall pos ast,
    ast_cache g !! pos = Some ast ->
    extract_dependencies_from_ast ast ⊆ get_set (dependencies g) pos.

(** What a cell shows: its value and its error, when it is stored. *)
Definition cell_value (e : CalculationEngine) (pos : addr) : option pyval :=
  Model.value <$> cells (sheet (model e)) !! pos.


(** Deleting a cell: [Sheet.delete_cell] on the model of the engine. *)
Definition delete_in_sheet (e : CalculationEngine) (row col : Z)
  : CalculationEngine :=
  with_model (with_sheet (delete_cell (sheet (model e)) row col) (model e)) e.

(** A sheet whose texts and string values are ASCII. *)
Definition ascii_cell (c : Cell) : bool :=
  PyStr.ascii_text (list_ascii_of_string (raw c)) &&
  match Model.value c with
  | PStr v => PyStr.ascii_text (list_ascii_of_string v)
  | _ => true
  end.

Definition ascii_sheet (s : Sheet) : Prop :=
  forall pos c, cells s !! pos = Some c -> ascii_cell c = true.

(** The engine states that edits with ASCII texts reach from a fresh
    engine over an ASCII sheet. *)
Inductive engine_reachable : CalculationEngine -> Prop :=
| reach_new_engine m :
    ascii_sheet (sheet m) -> engine_reachable (new_engine m)
| reach_edit e row col text :
    PyStr.ascii_text (list_ascii_of_string text) = true ->
    engine_reachable e -> engine_reachable (edit e row col text).

(** What holds of the engine between two edits. *)
Definition engine_ok (e : CalculationEngine) : Prop :=
  consistent (dependency_graph e) /\
  cache_coherent (dependency_graph e) /\
  calculating e = false /\
  dirty_cells e = ∅.


(** *** The scenarios of the specification, from an empty workbook *)

Definition empty_engine : CalculationEngine := new_engine new_model.

(** A1, A2, A3 hold 1, 2, 3 and D1 holds [=SUM(A1:A3)]. *)
Definition sum_sheet : CalculationEngine :=
  edit (edit (edit (edit empty_engine 0 0 "1") 1 0 "2") 2 0 "3")
       0 3 "=SUM(A1:A3)".

(** Then A2 is changed to 10. *)
Definition sum_sheet_changed : CalculationEngine := edit sum_sheet 1 0 "10".

(** A1 is [=B1], B1 is [=C1], C1 is [=A1]. *)
Definition three_cycle : CalculationEngine :=
  edit (edit (edit empty_engine 0 0 "=B1") 0 1 "=C1") 0 2 "=A1".



End CalculationEngine.

End Engine.

(** ** Serialisation ([model.py], [to_dict] and [from_dict]) *)

Module Storage.
Import PyStr Py Model.

(** [Cell.to_dict] *)
Definition cell_to_dict (c : Cell) : gmap string pyobj :=
  <["raw" := OVal (PStr (raw c))]>
  (<["value" := OVal (value c)]>
  (<["format" := ODict (format c)]>
  (<["error" := OVal (match error c with
                      | Some e => PStr e
                      | None => PNone
                      end)]> ∅))).

(** Python truth of a plain value. *)
Definition truthy (v : pyval) : bool :=
  match v with
  | PNone => false
  | PBool b => b
  | PInt z => negb (z =? 0)
  | PFloat f => negb (f =? 0)%float
  | PStr s => negb (String.eqb s "")
  | PList l => match l with [] => false | _ => true end
  end.

(** [Cell.from_dict]: only [raw], [value], [format] and [error] are read. *)
Definition cell_from_dict (data : gmap string pyobj) : result Cell :=
  raw ← match default (OVal (PStr "")) (data !! "raw") with
        | OVal (PStr s) => Ok s
        | _ => Raise Untyped
        end;
  value ← match default (OVal (PStr "")) (data !! "value") with
          | OVal v => Ok v
          | _ => Raise Untyped
          end;
  format ← match default (ODict ∅) (data !! "format") with
           | ODict f => Ok f
           | OVal v => if truthy v then Raise Untyped else Ok ∅
           end;
  error ← match default (OVal PNone) (data !! "error") with
          | OVal PNone => Ok None
          | OVal (PStr e) => Ok (Some e)
          | _ => Raise Untyped
          end;
  Ok (mkCell raw value format error).

(** [f"{row},{col}"] *)
Definition position_key (pos : addr) : string :=
  string_of_list_ascii
    (str_of_int (fst pos) ++ ","%char :: str_of_int (snd pos)).

(** [int(s)] for a string: surrounding space (that of C [isspace]), a
    sign, digits with single underscores between them. *)
Definition int_of_chars (s : list ascii) : option Z :=
  let '(neg, body) := take_sign (strip_with c_isspace s) in
  match drop_underscores None body with
  | Some ((_ :: _) as ds) =>
      if forallb isdigit ds
      then Some (if neg then - int_of_digits ds else int_of_digits ds)
      else None
  | _ => None
  end.

(** [s.split(',')] *)
Fixpoint split_comma (l : list ascii) : list (list ascii) :=
  match l with
  | [] => [[]]
  | c :: r =>
      if Ascii.eqb c "," then [] :: split_comma r
      else match split_comma r with
           | part :: parts => (c :: part) :: parts
           | [] => [[c]]
           end
  end.

(** [row, col = map(int, pos_str.split(','))] *)
Definition parse_position (pos_str : string) : result addr :=
  match split_comma (list_ascii_of_string pos_str) with
  | [r; c] =>
      match int_of_chars r, int_of_chars c with
      | Some row, Some col => Ok (row, col)
      | _, _ => Raise ValueError
      end
  | _ => Raise ValueError
  end.

(** [SpreadsheetModel.to_dict] *)
Definition cells_to_dict (m : gmap addr Cell) : gmap string pyobj :=
  map_fold (fun pos cell acc =>
              <[position_key pos := ODict (cell_to_dict cell)]> acc) ∅ m.

Definition to_dict (m : SpreadsheetModel) : gmap string pyobj :=
  <["sheet_name" := OVal (PStr (name (sheet m)))]>
  (<["cells" := ODict (cells_to_dict (cells (sheet m)))]>
  (<["max_row" := OVal (PInt (max_row (sheet m)))]>
  (<["max_col" := OVal (PInt (max_col (sheet m)))]> ∅))).

(** [SpreadsheetModel.from_dict]: the model afterwards (the observers
    are told last; their answer is the boolean). *)
Definition cells_from_dict (d : gmap string pyobj) : result (gmap addr Cell) :=
  map_fold (fun pos_str cell_data acc =>
              m ← acc;
              pos ← parse_position pos_str;
              cell ← match cell_data with
                     | ODict data => cell_from_dict data
                     | OVal _ => Raise OtherException
                     end;
              Ok (<[pos := cell]> m)) (Ok ∅) d.

Definition from_dict (m : SpreadsheetModel) (data : gmap string pyobj)
  : result (SpreadsheetModel * bool) :=
  sheet_name ← match default (OVal (PStr "Sheet1")) (data !! "sheet_name") with
               | OVal (PStr s) => Ok s
               | _ => Raise Untyped
               end;
  max_row ← match default (OVal (PInt 0)) (data !! "max_row") with
            | OVal (PInt z) => Ok z
            | _ => Raise Untyped
            end;
  max_col ← match default (OVal (PInt 0)) (data !! "max_col") with
            | OVal (PInt z) => Ok z
            | _ => Raise Untyped
            end;
  cells ← match default (ODict ∅) (data !! "cells") with
          | ODict d => cells_from_dict d
          | OVal _ => Raise OtherException
          end;
  let m' := mkModel (mkSheet cells sheet_name max_row max_col)
                    (filename m) false (observers m) in
  Ok (m', notify_observers m' model_loaded).

(** The keys of a cell record that [Cell.from_dict] reads. *)
Definition known_cell_keys : list string := ["raw"; "value"; "format"; "error"].

(** A dictionary of cell records that holds exactly the cells of [m]. *)
Definition represents (d : gmap string pyobj) (m : gmap addr Cell) : Prop :=
  (forall pos,
      d !! position_key pos = (fun c => ODict (cell_to_dict c)) <$> (m !! pos)) /\
  (forall k v, d !! k = Some v -> exists pos, k = position_key pos).

Definition no_char (a : ascii) (l : list ascii) : Prop :=
  Forall (fun c => Ascii.eqb c a = false) l.

End Storage.

(** ** Undo and redo ([undo.py]) *)

Module Undo.
Import Py Model.

(** The abstract base class [Command], over the state [W] that commands
    act on: each method returns the state afterwards and its boolean. *)
Class Command (C W : Type) := {
  execute : C -> W -> W * bool;
  undo : C -> W -> W * bool;
  get_description : C -> string
}.

Section Manager.
Context {C W : Type} `{Command C W}.

Record UndoRedoManager := mkManager {
  undo_stack : list C;
  redo_stack : list C;
  max_history : Z
}.

(** [UndoRedoManager(max_history=100)] *)
Definition new_manager : UndoRedoManager := mkManager [] [] 100.

Definition len (l : list C) : Z := Z.of_nat (length l).

(** [execute_command] *)
Definition execute_command (mgr : UndoRedoManager) (command : C) (w : W)
  : UndoRedoManager * W * bool :=
  let '(w', ok) := execute command w in
  if ok then
    let stack := undo_stack mgr ++ [command] in
    let stack := if max_history mgr <? len stack then tl stack else stack in
    (mkManager stack [] (max_history mgr), w', true)
  else (mgr, w', false).

Definition can_undo (mgr : UndoRedoManager) : bool :=
  0 <? len (undo_stack mgr).
Definition can_redo (mgr : UndoRedoManager) : bool :=
  0 <? len (redo_stack mgr).

(** [undo]: [pop()] takes the last command. *)
Definition manager_undo (mgr : UndoRedoManager) (w : W)
  : UndoRedoManager * W * bool :=
  match last (undo_stack mgr) with
  | None => (mgr, w, false)
  | Some command =>
      let popped := removelast (undo_stack mgr) in
      let '(w', ok) := undo command w in
      if ok then
        (mkManager popped (redo_stack mgr ++ [command]) (max_history mgr),
         w', true)
      else
        (mkManager (popped ++ [command]) (redo_stack mgr) (max_history mgr),
         w', false)
  end.

(** [redo] *)
Definition manager_redo (mgr : UndoRedoManager) (w : W)
  : UndoRedoManager * W * bool :=
  match last (redo_stack mgr) with
  | None => (mgr, w, false)
  | Some command =>
      let popped := removelast (redo_stack mgr) in
      let '(w', ok) := execute command w in
      if ok then
        (mkManager (undo_stack mgr ++ [command]) popped (max_history mgr),
         w', true)
      else
        (mkManager (undo_stack mgr) (popped ++ [command]) (max_history mgr),
         w', false)
  end.

Definition clear_history (mgr : UndoRedoManager) : UndoRedoManager :=
  mkManager [] [] (max_history mgr).

Definition get_history_size (mgr : UndoRedoManager) : Z * Z :=
  (len (undo_stack mgr), len (redo_stack mgr)).

(** The states of a manager built with the default bound, under any
    sequence of calls on any commands and any states. *)
Inductive manager_reachable : UndoRedoManager -> Prop :=
| reach_new_manager : manager_reachable new_manager
| reach_execute mgr command w :
    manager_reachable mgr ->
    manager_reachable (execute_command mgr command w).1.1
| reach_undo mgr w :
    manager_reachable mgr -> manager_reachable (manager_undo mgr w).1.1
| reach_redo mgr w :
    manager_reachable mgr -> manager_reachable (manager_redo mgr w).1.1
| reach_clear_history mgr :
    manager_reachable mgr -> manager_reachable (clear_history mgr).

(** The two stacks together never hold more than the bound. *)
Definition within_bound (mgr : UndoRedoManager) : Prop :=
  max_history mgr = 100 /\
  (length (undo_stack mgr) + length (redo_stack mgr) <= 100)%nat.

End Manager.

Arguments UndoRedoManager C : clear implicits.

(** *** The commands on a sheet

    Formats are held by value: the sharing of one format dictionary between
    a command and a cell is not modelled. *)

Definition cell_data : Type := string * pyval * gmap string pyobj.

Inductive SheetCommand :=
| SetCellCommand (row col : Z) (new_raw : string)
    (old_raw : string) (old_value : pyval) (old_format : gmap string pyobj)
    (had_cell : bool)
| InsertRowCommand (row : Z)
| DeleteRowCommand (row : Z) (deleted_cells : gmap addr cell_data)
| InsertColumnCommand (col : Z)
| DeleteColumnCommand (col : Z) (deleted_cells : gmap addr cell_data)
| FormatCellCommand (row col : Z)
    (format_changes old_format : gmap string pyobj)
| MacroCommand (commands : list SheetCommand) (description : string).

(** The constructors capture the state to restore. *)
Definition make_set_cell (m : SpreadsheetModel) (row col : Z) (new_raw : string)
  : SheetCommand :=
  match cells (sheet m) !! (row, col) with
  | Some old_cell =>
      SetCellCommand row col new_raw
        (raw old_cell) (value old_cell) (format old_cell) true
  | None => SetCellCommand row col new_raw "" (PStr "") ∅ false
  end.

Definition capture (keep : addr -> bool) (m : SpreadsheetModel)
  : gmap addr cell_data :=
  (fun c => (raw c, value c, format c)) <$>
    filter (fun kc => keep (fst kc) = true) (cells (sheet m)).

Definition make_delete_row (m : SpreadsheetModel) (row : Z) : SheetCommand :=
  DeleteRowCommand row (capture (fun '(r, _) => r =? row) m).

Definition make_delete_column (m : SpreadsheetModel) (col : Z) : SheetCommand :=
  DeleteColumnCommand col (capture (fun '(_, c) => c =? col) m).

(** [FormatCellCommand.__init__] reads through [get_cell], which may
    create the cell. *)
Definition make_format_cell (m : SpreadsheetModel) (row col : Z)
    (format_changes : gmap string pyobj) : SheetCommand * SpreadsheetModel :=
  let '(cell, s) := get_cell (sheet m) row col in
  (FormatCellCommand row col format_changes (format cell), with_sheet s m).

(** A value passed as [value=]: [None] selects the default. *)
Definition value_arg (v : pyval) : option pyval :=
  match v with
  | PNone => None
  | _ => Some v
  end.

(** The cell that [set_cell] builds from the text, the value and the
    format of a cell: a value [None] is replaced by the text, and no error
    is set. *)
Definition rebuilt_cell (c : Cell) : Cell :=
  new_cell (raw c) (default (PStr (raw c)) (value_arg (Model.value c)))
           (Some (format c)).

Definition restore_cells (s : Sheet) (deleted : gmap addr cell_data) : Sheet :=
  map_fold (fun pos '(raw, value, format) s =>
              set_cell s (fst pos) (snd pos) raw (value_arg value) (Some format))
           s deleted.

Definition on_sheet (f : Sheet -> Sheet) (ev : event) (m : SpreadsheetModel)
  : SpreadsheetModel * bool :=
  let m' := with_sheet (f (sheet m)) m in (m', notify_observers m' ev).

Definition write_format (row col : Z)
    (f : gmap string pyobj -> gmap string pyobj) (s : Sheet) : Sheet :=
  let '(cell, s') := get_cell s row col in
  with_cells (<[(row, col) := set_format (f (format cell)) cell]> (cells s')) s'.

Fixpoint sheet_undo_step (c : SheetCommand) (m : SpreadsheetModel)
  : SpreadsheetModel * bool :=
  match c with
  | SetCellCommand row col _ old_raw old_value old_format had_cell =>
      on_sheet (fun s =>
                  if had_cell
                  then set_cell s row col old_raw (value_arg old_value)
                                (Some old_format)
                  else delete_cell s row col)
               (cell_changed row col) m
  | InsertRowCommand row =>
      on_sheet (fun s => delete_row s row) structure_changed m
  | DeleteRowCommand row deleted_cells =>
      on_sheet (fun s => restore_cells (insert_row s row) deleted_cells)
               structure_changed m
  | InsertColumnCommand col =>
      on_sheet (fun s => delete_column s col) structure_changed m
  | DeleteColumnCommand col deleted_cells =>
      on_sheet (fun s => restore_cells (insert_column s col) deleted_cells)
               structure_changed m
  | FormatCellCommand row col _ old_format =>
      on_sheet (write_format row col (fun _ => old_format))
               (cell_changed row col) m
  | MacroCommand commands _ =>
      (fix run (l : list SheetCommand) (m : SpreadsheetModel)
         : SpreadsheetModel * bool :=
         match l with
         | [] => (m, true)
         | command :: l' =>
             let '(m', ok) := run l' m in
             if ok then sheet_undo_step command m' else (m', false)
         end) commands m
  end.

Fixpoint sheet_execute (c : SheetCommand) (m : SpreadsheetModel)
  : SpreadsheetModel * bool :=
  match c with
  | SetCellCommand row col new_raw _ _ _ _ => set_cell_raw m row col new_raw
  | InsertRowCommand row =>
      on_sheet (fun s => insert_row s row) structure_changed m
  | DeleteRowCommand row _ =>
      on_sheet (fun s => delete_row s row) structure_changed m
  | InsertColumnCommand col =>
      on_sheet (fun s => insert_column s col) structure_changed m
  | DeleteColumnCommand col _ =>
      on_sheet (fun s => delete_column s col) structure_changed m
  | FormatCellCommand row col format_changes _ =>
      on_sheet (write_format row col (fun f => format_changes ∪ f))
               (cell_changed row col) m
  | MacroCommand commands _ =>
      (fix run (l executed : list SheetCommand) (m : SpreadsheetModel)
         : SpreadsheetModel * bool :=
         match l with
         | [] => (m, true)
         | command :: l' =>
             let '(m', ok) := sheet_execute command m in
             if ok then run l' (command :: executed) m'
             else
               (fold_left (fun m cmd => fst (sheet_undo_step cmd m))
                          executed m', false)
         end) commands [] m
  end.

Definition sheet_description (c : SheetCommand) : string :=
  match c with
  | SetCellCommand row col _ _ _ _ _ =>
      "Set " ++ Address.address_to_string row col
  | InsertRowCommand row =>
      "Insert row " ++ string_of_list_ascii (PyStr.str_of_int (row + 1))
  | DeleteRowCommand row _ =>
      "Delete row " ++ string_of_list_ascii (PyStr.str_of_int (row + 1))
  | InsertColumnCommand col => "Insert column " ++ Address.col_to_letter col
  | DeleteColumnCommand col _ => "Delete column " ++ Address.col_to_letter col
  | FormatCellCommand row col _ _ =>
      "Format " ++ Address.address_to_string row col
  | MacroCommand _ description => description
  end%string.

#[global] Instance sheet_command : Command SheetCommand SpreadsheetModel := {
  execute := sheet_execute;
  undo := sheet_undo_step;
  get_description := sheet_description
}.

(** A model whose observers raise on every cell change. *)
Definition deaf_model : SpreadsheetModel :=
  add_observer new_model
    (fun ev => match ev with cell_changed _ _ => false | _ => true end).

End Undo.

(** * Properties *)

(** ** Address codec *)

Module AddressFacts.
Import PyStr Address.

Ltac zdm := Z.div_mod_to_equations; lia.

Lemma ord_range c : 0 <= ord c < 256.
Proof.
  unfold ord. pose proof (N_ascii_bounded c). lia.
Qed.

Lemma ord_chr z : 0 <= z < 256 -> ord (chr z) = z.
Proof.
  intros Hz. unfold ord, chr. rewrite N_ascii_embedding; lia.
Qed.

Lemma chr_ord c : chr (ord c) = c.
Proof.
  unfold ord, chr. rewrite N2Z.id. apply ascii_N_embedding.
Qed.

Lemma is_upper_range c : is_upper c = true <-> 65 <= ord c <= 90.
Proof. unfold is_upper. rewrite andb_true_iff, !Z.leb_le. tauto. Qed.

Lemma isdigit_range c : isdigit c = true <-> 48 <= ord c <= 57.
Proof. unfold isdigit. rewrite andb_true_iff, !Z.leb_le. tauto. Qed.

Lemma is_lower_range c : is_lower c = true <-> 97 <= ord c <= 122.
Proof. unfold is_lower. rewrite andb_true_iff, !Z.leb_le. tauto. Qed.

Lemma upper_char_fixed c : is_lower c = false -> upper_char c = c.
Proof. intros H. unfold upper_char. now rewrite H. Qed.

Lemma is_upper_not_lower c : is_upper c = true -> is_lower c = false.
Proof.
  rewrite is_upper_range. intros H.
  destruct (is_lower c) eqn:E; [|reflexivity].
  apply is_lower_range in E. lia.
Qed.

Lemma isdigit_not_lower c : isdigit c = true -> is_lower c = false.
Proof.
  rewrite isdigit_range. intros H.
  destruct (is_lower c) eqn:E; [|reflexivity].
  apply is_lower_range in E. lia.
Qed.

Lemma isdigit_not_upper c : isdigit c = true -> is_upper c = false.
Proof.
  rewrite isdigit_range. intros H.
  destruct (is_upper c) eqn:E; [|reflexivity].
  apply is_upper_range in E. lia.
Qed.

Lemma upper_fixed l :
  Forall (fun c => is_lower c = false) l -> upper l = l.
Proof.
  induction 1 as [|c l Hc _ IH]; simpl; [reflexivity|].
  now rewrite upper_char_fixed, IH.
Qed.

(** An upper-cased character is never a lower-case letter. *)
Lemma upper_char_not_lower c : is_lower (upper_char c) = false.
Proof.
  unfold upper_char. destruct (is_lower c) eqn:E; [|exact E].
  apply is_lower_range in E.
  destruct (is_lower (chr (ord c - 32))) eqn:E'; [|reflexivity].
  apply is_lower_range in E'. rewrite ord_chr in E'; lia.
Qed.

Lemma upper_idem l : upper (upper l) = upper l.
Proof.
  apply upper_fixed. unfold upper. apply Forall_map, Forall_forall.
  intros c _. apply upper_char_not_lower.
Qed.

(** *** [span] *)

Lemma span_app p l :
  let '(a, b) := span p l in l = a ++ b /\ forallb p a = true.
Proof.
  induction l as [|c l IH]; simpl; [auto|].
  destruct (p c) eqn:E; [|auto].
  destruct (span p l) as [a b]. destruct IH as [-> IH]. simpl.
  rewrite E. auto.
Qed.

Lemma span_all p a b :
  forallb p a = true ->
  match b with [] => True | c :: _ => p c = false end ->
  span p (a ++ b) = (a, b).
Proof.
  intros Ha Hb. induction a as [|c a IH]; simpl in *.
  - destruct b as [|c b]; [reflexivity|]. simpl. now rewrite Hb.
  - apply andb_true_iff in Ha as [Hc Ha]. now rewrite Hc, IH.
Qed.

Lemma span_rest_head p l :
  match snd (span p l) with [] => True | c :: _ => p c = false end.
Proof.
  induction l as [|c l IH]; simpl; [exact I|].
  destruct (p c) eqn:E; simpl; [|exact E].
  now destruct (span p l).
Qed.

(** *** Bijective base 26 *)

Lemma letters_value_snoc l c :
  letters_value (l ++ [c]) = letters_value l * 26 + (ord c - 64).
Proof. unfold letters_value. now rewrite fold_left_app. Qed.

Lemma letters_value_pos l :
  Forall (fun c => is_upper c = true) l -> l <> [] -> 1 <= letters_value l.
Proof.
  induction l as [|c l IH] using rev_ind; [congruence|].
  intros H _. apply Forall_app in H as [Hl Hc].
  apply Forall_inv in Hc. apply is_upper_range in Hc.
  rewrite letters_value_snoc.
  destruct l as [|d l]; [unfold letters_value; simpl; lia|].
  specialize (IH Hl ltac:(discriminate)). lia.
Qed.

Lemma col_loop_acc fuel : forall col acc,
  col_to_letter_loop fuel col acc = col_to_letter_loop fuel col [] ++ acc.
Proof.
  induction fuel as [|k IH]; intros col acc; simpl; [reflexivity|].
  destruct (0 <=? col); [|reflexivity].
  destruct (col / 26 - 1 <? 0); [reflexivity|].
  rewrite IH. rewrite (IH _ [_]). now rewrite <- app_assoc.
Qed.

Lemma col_loop_step k col :
  0 <= col ->
  col_to_letter_loop (S k) col [] =
    if col / 26 - 1 <? 0 then [chr (65 + col mod 26)]
    else col_to_letter_loop k (col / 26 - 1) [] ++ [chr (65 + col mod 26)].
Proof.
  intros H. simpl. destruct (Z.leb_spec 0 col); [|lia].
  destruct (col / 26 - 1 <? 0); [reflexivity|]. apply col_loop_acc.
Qed.

Lemma col_loop_upper fuel : forall col,
  0 <= col -> Forall (fun c => is_upper c = true) (col_to_letter_loop fuel col []).
Proof.
  induction fuel as [|k IH]; intros col H; [constructor|].
  rewrite col_loop_step by assumption.
  assert (Hc : is_upper (chr (65 + col mod 26)) = true).
  { apply is_upper_range. rewrite ord_chr; zdm. }
  destruct (Z.ltb_spec (col / 26 - 1) 0).
  - now constructor.
  - apply Forall_app. split; [apply IH; lia|now constructor].
Qed.

Lemma col_loop_nonempty k col :
  0 <= col -> col_to_letter_loop (S k) col [] <> [].
Proof.
  intros H. rewrite col_loop_step by assumption.
  destruct (col / 26 - 1 <? 0); [discriminate|].
  intros E. apply app_eq_nil in E as [_ E]. discriminate.
Qed.

Lemma col_loop_value fuel : forall col,
  0 <= col -> (Z.to_nat col < fuel)%nat ->
  letters_value (col_to_letter_loop fuel col []) = col + 1.
Proof.
  induction fuel as [|k IH]; intros col H Hf; [lia|].
  rewrite col_loop_step by assumption.
  destruct (Z.ltb_spec (col / 26 - 1) 0).
  - unfold letters_value. simpl. rewrite ord_chr; zdm.
  - rewrite letters_value_snoc, IH, ord_chr; zdm.
Qed.

Lemma col_loop_inverse l :
  Forall (fun c => is_upper c = true) l -> l <> [] ->
  forall fuel, (Z.to_nat (letters_value l - 1) < fuel)%nat ->
  col_to_letter_loop fuel (letters_value l - 1) [] = l.
Proof.
  induction l as [|c l IH] using rev_ind; [congruence|].
  intros H _ fuel Hf. apply Forall_app in H as [Hl Hc].
  apply Forall_inv in Hc. pose proof Hc as Hc'. apply is_upper_range in Hc.
  rewrite letters_value_snoc in *.
  destruct fuel as [|k]; [lia|].
  destruct l as [|d l].
  - change (letters_value []) with 0 in *.
    rewrite col_loop_step by lia.
    destruct (Z.ltb_spec ((0 * 26 + (ord c - 64) - 1) / 26 - 1) 0); [|zdm].
    replace (65 + (0 * 26 + (ord c - 64) - 1) mod 26) with (ord c) by zdm.
    now rewrite chr_ord.
  - pose proof (letters_value_pos (d :: l) Hl ltac:(discriminate)) as Hp.
    set (v := letters_value (d :: l)) in *.
    rewrite col_loop_step by lia.
    replace ((v * 26 + (ord c - 64) - 1) / 26 - 1) with (v - 1) by zdm.
    replace (65 + (v * 26 + (ord c - 64) - 1) mod 26) with (ord c) by zdm.
    destruct (Z.ltb_spec (v - 1) 0); [lia|].
    rewrite chr_ord, IH; [reflexivity|assumption|discriminate|].
    assert (Z.to_nat (v * 26 + (ord c - 64) - 1) < S k)%nat by exact Hf.
    lia.
Qed.

(** *** Decimal numerals *)

Lemma int_of_digits_snoc l c :
  int_of_digits (l ++ [c]) = int_of_digits l * 10 + digit_val c.
Proof. unfold int_of_digits. now rewrite fold_left_app. Qed.

Lemma digits_loop_acc fuel : forall n acc,
  digits_loop fuel n acc = digits_loop fuel n [] ++ acc.
Proof.
  induction fuel as [|k IH]; intros n acc; simpl; [reflexivity|].
  destruct (n / 10 =? 0); [reflexivity|].
  rewrite IH. rewrite (IH _ [_]). now rewrite <- app_assoc.
Qed.

Lemma digits_loop_step k n :
  digits_loop (S k) n [] =
    if n / 10 =? 0 then [chr (48 + n mod 10)]
    else digits_loop k (n / 10) [] ++ [chr (48 + n mod 10)].
Proof.
  simpl. destruct (n / 10 =? 0); [reflexivity|]. apply digits_loop_acc.
Qed.

Lemma digits_loop_isdigit fuel : forall n,
  Forall (fun c => isdigit c = true) (digits_loop fuel n []).
Proof.
  induction fuel as [|k IH]; intros n; [constructor|].
  rewrite digits_loop_step.
  assert (Hc : isdigit (chr (48 + n mod 10)) = true).
  { apply isdigit_range. rewrite ord_chr; zdm. }
  destruct (n / 10 =? 0).
  - now constructor.
  - apply Forall_app. split; [apply IH|now constructor].
Qed.

Lemma digits_loop_nonempty k n : digits_loop (S k) n [] <> [].
Proof.
  rewrite digits_loop_step. destruct (n / 10 =? 0); [discriminate|].
  intros E. apply app_eq_nil in E as [_ E]. discriminate.
Qed.

Lemma digits_loop_value fuel : forall n,
  0 <= n -> (Z.to_nat n < fuel)%nat ->
  int_of_digits (digits_loop fuel n []) = n.
Proof.
  induction fuel as [|k IH]; intros n H Hf; [lia|].
  rewrite digits_loop_step.
  destruct (Z.eqb_spec (n / 10) 0).
  - unfold int_of_digits, digit_val. simpl. rewrite ord_chr; zdm.
  - rewrite int_of_digits_snoc, IH by zdm.
    unfold digit_val. rewrite ord_chr; zdm.
Qed.

Lemma int_of_digits_of n : 0 <= n -> int_of_digits (digits_of n) = n.
Proof. intros H. apply digits_loop_value; [assumption|lia]. Qed.

Lemma Forall_forallb {A} (p : A -> bool) l :
  Forall (fun c => p c = true) l -> forallb p l = true.
Proof. induction 1; simpl; [reflexivity|]. now apply andb_true_iff. Qed.

(** *** The three round trips *)

Lemma col_letters_upper col :
  0 <= col -> Forall (fun c => is_upper c = true) (col_letters col).
Proof. apply col_loop_upper. Qed.

Lemma match_address_format row col :
  0 <= row -> 0 <= col ->
  match_address (col_letters col ++ str_of_int (row + 1)) =
    Some (col_letters col, digits_of (row + 1)).
Proof.
  intros Hr Hc. unfold match_address, str_of_int.
  destruct (Z.ltb_spec (row + 1) 0); [lia|].
  pose proof (digits_loop_isdigit (S (Z.to_nat (row + 1))) (row + 1)) as Hd.
  pose proof (digits_loop_nonempty (Z.to_nat (row + 1)) (row + 1)) as Hn.
  pose proof (col_loop_nonempty (Z.to_nat col) col Hc) as Hl.
  fold (digits_of (row + 1)) in Hd, Hn. fold (col_letters col) in Hl.
  rewrite span_all.
  - rewrite <- (app_nil_r (digits_of (row + 1))) at 1.
    rewrite span_all by (auto using Forall_forallb).
    destruct (col_letters col); [congruence|].
    destruct (digits_of (row + 1)); [congruence|reflexivity].
  - apply Forall_forallb, col_letters_upper, Hc.
  - destruct (digits_of (row + 1)) as [|d ds]; [exact I|].
    apply isdigit_not_upper. now apply Forall_inv in Hd.
Qed.

Lemma forallb_Forall {A} (p : A -> bool) l :
  forallb p l = true -> Forall (fun c => p c = true) l.
Proof.
  induction l as [|c l IH]; simpl; [constructor|].
  intros H. apply andb_true_iff in H as [H1 H2]. constructor; auto.
Qed.

Lemma upper_on_letters l :
  Forall (fun c => is_upper c = true) l ->
  Forall (fun c => is_lower c = false) l.
Proof. induction 1; constructor; auto using is_upper_not_lower. Qed.

Lemma upper_on_digits l :
  Forall (fun c => isdigit c = true) l ->
  Forall (fun c => is_lower c = false) l.
Proof. induction 1; constructor; auto using isdigit_not_lower. Qed.

Lemma accepted_parses s letters digits :
  accepted_address s letters digits ->
  parse_address s =
    Some (int_of_digits digits - 1, letters_value letters - 1).
Proof.
  intros (Hl & Hd & Hul & Hdd & Hu). unfold parse_address, match_address.
  assert (Hsplit : exists tail,
    upper (list_ascii_of_string s) = letters ++ (digits ++ tail) /\
    (tail = [] \/ tail = ["010"%char])).
  { destruct Hu as [-> | ->].
    - exists []. rewrite app_nil_r. auto.
    - eexists. split; [reflexivity|auto]. }
  destruct Hsplit as (tail & -> & Ht).
  rewrite span_all; [|assumption|].
  - rewrite span_all; [|assumption|].
    + assert (Hup : upper letters = letters).
      { apply upper_fixed, upper_on_letters, forallb_Forall, Hul. }
      destruct letters; [congruence|]. destruct digits; [congruence|].
      destruct Ht as [-> | ->]; cbn [Ascii.eqb Bool.eqb];
        unfold letter_to_col_chars; rewrite Hup; reflexivity.
    + destruct Ht as [-> | ->]; [exact I|reflexivity].
  - destruct digits as [|d ds]; [congruence|]. simpl in *.
    apply andb_true_iff in Hdd as [Hdd _]. now apply isdigit_not_upper.
Qed.

Lemma parses_accepted s rc :
  parse_address s = Some rc ->
  exists letters digits, accepted_address s letters digits.
Proof.
  unfold parse_address, match_address, accepted_address.
  pose proof (span_app is_upper (upper (list_ascii_of_string s))) as H1.
  destruct (span is_upper (upper (list_ascii_of_string s))) as [letters rest].
  destruct H1 as [Hu Hl].
  pose proof (span_app isdigit rest) as H2.
  destruct (span isdigit rest) as [digits tail].
  destruct H2 as [-> Hd]. intros H.
  destruct letters as [|l ls]; [discriminate|].
  destruct digits as [|d ds]; [discriminate|].
  exists (l :: ls), (d :: ds).
  repeat split; try discriminate; try assumption.
  destruct tail as [|c [|c' tail]]; try discriminate.
  - left. now rewrite app_nil_r in Hu.
  - right. destruct (Ascii.eqb_spec c "010"%char); [|discriminate].
    now subst c.
Qed.

Lemma spec_regex_accepted s :
  spec_address_regex s = true ->
  exists letters digits,
    accepted_address s letters digits /\
    list_ascii_of_string s = letters ++ digits.
Proof.
  unfold spec_address_regex, accepted_address.
  pose proof (span_app is_upper (list_ascii_of_string s)) as H1.
  destruct (span is_upper (list_ascii_of_string s)) as [letters rest].
  destruct H1 as [Hu Hl]. intros H.
  destruct letters as [|l ls]; [discriminate|].
  destruct rest as [|d ds]; [discriminate|].
  apply andb_true_iff in H as [H Hds]. apply andb_true_iff in H as [Hd _].
  exists (l :: ls), (d :: ds).
  assert (Hdd : forallb isdigit (d :: ds) = true).
  { simpl. now rewrite Hd, Hds. }
  repeat split; try discriminate; try assumption.
  left. rewrite Hu. apply upper_fixed. apply Forall_app. split.
  - apply upper_on_letters, forallb_Forall, Hl.
  - apply upper_on_digits, forallb_Forall, Hdd.
Qed.

(** C6. The address codec round-trips: [col_to_letter] after
    [letter_to_col] is the identity on non-empty strings of [A..Z];
    [letter_to_col] after [col_to_letter] is the identity on non-negative
    integers; and [parse_address] recovers [(row, col)] from
    [address_to_string row col] for non-negative [row] and [col]. *)
Theorem address_codec_round_trips :
  (forall s : string,
      s <> "" -> forallb is_upper (list_ascii_of_string s) = true ->
      col_to_letter (letter_to_col s) = s) /\
  (forall n : Z, 0 <= n -> letter_to_col (col_to_letter n) = n) /\
  (forall row col : Z, 0 <= row -> 0 <= col ->
      parse_address (address_to_string row col) = Some (row, col)).
Proof.
  split; [|split].
  - intros s Hne Hup. apply forallb_Forall in Hup.
    unfold col_to_letter, letter_to_col, letter_to_col_chars, col_letters.
    rewrite upper_fixed by apply upper_on_letters, Hup.
    rewrite col_loop_inverse; [apply string_of_list_ascii_of_string|assumption| |lia].
    intros E. apply Hne. rewrite <- (string_of_list_ascii_of_string s), E.
    reflexivity.
  - intros n Hn. unfold col_to_letter, letter_to_col, letter_to_col_chars.
    rewrite list_ascii_of_string_of_list_ascii.
    rewrite upper_fixed.
    + unfold col_letters. rewrite col_loop_value; lia.
    + apply upper_on_letters, col_letters_upper, Hn.
  - intros row col Hr Hc. unfold parse_address, address_to_string.
    rewrite list_ascii_of_string_of_list_ascii.
    assert (Hd : Forall (fun c => isdigit c = true) (str_of_int (row + 1))).
    { unfold str_of_int. destruct (Z.ltb_spec (row + 1) 0); [lia|].
      apply digits_loop_isdigit. }
    rewrite upper_fixed.
    + rewrite match_address_format by assumption.
      rewrite int_of_digits_of by lia.
      unfold letter_to_col_chars. rewrite upper_fixed.
      * unfold col_letters. rewrite col_loop_value by lia.
        f_equal. f_equal; lia.
      * apply upper_on_letters, col_letters_upper, Hc.
    + apply Forall_app. split.
      * apply upper_on_letters, col_letters_upper, Hc.
      * apply upper_on_digits, Hd.
Qed.

Lemma address_codec_round_trips_witness :
  col_to_letter (letter_to_col "AZ") = "AZ" /\
  letter_to_col (col_to_letter 701) = 701 /\
  parse_address (address_to_string 4 27) = Some (4, 27).
Proof.
  destruct address_codec_round_trips as (H1 & H2 & H3).
  split; [|split].
  - apply H1; [discriminate|reflexivity].
  - apply H2. lia.
  - apply H3; lia.
Defined.

(** C7 as stated fails: a lower-case address and a row numeral [0] are
    both outside [^[A-Z]+[1-9][0-9]*$] and both are parsed. *)
Lemma parse_address_accepts_outside_spec_regex :
  spec_address_regex "a1" = false /\ parse_address "a1" = Some (0, 0) /\
  spec_address_regex "A0" = false /\ parse_address "A0" = Some (-1, 0).
Proof. repeat split. Qed.

(** C7, amended. [parse_address] succeeds on every text matching
    [^[A-Z]+[1-9][0-9]*$], and on ASCII texts it succeeds exactly on those
    whose upper-casing is one or more letters [A..Z] followed by one or
    more decimal digits and at most one final newline, returning the
    numeral minus one and the column of the letters; it fails on every
    other ASCII text. *)
Theorem parse_address_domain (s : string) :
  (forall letters digits,
      accepted_address s letters digits ->
      parse_address s =
        Some (int_of_digits digits - 1, letters_value letters - 1)) /\
  (ascii_text (list_ascii_of_string s) = true ->
   (forall letters digits, ~ accepted_address s letters digits) ->
      parse_address s = None) /\
  (spec_address_regex s = true ->
      exists letters digits,
        accepted_address s letters digits /\
        list_ascii_of_string s = letters ++ digits /\
        parse_address s =
          Some (int_of_digits digits - 1, letters_value letters - 1)).
Proof.
  split; [|split].
  - apply accepted_parses.
  - intros _ H. destruct (parse_address s) as [rc|] eqn:E; [|reflexivity].
    apply parses_accepted in E as (letters & digits & Hacc).
    now apply H in Hacc.
  - intros H. apply spec_regex_accepted in H as (letters & digits & Hacc & Hs).
    exists letters, digits. auto using accepted_parses.
Qed.

Lemma parse_address_domain_witness :
  parse_address "ab12" = Some (11, 27) /\
  parse_address "A-1" = None /\
  (exists letters digits,
      accepted_address "C7" letters digits /\
      list_ascii_of_string "C7" = letters ++ digits /\
      parse_address "C7" =
        Some (int_of_digits digits - 1, letters_value letters - 1)).
Proof.
  split; [|split].
  - apply (proj1 (parse_address_domain "ab12") ["A"; "B"] ["1"; "2"])%char.
    unfold accepted_address. repeat split; try discriminate. now left.
  - apply (proj1 (proj2 (parse_address_domain "A-1"))); [reflexivity|].
    intros letters digits (Hl & Hd & Hul & Hdd & Hu).
    change (upper (list_ascii_of_string "A-1")) with ["A"; "-"; "1"]%char in Hu.
    destruct letters as [|l letters]; [congruence|].
    destruct Hu as [Hu | Hu]; injection Hu as <- Hu.
    + destruct letters as [|l letters]; simpl in Hu.
      * subst digits. discriminate.
      * injection Hu as <- _. discriminate.
    + destruct letters as [|l letters]; simpl in Hu.
      * destruct digits as [|d digits]; [congruence|].
        injection Hu as <- _. discriminate.
      * injection Hu as <- _. discriminate.
  - apply (proj2 (proj2 (parse_address_domain "C7"))). reflexivity.
Defined.

End AddressFacts.

(** ** Dependency graph *)

Module GraphFacts.
Import Model Engine.

Lemma get_set_insert (m : gmap addr (gset addr)) k s k' :
  get_set (<[k := s]> m) k' = if decide (k = k') then s else get_set m k'.
Proof.
  unfold get_set. rewrite lookup_insert. now destruct (decide (k = k')).
Qed.

Lemma get_set_empty k : get_set ∅ k = ∅.
Proof. unfold get_set. now rewrite lookup_empty. Qed.

(** What the loop of [clear_dependencies] leaves in [dependents]. *)
Lemma discard_loop cell (l : list addr) : forall m d,
  get_set (foldl (discard_dependent cell) m l) d =
    if decide (d ∈ l) then get_set m d ∖ {[cell]} else get_set m d.
Proof.
  induction l as [|x l IH]; intros m d; simpl.
  - destruct (decide (d ∈ [])) as [Hin|_]; [|reflexivity].
    now apply elem_of_nil in Hin.
  - rewrite IH. unfold discard_dependent at 1 2. rewrite !get_set_insert.
    destruct (decide (x = d)) as [->|Hne].
    + destruct (decide (d ∈ l)), (decide (d ∈ d :: l)) as [|Hn];
        try reflexivity; try set_solver.
    + destruct (decide (d ∈ l)) as [Hl|Hl],
               (decide (d ∈ x :: l)) as [Hx|Hx]; try reflexivity.
      * exfalso. apply Hx. now right.
      * exfalso. apply elem_of_cons in Hx as [->|Hx]; [now apply Hne|now apply Hl].
Qed.

Lemma clear_dependents g cell d :
  get_set (dependents (clear_dependencies g cell)) d =
    if decide (d ∈ get_set (dependencies g) cell)
    then get_set (dependents g) d ∖ {[cell]} else get_set (dependents g) d.
Proof.
  unfold clear_dependencies. simpl. rewrite discard_loop.
  destruct (decide (d ∈ elements (get_set (dependencies g) cell))) as [Hin|Hin],
           (decide (d ∈ get_set (dependencies g) cell)) as [Hin'|Hin'];
    try reflexivity; exfalso; rewrite elem_of_elements in Hin; tauto.
Qed.

Lemma clear_dependencies_of g cell c :
  get_set (dependencies (clear_dependencies g cell)) c =
    if decide (cell = c) then ∅ else get_set (dependencies g) c.
Proof. unfold clear_dependencies. simpl. apply get_set_insert. Qed.

Lemma clear_consistent g cell :
  consistent g -> consistent (clear_dependencies g cell).
Proof.
  intros Hg c d. rewrite clear_dependents, clear_dependencies_of.
  specialize (Hg c d). pose proof (Hg' := Hg).
  destruct (decide (cell = c)) as [<-|Hne],
           (decide (d ∈ get_set (dependencies g) cell)) as [Hd|Hd].
  - set_solver.
  - rewrite <- Hg. set_solver.
  - rewrite elem_of_difference, <- Hg. set_solver.
  - exact Hg.
Qed.

Lemma add_consistent g a b :
  consistent g -> consistent (add_dependency g a b).
Proof.
  intros Hg c d. unfold add_dependency. simpl. rewrite !get_set_insert.
  specialize (Hg c d).
  destruct (decide (a = c)) as [<-|Hc], (decide (b = d)) as [<-|Hd];
    set_solver.
Qed.

Lemma new_graph_consistent : consistent new_graph.
Proof. intros c d. simpl. rewrite !get_set_empty. set_solver. Qed.

Lemma reachable_consistent g : graph_reachable g -> consistent g.
Proof.
  induction 1; auto using new_graph_consistent, clear_consistent, add_consistent.
Qed.

(** C2. In every reachable state of the dependency graph, [d] is among
    the cells [c] reads exactly when [c] is among the dependents of [d];
    [clear_dependencies] and [add_dependency] each preserve this. *)
Theorem dependency_maps_consistent :
  (forall g, graph_reachable g -> consistent g) /\
  (forall g cell, consistent g -> consistent (clear_dependencies g cell)) /\
  (forall g dependent dependency,
      consistent g -> consistent (add_dependency g dependent dependency)).
Proof.
  split; [|split];
    auto using reachable_consistent, clear_consistent, add_consistent.
Qed.

Lemma dependency_maps_consistent_witness :
  consistent (clear_dependencies
                (add_dependency (add_dependency new_graph (0, 0) (0, 1))
                                (0, 1) (0, 0)) (0, 0)).
Proof.
  destruct dependency_maps_consistent as (Hreach & Hclear & Hadd).
  apply Hclear, Hadd, Hreach. apply reach_add, reach_new_graph.
Defined.

End GraphFacts.

(** ** Undo and redo *)

Module UndoFacts.
Import Py Model Undo.

Section Manager.
Context {C W : Type} `{Command C W}.

Lemma last_split (l : list C) x :
  last l = Some x -> l = removelast l ++ [x].
Proof.
  intros Hl. apply last_Some in Hl as [l' ->].
  now rewrite removelast_last.
Qed.

Lemma execute_command_stacks (mgr : UndoRedoManager C) command w :
  (execute command w).2 = true ->
  (execute_command mgr command w).1.1 =
    mkManager
      (if max_history mgr <? len (undo_stack mgr ++ [command])
       then tl (undo_stack mgr ++ [command])
       else undo_stack mgr ++ [command])
      [] (max_history mgr).
Proof.
  intros Hok. unfold execute_command.
  destruct (execute command w) as [w' ok]. simpl in Hok. now subst ok.
Qed.

Lemma execute_command_failed (mgr : UndoRedoManager C) command w :
  (execute command w).2 = false ->
  (execute_command mgr command w).1.1 = mgr.
Proof.
  intros Hok. unfold execute_command.
  destruct (execute command w) as [w' ok]. simpl in Hok. now subst ok.
Qed.

Lemma execute_within_bound (mgr : UndoRedoManager C) command w :
  within_bound mgr -> within_bound (execute_command mgr command w).1.1.
Proof.
  intros [Hmax Hlen].
  destruct (execute command w).2 eqn:Hok.
  - rewrite execute_command_stacks by assumption. split; [exact Hmax|].
    simpl. rewrite Hmax. unfold len. rewrite length_app. simpl.
    destruct (Z.ltb_spec 100 (Z.of_nat (length (undo_stack mgr) + 1))).
    + destruct (undo_stack mgr) as [|c l]; simpl in *; [lia|].
      rewrite length_app. simpl. lia.
    + rewrite length_app. simpl. lia.
  - now rewrite execute_command_failed.
Qed.

Lemma undo_within_bound (mgr : UndoRedoManager C) w :
  within_bound mgr -> within_bound (manager_undo mgr w).1.1.
Proof.
  intros [Hmax Hlen]. unfold manager_undo.
  destruct (last (undo_stack mgr)) as [command|] eqn:Hl; [|now split].
  apply last_split in Hl.
  destruct (undo command w) as [w' [|]]; split; simpl; try exact Hmax.
  - rewrite Hl, length_app in Hlen. rewrite length_app. simpl in *. lia.
  - now rewrite <- Hl.
Qed.

Lemma redo_within_bound (mgr : UndoRedoManager C) w :
  within_bound mgr -> within_bound (manager_redo mgr w).1.1.
Proof.
  intros [Hmax Hlen]. unfold manager_redo.
  destruct (last (redo_stack mgr)) as [command|] eqn:Hl; [|now split].
  apply last_split in Hl.
  destruct (execute command w) as [w' [|]]; split; simpl; try exact Hmax.
  - rewrite Hl, length_app in Hlen. rewrite length_app. simpl in *. lia.
  - now rewrite <- Hl.
Qed.

Lemma reachable_within_bound (mgr : UndoRedoManager C) :
  manager_reachable mgr -> within_bound mgr.
Proof.
  induction 1;
    auto using execute_within_bound, undo_within_bound, redo_within_bound.
  - split; [reflexivity|simpl; lia].
  - destruct IHmanager_reachable as [Hmax _]. split; [exact Hmax|simpl; lia].
Qed.

(** C5. The undo stack of a manager with the default bound never holds
    more than 100 commands; a successful [execute_command] appends the
    command, drops the oldest one when 100 were held, and empties the
    redo stack; and when the [undo] of the last command fails,
    [manager_undo] answers [false] and leaves both stacks as they were. *)
Theorem undo_log_bounded (mgr : UndoRedoManager C) :
  (manager_reachable mgr -> (length (undo_stack mgr) <= 100)%nat) /\
  (forall command w,
      manager_reachable mgr -> (execute command w).2 = true ->
      let mgr' := (execute_command mgr command w).1.1 in
      (execute_command mgr command w).2 = true /\
      redo_stack mgr' = [] /\
      undo_stack mgr' =
        (if decide (length (undo_stack mgr) = 100%nat)
         then tl (undo_stack mgr) ++ [command]
         else undo_stack mgr ++ [command])) /\
  (forall command w,
      last (undo_stack mgr) = Some command -> (undo command w).2 = false ->
      (manager_undo mgr w).2 = false /\
      undo_stack (manager_undo mgr w).1.1 = undo_stack mgr /\
      redo_stack (manager_undo mgr w).1.1 = redo_stack mgr).
Proof.
  split; [|split].
  - intros Hr. apply reachable_within_bound in Hr as [_ Hlen]. lia.
  - intros command w Hr Hok. apply reachable_within_bound in Hr as [Hmax Hlen].
    cbv zeta. rewrite execute_command_stacks by assumption. simpl.
    split; [|split; [reflexivity|]].
    + unfold execute_command. destruct (execute command w) as [w' ok].
      simpl in Hok. now subst ok.
    + rewrite Hmax. unfold len. rewrite length_app. simpl.
      destruct (decide (length (undo_stack mgr) = 100%nat)) as [He|He].
      * destruct (Z.ltb_spec 100 (Z.of_nat (length (undo_stack mgr) + 1)));
          [|lia].
        destruct (undo_stack mgr); [discriminate|reflexivity].
      * destruct (Z.ltb_spec 100 (Z.of_nat (length (undo_stack mgr) + 1)));
          [lia|reflexivity].
  - intros command w Hl Hfail. unfold manager_undo. rewrite Hl.
    apply last_split in Hl.
    destruct (undo command w) as [w' ok]. simpl in Hfail. subst ok. simpl.
    now rewrite <- Hl.
Qed.

End Manager.

Lemma undo_log_bounded_witness :
  let command := make_set_cell new_model 0 0 "x" in
  let mgr := (execute_command new_manager command new_model).1.1 in
  (length (undo_stack mgr) <= 100)%nat /\
  redo_stack mgr = [] /\ undo_stack mgr = [command] /\
  (manager_undo mgr deaf_model).2 = false /\
  undo_stack (manager_undo mgr deaf_model).1.1 = undo_stack mgr /\
  redo_stack (manager_undo mgr deaf_model).1.1 = redo_stack mgr.
Proof.
  intros command mgr.
  assert (Hr : manager_reachable mgr)
    by apply (reach_execute new_manager command new_model), reach_new_manager.
  split; [apply (undo_log_bounded mgr), Hr|].
  destruct (undo_log_bounded (C := SheetCommand) new_manager)
    as (_ & Hexec & _).
  destruct (Hexec command new_model reach_new_manager eq_refl)
    as (_ & Hredo & Hundo).
  split; [exact Hredo|]. split; [exact Hundo|].
  destruct (undo_log_bounded mgr) as (_ & _ & Hfail).
  apply (Hfail command deaf_model); reflexivity.
Defined.

End UndoFacts.

(** ** Cell store *)

Module SheetFacts.
Import Py Model.

(** C8 as stated fails: reading an absent cell of the new sheet leaves a
    cell with empty [raw] in the store, in a reachable state. *)
Lemma get_cell_stores_the_empty_cell :
  sheet_reachable (snd (get_cell new_sheet 0 0)) /\
  cells new_sheet !! (0, 0) = None /\
  cells (snd (get_cell new_sheet 0 0)) !! (0, 0) = Some empty_cell /\
  raw empty_cell = "".
Proof.
  split; [apply reach_get, reach_new|]. repeat split.
Qed.

(** C8, amended. A cell that is absent from the store reads as the
    default-empty cell, whose [raw] is empty, and [get_cell] stores that
    cell at the address it was asked for; a cell that is present is
    returned as it is and the sheet is unchanged; no other address is
    touched.  So absence implies an empty [raw] on reading, not
    conversely. *)
Theorem get_cell_default (s : Sheet) (row col : Z) :
  (cells s !! (row, col) = None ->
     fst (get_cell s row col) = empty_cell /\
     raw (fst (get_cell s row col)) = "" /\
     cells (snd (get_cell s row col)) !! (row, col) = Some empty_cell) /\
  (forall c, cells s !! (row, col) = Some c -> get_cell s row col = (c, s)) /\
  (forall pos, pos <> (row, col) ->
     cells (snd (get_cell s row col)) !! pos = cells s !! pos).
Proof.
  unfold get_cell. split; [|split].
  - intros ->. simpl. now rewrite lookup_insert_eq.
  - now intros c ->.
  - intros pos Hne. destruct (cells s !! (row, col)); [reflexivity|].
    simpl. now rewrite lookup_insert_ne.
Qed.

Lemma get_cell_default_witness :
  fst (get_cell new_sheet 2 3) = empty_cell /\
  get_cell (set_cell new_sheet 2 3 "x" None None) 2 3 =
    (new_cell "x" (PStr "x") None, set_cell new_sheet 2 3 "x" None None) /\
  cells (snd (get_cell new_sheet 2 3)) !! (0, 0) = cells new_sheet !! (0, 0).
Proof.
  split; [|split].
  - apply (get_cell_default new_sheet 2 3). reflexivity.
  - apply (get_cell_default (set_cell new_sheet 2 3 "x" None None) 2 3).
    reflexivity.
  - apply (get_cell_default new_sheet 2 3). discriminate.
Defined.

End SheetFacts.

(** ** Serialisation *)

Module StorageFacts.
Import PyStr Py Model Storage AddressFacts.

(** *** Integers and position keys *)

Lemma span_none p l :
  match l with [] => True | c :: _ => p c = false end -> span p l = ([], l).
Proof. intros Hl. apply (span_all p [] l); [reflexivity|exact Hl]. Qed.

Lemma strip_with_id p l :
  Forall (fun c => p c = false) l -> strip_with p l = l.
Proof.
  intros Hl. unfold strip_with.
  assert (Hhead : forall k, Forall (fun c => p c = false) k ->
                            span p k = ([], k)).
  { intros k Hk. apply span_none. destruct k; [exact I|].
    now apply Forall_inv in Hk. }
  rewrite (Hhead l Hl). simpl.
  rewrite (Hhead (rev l)) by now apply Forall_rev.
  apply rev_involutive.
Qed.

Lemma isdigit_facts c :
  isdigit c = true ->
  isspace c = false /\ Ascii.eqb c "_" = false /\ Ascii.eqb c "-" = false /\
  Ascii.eqb c "+" = false /\ Ascii.eqb c "," = false.
Proof.
  intros Hd. apply isdigit_range in Hd.
  assert (Hne : forall a, ord a < 48 \/ 57 < ord a -> Ascii.eqb c a = false).
  { intros a Ha. destruct (Ascii.eqb_spec c a) as [->|]; [lia|reflexivity]. }
  repeat split; try (apply Hne; vm_compute; intuition congruence).
  unfold isspace.
  destruct (Z.leb_spec 9 (ord c)), (Z.leb_spec (ord c) 13),
           (Z.leb_spec 28 (ord c)), (Z.leb_spec (ord c) 32);
    simpl; try reflexivity; lia.
Qed.

Lemma isdigit_not_blank c : isdigit c = true -> c_isspace c = false.
Proof.
  intros Hd. apply isdigit_range in Hd. unfold c_isspace.
  destruct (Z.leb_spec 9 (ord c)), (Z.leb_spec (ord c) 13),
           (Z.eqb_spec (ord c) 32); simpl; try reflexivity; lia.
Qed.

Lemma drop_underscores_digits ds : forall prev,
  match prev with Some p => Ascii.eqb p "_" = false | None => True end ->
  Forall (fun c => isdigit c = true) ds ->
  drop_underscores prev ds = Some ds.
Proof.
  induction ds as [|c ds IH]; intros prev Hp Hds; simpl.
  - destruct prev as [p|]; [now rewrite Hp|reflexivity].
  - apply Forall_cons in Hds as [Hc Hds].
    destruct (isdigit_facts c Hc) as (_ & Hu & _).
    rewrite Hu, Hc, andb_false_r, IH; auto.
Qed.

Lemma digits_of_isdigit n : Forall (fun c => isdigit c = true) (digits_of n).
Proof. apply digits_loop_isdigit. Qed.

Lemma digits_of_nonempty n : digits_of n <> [].
Proof. apply digits_loop_nonempty. Qed.

Lemma int_of_chars_digits neg ds :
  ds <> [] -> Forall (fun c => isdigit c = true) ds ->
  int_of_chars ((if neg : bool then ["-"%char] else []) ++ ds) =
    Some (if neg then - int_of_digits ds else int_of_digits ds).
Proof.
  intros Hne Hds. unfold int_of_chars.
  rewrite strip_with_id.
  - assert (Hsign : take_sign ((if neg then ["-"%char] else []) ++ ds) = (neg, ds)).
    { destruct neg; [reflexivity|]. simpl.
      destruct ds as [|d ds]; [congruence|]. simpl.
      apply Forall_inv in Hds. destruct (isdigit_facts d Hds) as (_ & _ & -> & -> & _).
      reflexivity. }
    rewrite Hsign, drop_underscores_digits by auto.
    destruct ds; [congruence|]. now rewrite Forall_forallb.
  - apply Forall_app. split.
    + destruct neg; repeat constructor.
    + eapply Forall_impl; [exact Hds|]. intros c Hc.
      now apply isdigit_not_blank.
Qed.

Lemma int_of_chars_str_of_int z : int_of_chars (str_of_int z) = Some z.
Proof.
  unfold str_of_int. destruct (Z.ltb_spec z 0).
  - etransitivity.
    + apply (int_of_chars_digits true (digits_of (- z)));
        auto using digits_of_nonempty, digits_of_isdigit.
    + rewrite int_of_digits_of by lia. f_equal. lia.
  - etransitivity.
    + apply (int_of_chars_digits false (digits_of z));
        auto using digits_of_nonempty, digits_of_isdigit.
    + now rewrite int_of_digits_of.
Qed.

Lemma str_of_int_no_comma z : no_char "," (str_of_int z).
Proof.
  unfold str_of_int, no_char.
  assert (Hd : forall n, Forall (fun c => Ascii.eqb c "," = false) (digits_of n)).
  { intros n. eapply Forall_impl; [apply digits_of_isdigit|].
    intros c Hc. now apply isdigit_facts. }
  destruct (z <? 0); [constructor; [reflexivity|]|]; apply Hd.
Qed.

Lemma split_comma_single l : no_char "," l -> split_comma l = [l].
Proof.
  induction 1 as [|c l Hc _ IH]; simpl; [reflexivity|]. now rewrite Hc, IH.
Qed.

Lemma split_comma_pair a b :
  no_char "," a -> no_char "," b -> split_comma (a ++ ","%char :: b) = [a; b].
Proof.
  intros Ha Hb. induction Ha as [|c a Hc _ IH]; simpl.
  - now rewrite split_comma_single.
  - now rewrite Hc, IH.
Qed.

Lemma parse_position_key pos : parse_position (position_key pos) = Ok pos.
Proof.
  unfold parse_position, position_key.
  rewrite list_ascii_of_string_of_list_ascii.
  rewrite split_comma_pair by apply str_of_int_no_comma.
  rewrite !int_of_chars_str_of_int. now destruct pos.
Qed.

Lemma position_key_inj p q : position_key p = position_key q -> p = q.
Proof.
  intros Heq. pose proof (parse_position_key p) as Hp.
  rewrite Heq, parse_position_key in Hp. congruence.
Qed.

(** *** Cell records *)

Lemma cell_round_trip c : cell_from_dict (cell_to_dict c) = Ok c.
Proof.
  destruct c as [r v f e]. unfold cell_from_dict, cell_to_dict. simpl.
  destruct e; reflexivity.
Qed.

Lemma cell_to_dict_unknown c k :
  k ∉ known_cell_keys -> cell_to_dict c !! k = None.
Proof.
  intros Hk. unfold cell_to_dict.
  rewrite !lookup_insert_ne; [apply lookup_empty|..];
    intros E; apply Hk; subst k; unfold known_cell_keys; set_solver.
Qed.

Lemma cell_unknown_key_dropped c k v :
  k ∉ known_cell_keys -> cell_from_dict (<[k := v]> (cell_to_dict c)) = Ok c.
Proof.
  intros Hk. etransitivity; [|apply cell_round_trip].
  unfold cell_from_dict.
  rewrite !(lookup_insert_ne _ k); [reflexivity|..];
    intros E; apply Hk; subst k; unfold known_cell_keys; set_solver.
Qed.

(** *** The dictionary of cells *)

Lemma cells_to_dict_represents m : represents (cells_to_dict m) m.
Proof.
  unfold cells_to_dict.
  apply (map_fold_weak_ind (fun d m => represents d m)).
  - split.
    + intros pos. now rewrite !lookup_empty.
    + intros k v Hk. now rewrite lookup_empty in Hk.
  - clear m. intros pos c m d Hnone [Hd1 Hd2]. split.
    + intros pos'. destruct (decide (pos = pos')) as [<-|Hne].
      * now rewrite !lookup_insert_eq.
      * rewrite !lookup_insert_ne; [apply Hd1|assumption|].
        intros Heq. now apply position_key_inj in Heq.
    + intros k v. destruct (decide (position_key pos = k)) as [<-|Hne].
      * eauto.
      * rewrite lookup_insert_ne by assumption. apply Hd2.
Qed.

Lemma represents_empty m : represents ∅ m -> m = ∅.
Proof.
  intros [H1 _]. apply map_eq. intros pos. specialize (H1 pos).
  rewrite lookup_empty in *. now destruct (m !! pos).
Qed.

Lemma represents_delete d m k v :
  d !! k = None -> represents (<[k := v]> d) m ->
  exists pos c,
    k = position_key pos /\ v = ODict (cell_to_dict c) /\
    m !! pos = Some c /\ represents d (delete pos m).
Proof.
  intros Hnone [H1 H2].
  destruct (H2 k v) as [pos ->]; [apply lookup_insert_eq|].
  pose proof (H1 pos) as Hpos. rewrite lookup_insert_eq in Hpos.
  destruct (m !! pos) as [c|] eqn:Hm; [|discriminate]. simpl in Hpos.
  exists pos, c. split; [reflexivity|]. split; [congruence|].
  split; [exact Hm|]. split.
  - intros pos'. destruct (decide (pos = pos')) as [<-|Hne].
    + now rewrite lookup_delete_eq, Hnone.
    + rewrite lookup_delete_ne by assumption. rewrite <- H1.
      rewrite lookup_insert_ne; [reflexivity|].
      intros Heq. now apply position_key_inj in Heq.
  - intros k' v' Hk'. apply (H2 k' v').
    rewrite lookup_insert_ne; [assumption|]. intros <-. congruence.
Qed.

Lemma cells_from_dict_represents d :
  forall m, represents d m -> cells_from_dict d = Ok m.
Proof.
  unfold cells_from_dict.
  apply (map_fold_weak_ind (fun r d => forall m, represents d m -> r = Ok m)).
  - intros m Hm. now rewrite (represents_empty m Hm).
  - clear d. intros k v d r Hnone IH m Hm.
    apply represents_delete in Hm as (pos & c & -> & -> & Hc & Hd);
      [|assumption].
    rewrite (IH _ Hd). simpl.
    rewrite parse_position_key. simpl. rewrite cell_round_trip. simpl.
    now rewrite insert_delete_id.
Qed.

Lemma from_dict_to_dict m0 m :
  from_dict m0 (to_dict m) =
    Ok (mkModel (sheet m) (filename m0) false (observers m0),
        notify_observers m0 model_loaded).
Proof.
  unfold from_dict, to_dict.
  repeat (rewrite lookup_insert_eq || rewrite lookup_insert_ne by discriminate).
  cbv [default from_option id mbind result_bind bind].
  rewrite (cells_from_dict_represents _ _ (cells_to_dict_represents _)).
  unfold notify_observers. now destruct (sheet m).
Qed.

(** C10 as stated fails: a key that [Cell.from_dict] does not read is
    gone after the round trip of the cell record. *)
Lemma unknown_cell_key_is_dropped :
  <["note" := OVal (PStr "x")]> (cell_to_dict empty_cell) !! "note" =
    Some (OVal (PStr "x")) /\
  cell_from_dict (<["note" := OVal (PStr "x")]> (cell_to_dict empty_cell)) =
    Ok empty_cell /\
  cell_to_dict empty_cell !! "note" = None.
Proof. repeat split. Qed.

(** C10, amended. Deserialising the serialised model gives back the
    sheet itself, so every cell's [raw], [value], [format] and [error],
    the sheet name, [max_row] and [max_col]; a cell record round-trips to
    the same cell, hence every key of its [format] mapping is preserved;
    a key at the top level of a cell record other than [raw], [value],
    [format] and [error] is not read and is absent from the record
    written back. *)
Theorem serialisation_round_trip :
  (forall m0 m, exists m' answered,
      from_dict m0 (to_dict m) = Ok (m', answered) /\ sheet m' = sheet m) /\
  (forall c k v,
      format c !! k = Some v ->
      exists c', cell_from_dict (cell_to_dict c) = Ok c' /\
                 format c' !! k = Some v) /\
  (forall c k v,
      k ∉ known_cell_keys ->
      cell_from_dict (<[k := v]> (cell_to_dict c)) = Ok c /\
      cell_to_dict c !! k = None).
Proof.
  split; [|split].
  - intros m0 m. eexists _, _. split; [apply from_dict_to_dict|reflexivity].
  - intros c k v Hk. exists c. split; [apply cell_round_trip|exact Hk].
  - intros c k v Hk.
    split; [now apply cell_unknown_key_dropped|now apply cell_to_dict_unknown].
Qed.

Lemma serialisation_round_trip_witness :
  (exists c', cell_from_dict
                (cell_to_dict (mkCell "1" (PFloat 1) {["bold" := OVal (PBool true)]} None))
              = Ok c' /\ format c' !! "bold" = Some (OVal (PBool true))) /\
  cell_to_dict empty_cell !! "note" = None.
Proof.
  destruct serialisation_round_trip as (_ & Hformat & Hkey). split.
  - apply Hformat. reflexivity.
  - apply (Hkey empty_cell "note" (OVal PNone)).
    unfold known_cell_keys. set_solver.
Defined.

End StorageFacts.

(** ** Evaluator *)

Module EvaluatorFacts.
Import Py Formula.

Section Functions.
Context `{Runtime}.
Variable get_cell_value : Z -> Z -> result pyval.

(** The argument loop of [_evaluate_function] returns the values of the
    arguments when none of them raises. *)
Lemma evaluate_function_node name args vs :
  Forall2 (fun a v => _evaluate_node get_cell_value a = Ok v) args vs ->
  _evaluate_node get_cell_value (FunctionNode name args) =
    apply_function name vs.
Proof.
  intros Hargs. simpl. unfold apply_function.
  destruct (functions (upper_str name)) as [f|]; [|reflexivity].
  match goal with
  | |- ?loop args ≫= _ = _ => assert (Hloop : loop args = Ok vs)
  end.
  { induction Hargs as [|a v args vs Ha _ IH]; [reflexivity|].
    rewrite Ha. cbn [mbind result_bind bind]. rewrite IH. reflexivity. }
  rewrite Hloop. reflexivity.
Qed.

Lemma first_error_split vs e :
  first_error vs = Some e ->
  exists before after,
    vs = before ++ e :: after /\
    forallb (fun v => negb (is_error v)) before = true /\
    is_error e = true.
Proof.
  unfold first_error. induction vs as [|v vs IH]; simpl; [discriminate|].
  destruct (is_error v) eqn:Hv.
  - intros [= <-]. exists [], vs. auto.
  - intros Hfind. destruct (IH Hfind) as (before & after & -> & Hb & He).
    exists (v :: before), after. simpl. rewrite Hv. auto.
Qed.

Lemma apply_function_error name f vs e :
  functions (upper_str name) = Some f ->
  first_error vs = Some e ->
  apply_function name vs = Ok e.
Proof. intros Hf He. unfold apply_function. now rewrite Hf, He. Qed.

(** C3, amended. In a call of a known function whose arguments all
    evaluate, the first argument value that is an error sentinel is the
    result of the call; this holds for every function of the table, [IF]
    included: a sentinel in the true-branch or in the false-branch
    position of [IF] is returned as well, whatever the condition. *)
Theorem first_argument_error_is_result name f args vs e :
  functions (upper_str name) = Some f ->
  Forall2 (fun a v => _evaluate_node get_cell_value a = Ok v) args vs ->
  first_error vs = Some e ->
  (exists before after,
      vs = before ++ e :: after /\
      forallb (fun v => negb (is_error v)) before = true /\
      is_error e = true) /\
  _evaluate_node get_cell_value (FunctionNode name args) = Ok e /\
  evaluate get_cell_value (FunctionNode name args) = e /\
  (forall condition true_value false_value,
      is_error condition = false ->
      (is_error true_value = true ->
         apply_function "IF" [condition; true_value; false_value]
           = Ok true_value) /\
      (is_error true_value = false -> is_error false_value = true ->
         apply_function "IF" [condition; true_value; false_value]
           = Ok false_value)).
Proof.
  intros Hf Hargs He. split; [now apply first_error_split|].
  assert (Hnode : _evaluate_node get_cell_value (FunctionNode name args) = Ok e).
  { rewrite (evaluate_function_node name args vs Hargs).
    now apply (apply_function_error name f). }
  split; [exact Hnode|]. split; [unfold evaluate; now rewrite Hnode|].
  intros condition true_value false_value Hc. split.
  - intros Ht. apply (apply_function_error "IF" _if); [reflexivity|].
    unfold first_error. simpl. now rewrite Hc, Ht.
  - intros Ht Hfv. apply (apply_function_error "IF" _if); [reflexivity|].
    unfold first_error. simpl. now rewrite Hc, Ht, Hfv.
Qed.

End Functions.

(** C3 as stated fails: with [A1] holding [#DIV/0!], the call
    [IF(1, 5, A1)] has a true condition and its true branch is [5], yet
    the sentinel of the false-branch argument is the result. *)
Lemma if_propagates_from_a_branch :
  evaluate (H := unused_runtime) (fun _ _ => Ok (PStr "#DIV/0!"))
    (FunctionNode "IF" [NumberNode 1; NumberNode 5; CellRefNode 0 0])
  = PStr "#DIV/0!" /\
  evaluate_formula (H := unused_runtime) (fun _ _ => Ok (PStr "#DIV/0!"))
    "=IF(1, 5, A1)" = PStr "#DIV/0!".
Proof. split; reflexivity. Qed.

Lemma first_argument_error_is_result_witness :
  evaluate (H := unused_runtime) (fun _ _ => Ok (PStr "#REF!"))
    (FunctionNode "sum" [NumberNode 1; CellRefNode 0 0; StringNode "#x"])
  = PStr "#REF!".
Proof.
  apply (first_argument_error_is_result (H := unused_runtime)
           (fun _ _ => Ok (PStr "#REF!")) "sum" _sum
           [NumberNode 1; CellRefNode 0 0; StringNode "#x"]
           [PFloat 1; PStr "#REF!"; PStr "#x"] (PStr "#REF!")).
  - reflexivity.
  - repeat constructor.
  - reflexivity.
Defined.

End EvaluatorFacts.

(** ** Tokenizer *)

Module TokenizerFacts.
Import PyStr Py Address Formula AddressFacts StorageFacts.

Lemma span_length p l : (length (snd (span p l)) <= length l)%nat.
Proof.
  induction l as [|c l IH]; simpl; [lia|].
  destruct (p c); [|simpl; lia]. destruct (span p l). simpl in *. lia.
Qed.

Lemma span_length_head p c l :
  p c = true -> (length (snd (span p (c :: l))) <= length l)%nat.
Proof.
  intros Hc. simpl. rewrite Hc. pose proof (span_length p l).
  now destruct (span p l).
Qed.

(** Each reader leaves strictly less text than it was given. *)
Lemma read_number_shorter pos c rest :
  isdigit c || is_char "." c = true ->
  (length (read_number pos (c :: rest)).2 <= length rest)%nat.
Proof.
  intros Hc. unfold read_number.
  pose proof (span_length_head (fun c => isdigit c || is_char "." c) c rest Hc).
  now destruct (span _ (c :: rest)).
Qed.

Lemma read_string_shorter pos c rest :
  (length (read_string pos (c :: rest)).2 <= length rest)%nat.
Proof.
  unfold read_string. simpl tl.
  pose proof (span_length (fun c => negb (is_char "034" c)) rest).
  destruct (span _ rest) as [body [|q rest'']]; simpl in *; lia.
Qed.

Lemma read_identifier_shorter pos c rest :
  isalpha c = true ->
  (length (read_identifier pos (c :: rest)).2 <= length rest)%nat.
Proof.
  intros Hc. unfold read_identifier.
  assert (Hal : isalnum c = true) by (unfold isalnum; now rewrite Hc).
  pose proof (span_length_head isalnum c rest Hal) as H1.
  destruct (span isalnum (c :: rest)) as [value rest1]. simpl in H1.
  destruct (is_cell_ref value); [|exact H1].
  destruct rest1 as [|d [|d' after]]; try exact H1.
  destruct (is_char ":" d); [|exact H1].
  pose proof (span_length isalnum (d' :: after)) as H2.
  destruct (span isalnum (d' :: after)) as [range_end rest2].
  destruct (is_cell_ref range_end); simpl in *; lia.
Qed.

Lemma read_operator_shorter pos c rest :
  (length (read_operator pos (c :: rest)).2 <= length rest)%nat.
Proof.
  unfold read_operator.
  destruct (is_char "<" c || is_char ">" c || is_char "=" c); [|simpl; lia].
  destruct rest as [|d rest'']; [simpl; lia|].
  destruct (is_char "=" d); simpl; lia.
Qed.

Lemma skip_whitespace_shorter pos rest :
  (length (skip_whitespace pos rest).2 <= length rest)%nat.
Proof.
  unfold skip_whitespace. pose proof (span_length isspace rest).
  now destruct (span isspace rest).
Qed.

(** The loop bound of [tokenize_loop] is never reached. *)
Lemma tokenize_loop_total fuel : forall pos rest tokens,
  (length rest < fuel)%nat ->
  exists result, tokenize_loop fuel pos rest tokens = Ok result.
Proof.
  induction fuel as [|k IH]; intros pos rest tokens Hlen; [lia|].
  simpl. pose proof (skip_whitespace_shorter pos rest) as Hws.
  destruct (skip_whitespace pos rest) as [pos1 rest1]. simpl in Hws.
  destruct rest1 as [|c rest']; [eauto|]. simpl in Hws.
  destruct (isdigit c || is_char "." c) eqn:Hnum.
  { pose proof (read_number_shorter pos1 c rest' Hnum).
    destruct (read_number pos1 (c :: rest')) as [[tok pos'] rest''].
    apply IH. simpl in *. lia. }
  destruct (is_char "034" c).
  { pose proof (read_string_shorter pos1 c rest').
    destruct (read_string pos1 (c :: rest')) as [[tok pos'] rest''].
    apply IH. simpl in *. lia. }
  destruct (isalpha c) eqn:Halpha.
  { pose proof (read_identifier_shorter pos1 c rest' Halpha).
    destruct (read_identifier pos1 (c :: rest')) as [[tok pos'] rest''].
    apply IH. simpl in *. lia. }
  destruct (is_operator_char c).
  { pose proof (read_operator_shorter pos1 c rest').
    destruct (read_operator pos1 (c :: rest')) as [[tok pos'] rest''].
    apply IH. simpl in *. lia. }
  destruct (is_char "(" c); [apply IH; lia|].
  destruct (is_char ")" c); [apply IH; lia|].
  destruct (is_char "," c); apply IH; lia.
Qed.

Lemma tokenize_total formula : exists tokens, tokenize formula = Ok tokens.
Proof. unfold tokenize. apply tokenize_loop_total. lia. Qed.

Lemma unknown_char_facts c :
  is_unknown_char c = true ->
  isspace c = false /\ is_char "=" c = false /\
  negb (isspace c || isdigit c || is_char "." c || is_char "034" c
        || isalpha c || is_operator_char c
        || is_char "(" c || is_char ")" c || is_char "," c) = true.
Proof.
  unfold is_unknown_char. intros Hc. apply andb_true_iff in Hc as [_ Hc].
  split; [|split; [|exact Hc]].
  - rewrite negb_true_iff, !orb_false_iff in Hc. tauto.
  - rewrite negb_true_iff, !orb_false_iff in Hc.
    destruct Hc as ((((_ & Hop) & _) & _) & _). unfold is_char.
    destruct (Ascii.eqb_spec c "="%char) as [->|]; [discriminate|reflexivity].
Qed.

(** The step of the loop at a character that no branch recognises. *)
Lemma tokenize_loop_unknown fuel pos c rest tokens :
  is_unknown_char c = true ->
  tokenize_loop (S fuel) pos (c :: rest) tokens =
    tokenize_loop fuel (pos + 1) rest tokens.
Proof.
  intros Hc. apply unknown_char_facts in Hc as (_ & _ & Hc).
  rewrite negb_true_iff, !orb_false_iff in Hc.
  destruct Hc as ((((((((Hsp & Hd) & Hdot) & Hq) & Ha) & Hop) & Hl) & Hr) & Hc).
  simpl. unfold skip_whitespace. simpl. rewrite Hsp.
  change (len []) with 0. rewrite Z.add_0_r.
  now rewrite Hd, Hdot, Hq, Ha, Hop, Hl, Hr, Hc.
Qed.

Lemma tokenize_loop_all_unknown l : forall pos tokens,
  forallb is_unknown_char l = true ->
  tokenize_loop (S (length l)) pos l tokens =
    Ok (tokens ++ [mkToken EOF "" (pos + len l)]).
Proof.
  induction l as [|c l IH]; intros pos tokens Hl.
  - simpl. unfold skip_whitespace. simpl.
    change (len []) with 0. now rewrite Z.add_0_r.
  - simpl in Hl. apply andb_true_iff in Hl as [Hc Hl].
    change (length (c :: l)) with (S (length l)).
    rewrite tokenize_loop_unknown by assumption.
    rewrite IH by assumption. unfold len. simpl length.
    do 4 f_equal. lia.
Qed.

(** What the tokenizer is left with when the text, after the optional
    leading [=], holds unrecognised characters only. *)
Lemma prepare_all_unknown body formula :
  forallb is_unknown_char body = true ->
  formula = string_of_list_ascii body \/
  formula = String "=" (string_of_list_ascii body) ->
  prepare formula = body.
Proof.
  intros Hs Hformula.
  assert (Hblank : Forall (fun c => isspace c = false) body).
  { apply forallb_Forall in Hs. eapply Forall_impl; [exact Hs|].
    intros c Hc. now apply unknown_char_facts. }
  unfold prepare. destruct Hformula as [->| ->].
  - rewrite list_ascii_of_string_of_list_ascii, strip_with_id by assumption.
    destruct body as [|c l]; [reflexivity|].
    simpl in Hs. apply andb_true_iff in Hs as [Hc _].
    apply unknown_char_facts in Hc as (_ & -> & _). reflexivity.
  - cbn [list_ascii_of_string].
    rewrite list_ascii_of_string_of_list_ascii, strip_with_id;
      [reflexivity|].
    constructor; [reflexivity|assumption].
Qed.

Section Evaluation.
Context `{Runtime}.
Variable get_cell_value : Z -> Z -> result pyval.

(** C9, amended. On an ASCII text the tokenizer never fails, and at an
    ASCII character that none of its branches recognises it moves on by
    one position and emits no token; a formula whose text, after the
    optional leading [=], holds such characters only leaves the single
    token [EOF], on which parsing fails, and evaluates to [#ERROR!];
    [=1+2$] evaluates to [3]. *)
Theorem unknown_characters_are_skipped :
  (forall formula,
      ascii_text (list_ascii_of_string formula) = true ->
      exists tokens, tokenize formula = Ok tokens) /\
  (forall fuel pos c rest tokens,
      is_unknown_char c = true ->
      ascii_text rest = true ->
      tokenize_loop (S fuel) pos (c :: rest) tokens =
        tokenize_loop fuel (pos + 1) rest tokens) /\
  (forall body formula,
      forallb is_unknown_char body = true ->
      formula = string_of_list_ascii body \/
      formula = String "=" (string_of_list_ascii body) ->
      tokenize formula = Ok [mkToken EOF "" (len body)] /\
      evaluate_formula get_cell_value formula = PStr "#ERROR!") /\
  evaluate_formula get_cell_value "=1+2$" = PFloat 3.
Proof.
  split; [intros formula _; apply tokenize_total|].
  split; [intros fuel pos c rest tokens Hc _; now apply tokenize_loop_unknown|].
  split; [|vm_compute; reflexivity].
  intros body formula Hs Hformula.
  assert (Htok : tokenize formula = Ok [mkToken EOF "" (len body)]).
  { unfold tokenize. rewrite (prepare_all_unknown body) by assumption.
    now rewrite tokenize_loop_all_unknown. }
  split; [exact Htok|].
  unfold evaluate_formula, parse_formula. rewrite Htok. reflexivity.
Qed.

End Evaluation.

(** C9 as stated fails: [$] is a character the tokenizer does not
    recognise, and [=1+2$] evaluates to [3]. *)
Lemma unknown_character_does_not_fail :
  is_unknown_char "$" = true /\
  evaluate_formula (H := unused_runtime) (fun _ _ => Ok (PStr "")) "=1+2$"
    = PFloat 3.
Proof. split; reflexivity. Qed.

Lemma unknown_characters_are_skipped_witness :
  (exists tokens, tokenize "=1+2$" = Ok tokens) /\
  tokenize_loop 3 0 ["$"; "?"]%char [] = tokenize_loop 2 1 ["?"]%char [] /\
  evaluate_formula (H := unused_runtime) (fun _ _ => Ok (PStr "")) "=$#@"
    = PStr "#ERROR!".
Proof.
  destruct (unknown_characters_are_skipped (H := unused_runtime)
              (fun _ _ => Ok (PStr ""))) as (Htotal & Hstep & Hall & _).
  split; [|split].
  - apply (Htotal "=1+2$"). reflexivity.
  - apply (Hstep 2%nat 0 "$"%char ["?"%char] []); reflexivity.
  - apply (Hall ["$"; "#"; "@"]%char "=$#@"); [reflexivity|]. right.
    reflexivity.
Defined.

End TokenizerFacts.

(** ** Recalculation: the SUM scenario *)

Module SumScenario.
Import Py Model Formula Engine.

Lemma float_13_is_not_12 : PFloat 13 <> PFloat 12.
Proof.
  intros Heq.
  pose (is_12 := fun v => match v with
                          | PFloat f => PrimFloat.eqb f 12
                          | _ => true
                          end).
  assert (Hb : is_12 (PFloat 13) = is_12 (PFloat 12)) by now rewrite Heq.
  vm_compute in Hb. discriminate Hb.
Qed.

(** C4 as stated fails: after A1 is deleted and the engine is told, D1
    holds 0+10+3, which is 13 and not 12. *)
Lemma sum_after_delete_is_not_12 :
  cell_value
    (set_cell_formula (H := unused_runtime)
       (delete_in_sheet (sum_sheet_changed (H := unused_runtime)) 0 0) 0 0 "")
    (0, 3) = Some (PFloat 13) /\
  PFloat 13 <> PFloat 12.
Proof. split; [vm_compute; reflexivity|exact float_13_is_not_12]. Qed.

(** C4, amended. With A1..A3 set to 1, 2, 3 and D1 set to [=SUM(A1:A3)],
    D1 holds 6; after A2 is changed to 10, D1 holds 14; after A1 is
    deleted D1 holds 13, whichever way the engine is told of the deletion
    (an edit of A1 to no formula, marking A1 dirty and recalculating, or
    emptying A1 through an edit); as long as the engine is not told, D1
    keeps 14. *)
Theorem sum_over_range_scenario `{Runtime} :
  cell_value sum_sheet (0, 3) = Some (PFloat 6) /\
  cell_value sum_sheet_changed (0, 3) = Some (PFloat 14) /\
  cell_value (set_cell_formula (delete_in_sheet sum_sheet_changed 0 0) 0 0 "")
             (0, 3) = Some (PFloat 13) /\
  cell_value (recalculate
                (mark_dirty (delete_in_sheet sum_sheet_changed 0 0) (0, 0)))
             (0, 3) = Some (PFloat 13) /\
  cell_value (edit sum_sheet_changed 0 0 "") (0, 3) = Some (PFloat 13) /\
  cell_value (delete_in_sheet sum_sheet_changed 0 0) (0, 3)
    = Some (PFloat 14).
Proof. repeat split; vm_compute; reflexivity. Qed.

End SumScenario.

(** ** Recalculation: cycles *)

Module CycleFacts.
Import Py Model Formula Engine.

Section Engine.
Context `{Runtime}.

Lemma update_cell_same s pos f :
  cells (update_cell s pos f) !! pos =
    Some (f (default empty_cell (cells s !! pos))).
Proof.
  unfold update_cell, get_cell. destruct pos as [row col]. simpl.
  destruct (cells s !! (row, col)); simpl; now rewrite lookup_insert_eq.
Qed.

Lemma update_cell_other s pos f pos' :
  pos <> pos' -> cells (update_cell s pos f) !! pos' = cells s !! pos'.
Proof.
  intros Hne. unfold update_cell, get_cell. destruct pos as [row col]. simpl.
  destruct (cells s !! (row, col)); simpl;
    rewrite !lookup_insert_ne by assumption; reflexivity.
Qed.




(** What [install_formula] leaves in the graph. *)
Lemma add_all_dependencies cell (l : list addr) : forall g c,
  get_set (dependencies (foldl (fun g dep => add_dependency g cell dep) g l)) c
    = if decide (cell = c) then list_to_set l ∪ get_set (dependencies g) c
      else get_set (dependencies g) c.
Proof.
  induction l as [|d l IH]; intros g c; simpl.
  - destruct (decide (cell = c)); set_solver.
  - rewrite IH. unfold add_dependency. cbn [dependencies].
    rewrite !GraphFacts.get_set_insert.
    destruct (decide (cell = c)); set_solver.
Qed.


Lemma add_all_cache cell (l : list addr) : forall g,
  ast_cache (foldl (fun g dep => add_dependency g cell dep) g l) = ast_cache g.
Proof. induction l as [|d l IH]; intros g; simpl; [reflexivity|now rewrite IH]. Qed.


Lemma install_formula_cache g cell ast :
  ast_cache (install_formula g cell ast) !! cell = Some ast.
Proof.
  unfold install_formula. rewrite add_all_cache. simpl.
  apply lookup_insert_eq.
Qed.


End Engine.

End CycleFacts.

(** ** The search for cycles *)

Module SearchFacts.
Import Py Model Formula Engine.

Section Search.
Variable ds : gmap addr (gset addr).

Lemma chain_app_r R (l1 l2 : list addr) : chain R (l1 ++ l2) -> chain R l2.
Proof.
  induction l1 as [|x l1 IH]; [auto|]. simpl.
  destruct (l1 ++ l2) eqn:E.
  - intros _. destruct l1; [simpl in E; now subst|discriminate].
  - intros [_ Hc]. auto.
Qed.

Lemma chain_snoc R (l : list addr) x :
  chain R l ->
  match last l with Some y => R y x | None => True end ->
  chain R (l ++ [x]).
Proof.
  induction l as [|a l IH]; [simpl; auto|].
  intros Hc Hl. simpl. destruct l as [|b l].
  - simpl in *. auto.
  - simpl in Hc. destruct Hc as [Hab Hc]. split; [exact Hab|].
    apply IH; [exact Hc|]. exact Hl.
Qed.

Lemma from_index_split cell (l : list addr) :
  cell ∈ l -> exists before after,
    l = before ++ cell :: after /\ from_index cell l = cell :: after.
Proof.
  induction l as [|x l IH]; intros Hin; [now apply elem_of_nil in Hin|].
  simpl. destruct (decide (x = cell)) as [->|Hne].
  - exists [], l. auto.
  - apply elem_of_cons in Hin as [->|Hin]; [congruence|].
    destruct (IH Hin) as (before & after & -> & Hfrom).
    exists (x :: before), after. auto.
Qed.

Lemma dfs_children_sound call (l : list addr) cell : forall st,
  (forall child st', child ∈ l -> dfs_inv ds st' child ->
     dfs_post ds st' (call child st')) ->
  (forall child, child ∈ l -> edge ds cell child) ->
  last (path st) = Some cell ->
  chain (edge ds) (path st) ->
  (forall x, x ∈ rec_stack st <-> x ∈ path st) ->
  dfs_post ds st (dfs_children call l st).
Proof.
  induction l as [|child l IH]; intros st Hcall Hedge Hlast Hchain Hstack.
  - simpl. auto.
  - simpl.
    assert (Hinv : dfs_inv ds st child).
    { split; [exact Hchain|]. split; [exact Hstack|].
      rewrite Hlast. apply Hedge. now left. }
    pose proof (Hcall child st ltac:(now left) Hinv) as Hpost.
    destruct (call child st) as [[cycle|] st']; [exact Hpost|].
    destruct Hpost as [Hp Hr].
    assert (Hrest : dfs_post ds st' (dfs_children call l st')).
    { apply IH.
      - intros c s Hc. apply Hcall. now right.
      - intros c Hc. apply Hedge. now right.
      - now rewrite Hp.
      - now rewrite Hp.
      - intros x. now rewrite Hp, Hr. }
    unfold dfs_post in *.
    destruct (dfs_children call l st') as [[cycle|] st'']; [exact Hrest|].
    destruct Hrest as [-> ->]. auto.
Qed.

Lemma dfs_sound fuel : forall cell st,
  dfs_inv ds st cell -> dfs_post ds st (dfs fuel ds cell st).
Proof.
  induction fuel as [|k IH]; intros cell st (Hchain & Hstack & Hlast);
    [simpl; auto|].
  simpl. destruct (decide (cell ∈ rec_stack st)) as [Hin|Hnot].
  - simpl. apply Hstack in Hin.
    destruct (from_index_split cell (path st) Hin)
      as (before & after & Hpath & ->).
    rewrite Hpath in Hchain, Hlast.
    rewrite last_app in Hlast. simpl in Hlast.
    destruct (last (cell :: after)) as [y|] eqn:Hy;
      [|apply last_None in Hy; discriminate].
    exists cell, y. split; [reflexivity|]. split; [exact Hy|].
    split; [exact Hlast|]. now apply chain_app_r in Hchain.
  - destruct (decide (cell ∈ visited st)); [simpl; auto|].
    set (st1 := mkDfs ({[cell]} ∪ visited st) ({[cell]} ∪ rec_stack st)
                      (path st ++ [cell])).
    assert (Hpost : dfs_post ds st1
              (dfs_children (dfs k ds) (elements (get_set ds cell)) st1)).
    { apply (dfs_children_sound _ _ cell).
      - intros child st' _ Hinv. now apply IH.
      - intros child Hc. now apply elem_of_elements in Hc.
      - simpl. apply last_snoc.
      - simpl. now apply chain_snoc.
      - intros x. simpl. rewrite elem_of_union, elem_of_singleton,
          elem_of_app, list_elem_of_singleton, Hstack. tauto. }
    destruct (dfs_children (dfs k ds) (elements (get_set ds cell)) st1)
      as [[cycle|] st']; [exact Hpost|].
    destruct Hpost as [Hp Hr]. simpl. rewrite Hp, Hr. simpl. split.
    + apply removelast_last.
    + apply set_eq. intros x. set_solver.
Qed.

End Search.

(** What [find_cycles] returns is a cycle, when it returns anything. *)
Lemma find_cycles_sound g start :
  find_cycles g start = [] \/ is_cycle (dependents g) (find_cycles g start).
Proof.
  unfold find_cycles.
  pose proof (dfs_sound (dependents g)
                (S (S (size (graph_nodes (dependents g))))) start
                (mkDfs ∅ ∅ [])) as Hs.
  destruct (dfs _ (dependents g) start (mkDfs ∅ ∅ [])) as [[cycle|] st'];
    simpl; [right|now left].
  apply Hs. split; [exact I|]. split; [|exact I].
  intros x. simpl. set_solver.
Qed.

End SearchFacts.

(** ** Marking the dependents dirty *)

Module MarkFacts.
Import Py Model Formula Engine.

Lemma graph_nodes_spec (ds : gmap addr (gset addr)) u v :
  edge ds u v -> u ∈ graph_nodes ds /\ v ∈ graph_nodes ds.
Proof.
  unfold edge, get_set, graph_nodes.
  revert u v.
  apply (map_fold_weak_ind
           (fun acc m => forall u v, v ∈ default ∅ (m !! u) ->
                                     u ∈ acc /\ v ∈ acc)).
  - intros u v. rewrite lookup_empty. simpl. set_solver.
  - intros k s m acc Hnone IH u v.
    destruct (decide (k = u)) as [->|Hne].
    + rewrite lookup_insert_eq. simpl. set_solver.
    + rewrite lookup_insert_ne by assumption. intros Hv.
      destruct (IH u v Hv). set_solver.
Qed.

Section Mark.
Context `{Runtime}.
Variable g : DependencyGraph.
Variable start : addr.

#[local] Abbreviation universe := (Engine.universe g start).

Lemma universe_closed x y :
  y ∈ get_dependents g x -> y ∈ universe.
Proof.
  intros Hy. apply (graph_nodes_spec (dependents g) x y) in Hy as [_ Hy].
  unfold universe. set_solver.
Qed.

(** The loop ends within its bound, in a set that holds what it was given
    to mark and is closed under [dependents]. *)
Lemma mark_loop_closure fuel : forall to_mark marked dirty,
  (size to_mark + S (size universe) * size (universe ∖ marked) < fuel)%nat ->
  to_mark ⊆ universe ->
  (forall x, x ∈ marked -> get_dependents g x ⊆ marked ∪ to_mark) ->
  exists closed : gset addr,
    to_mark ∪ marked ⊆ closed /\
    (forall x, x ∈ closed -> get_dependents g x ⊆ closed) /\
    closed ∖ marked ⊆ mark_loop fuel g to_mark marked dirty /\
    dirty ⊆ mark_loop fuel g to_mark marked dirty.
Proof.
  induction fuel as [|k IH]; intros to_mark marked dirty Hfuel Hsub Hclosed;
    [lia|].
  simpl. destruct (elements to_mark) as [|current rest] eqn:Hel.
  - apply elements_empty_inv in Hel. apply leibniz_equiv in Hel. subst to_mark.
    exists marked. split; [set_solver|]. split; [|set_solver].
    intros x Hx. specialize (Hclosed x Hx). set_solver.
  - assert (Hcur : current ∈ to_mark).
    { apply elem_of_elements. rewrite Hel. now left. }
    assert (Hsize : (size (to_mark ∖ {[current]}) = size to_mark - 1)%nat).
    { rewrite size_difference by set_solver. now rewrite size_singleton. }
    assert (Hpos : (1 <= size to_mark)%nat).
    { destruct (size to_mark) eqn:E; [|lia].
      apply size_empty_inv in E. set_solver. }
    destruct (decide (current ∈ marked)) as [Hm|Hm].
    + destruct (IH (to_mark ∖ {[current]}) marked dirty)
        as (closed & Hc1 & Hc2 & Hc3 & Hc4).
      * lia.
      * set_solver.
      * intros x Hx. specialize (Hclosed x Hx). intros y Hy.
        specialize (Hclosed y Hy).
        destruct (decide (y = current)) as [->|]; set_solver.
      * exists closed. repeat split; try assumption.
        intros x Hx. destruct (decide (x = current)) as [->|]; set_solver.
    + assert (Hin : current ∈ universe ∖ marked) by set_solver.
      assert (Hless : (size (universe ∖ ({[current]} ∪ marked))
                       = size (universe ∖ marked) - 1)%nat).
      { replace (universe ∖ ({[current]} ∪ marked))
          with ((universe ∖ marked) ∖ {[current]}) by set_solver.
        rewrite size_difference by set_solver. now rewrite size_singleton. }
      assert (Hk : (1 <= size (universe ∖ marked))%nat).
      { destruct (size (universe ∖ marked)) eqn:E; [|lia].
        apply size_empty_inv in E. set_solver. }
      assert (Hnew : to_mark ∖ {[current]} ∪ get_dependents g current
                     ⊆ universe).
      { intros y Hy. apply elem_of_union in Hy as [Hy|Hy]; [set_solver|].
        now apply (universe_closed current). }
      destruct (IH (to_mark ∖ {[current]} ∪ get_dependents g current)
                   ({[current]} ∪ marked) ({[current]} ∪ dirty))
        as (closed & Hc1 & Hc2 & Hc3 & Hc4).
      * apply subseteq_size in Hnew. rewrite Hless. nia.
      * exact Hnew.
      * intros x Hx. apply elem_of_union in Hx as [Hx|Hx].
        -- apply elem_of_singleton in Hx as ->. set_solver.
        -- specialize (Hclosed x Hx). intros y Hy. specialize (Hclosed y Hy).
           destruct (decide (y = current)) as [->|]; set_solver.
      * exists closed. split; [|split; [exact Hc2|split]].
        -- intros x Hx. destruct (decide (x = current)) as [->|]; set_solver.
        -- intros x Hx. destruct (decide (x = current)) as [->|]; set_solver.
        -- set_solver.
Qed.

(** [mark_dirty] adds every cell that is reachable through [dependents]. *)
Lemma mark_loop_reaches dirty x :
  rtc (edge (dependents g)) start x ->
  x ∈ mark_loop (mark_fuel g) g {[start]} ∅ dirty.
Proof.
  intros Hreach.
  destruct (mark_loop_closure (mark_fuel g) {[start]} ∅ dirty)
    as (closed & Hc1 & Hc2 & Hc3 & _).
  - unfold mark_fuel. rewrite size_singleton, difference_empty_L.
    assert (size universe <= S (size (graph_nodes (dependents g))))%nat.
    { unfold Engine.universe. rewrite size_union_alt, size_singleton.
      pose proof (subseteq_size (graph_nodes (dependents g) ∖ {[start]})
                    (graph_nodes (dependents g)) ltac:(set_solver)). lia. }
    nia.
  - unfold Engine.universe. set_solver.
  - set_solver.
  - apply Hc3. rewrite difference_empty_L.
    revert x Hreach. apply (rtc_ind_r (fun x => x ∈ closed) start).
    + set_solver.
    + intros u v _ Huv IH. apply (Hc2 u IH). exact Huv.
Qed.

Lemma mark_loop_keeps dirty :
  dirty ⊆ mark_loop (mark_fuel g) g {[start]} ∅ dirty.
Proof.
  destruct (mark_loop_closure (mark_fuel g) {[start]} ∅ dirty)
    as (closed & _ & _ & _ & Hc4).
  - unfold mark_fuel. rewrite size_singleton, difference_empty_L.
    assert (size universe <= S (size (graph_nodes (dependents g))))%nat.
    { unfold Engine.universe. rewrite size_union_alt, size_singleton.
      pose proof (subseteq_size (graph_nodes (dependents g) ∖ {[start]})
                    (graph_nodes (dependents g)) ltac:(set_solver)). lia. }
    nia.
  - unfold Engine.universe. set_solver.
  - set_solver.
  - exact Hc4.
Qed.

End Mark.

End MarkFacts.

(** ** The search for cycles ends within its bound *)

Module SearchBound.
Import Py Model Formula Engine.

Section Search.
Variable ds : gmap addr (gset addr).

(** A call that finds nothing leaves the stack as it was. *)
Lemma dfs_children_stack call (l : list addr) : forall st,
  (forall child st', child ∈ l -> (call child st').1 = None ->
     rec_stack (call child st').2 = rec_stack st') ->
  (dfs_children call l st).1 = None ->
  rec_stack (dfs_children call l st).2 = rec_stack st.
Proof.
  induction l as [|child l IH]; intros st Hcall; cbn [dfs_children];
    [reflexivity|].
  pose proof (Hcall child st ltac:(now left)) as Hchild.
  destruct (call child st) as [[cycle|] st']; [discriminate|].
  intros Hnone. rewrite IH; [now apply Hchild| |assumption].
  intros c s Hc. apply Hcall. now right.
Qed.

Lemma dfs_stack fuel : forall cell st,
  (dfs fuel ds cell st).1 = None ->
  rec_stack (dfs fuel ds cell st).2 = rec_stack st.
Proof.
  induction fuel as [|k IH]; intros cell st; cbn [dfs]; [reflexivity|].
  destruct (decide (cell ∈ rec_stack st)) as [Hin|Hnot]; [discriminate|].
  destruct (decide (cell ∈ visited st)); [reflexivity|].
  set (st1 := mkDfs ({[cell]} ∪ visited st) ({[cell]} ∪ rec_stack st)
                    (path st ++ [cell])).
  pose proof (dfs_children_stack (dfs k ds) (elements (get_set ds cell)) st1
                ltac:(intros c s _; apply IH)) as Hstack.
  destruct (dfs_children (dfs k ds) (elements (get_set ds cell)) st1)
    as [[cycle|] st']; [discriminate|].
  intros _. cbn in *. rewrite Hstack by reflexivity.
  apply set_eq. intros x. set_solver.
Qed.

(** The loop over the dependents, for two recursive calls that agree on
    the states the loop meets. *)
Lemma dfs_children_ext call1 call2 (l : list addr) : forall st,
  (forall child st', child ∈ l -> rec_stack st' = rec_stack st ->
     call1 child st' = call2 child st') ->
  (forall child st', child ∈ l -> (call1 child st').1 = None ->
     rec_stack (call1 child st').2 = rec_stack st') ->
  dfs_children call1 l st = dfs_children call2 l st.
Proof.
  induction l as [|child l IH]; intros st Hsame Hstack; cbn [dfs_children];
    [reflexivity|].
  rewrite <- (Hsame child st ltac:(now left) eq_refl).
  pose proof (Hstack child st ltac:(now left)) as Hchild.
  destruct (call1 child st) as [[cycle|] st']; [reflexivity|].
  specialize (Hchild eq_refl). cbn in Hchild. apply IH.
  - intros c s Hc Hs. apply Hsame; [now right|congruence].
  - intros c s Hc. apply Hstack. now right.
Qed.


Section Bound.
Variable within : gset addr.
Hypothesis Hclosed : forall u v, edge ds u v -> v ∈ within.

(** More fuel than cells outside the stack: the answer of [dfs] does not
    depend on the fuel. *)
Lemma dfs_fuel fuel1 : forall fuel2 cell st,
  cell ∈ within ->
  (size (within ∖ rec_stack st) < fuel1)%nat ->
  (size (within ∖ rec_stack st) < fuel2)%nat ->
  dfs fuel1 ds cell st = dfs fuel2 ds cell st.
Proof.
  induction fuel1 as [|k1 IH]; intros fuel2 cell st Hcell H1 H2; [lia|].
  destruct fuel2 as [|k2]; [lia|]. cbn [dfs].
  destruct (decide (cell ∈ rec_stack st)) as [Hin|Hnot]; [reflexivity|].
  destruct (decide (cell ∈ visited st)); [reflexivity|].
  set (st1 := mkDfs ({[cell]} ∪ visited st) ({[cell]} ∪ rec_stack st)
                    (path st ++ [cell])).
  assert (Hsize : size (within ∖ rec_stack st)
                  = S (size (within ∖ rec_stack st1))).
  { replace (within ∖ rec_stack st)
      with ({[cell]} ∪ within ∖ rec_stack st1).
    - rewrite size_union by (cbn; set_solver).
      now rewrite size_singleton.
    - apply set_eq. intros x. cbn.
      destruct (decide (x = cell)) as [->|]; set_solver. }
  rewrite (dfs_children_ext (dfs k1 ds) (dfs k2 ds)); [reflexivity| |].
  - intros child s Hchild Hs. apply IH.
    + apply elem_of_elements in Hchild. exact (Hclosed cell child Hchild).
    + rewrite Hs. lia.
    + rewrite Hs. lia.
  - intros child s _. apply dfs_stack.
Qed.


End Bound.


End Search.

(** The fuel of [find_cycles] is enough: more fuel finds the same. *)
Lemma find_cycles_fuel g start fuel :
  (S (S (size (graph_nodes (dependents g)))) <= fuel)%nat ->
  match fst (dfs fuel (dependents g) start (mkDfs ∅ ∅ [])) with
  | Some cycle => cycle
  | None => []
  end = find_cycles g start.
Proof.
  intros Hfuel. unfold find_cycles.
  assert (Hsize : (size (universe g start ∖ (∅ : gset addr))
                   < S (S (size (graph_nodes (dependents g)))))%nat).
  { rewrite difference_empty_L. unfold universe.
    rewrite size_union_alt, size_singleton.
    pose proof (subseteq_size (graph_nodes (dependents g) ∖ {[start]})
                  (graph_nodes (dependents g)) ltac:(set_solver)). lia. }
  rewrite (dfs_fuel (dependents g) (universe g start)
             (fun u v Huv => MarkFacts.universe_closed g start u v Huv)
             fuel (S (S (size (graph_nodes (dependents g)))))).
  - reflexivity.
  - unfold universe. set_solver.
  - cbn [rec_stack]. lia.
  - exact Hsize.
Qed.




End SearchBound.

(** ** The topological sort *)

Module SortFacts.
Import Py Model Formula Engine.

(** *** Counting in lists without duplicates *)

Lemma filter_length_remove {A} `{EqDecision A} (p q : A -> bool) x (l : list A) :
  NoDup l -> p x = true -> q x = false ->
  (forall y, y <> x -> q y = p y) ->
  length (List.filter p l) =
    (length (List.filter q l) + if decide (x ∈ l) then 1 else 0)%nat.
Proof.
  intros Hnd Hpx Hqx Hpq. induction Hnd as [|y l Hy Hnd IH].
  - destruct (decide (x ∈ [])) as [Hin|]; [|reflexivity].
    now apply elem_of_nil in Hin.
  - cbn [List.filter]. destruct (decide (y = x)) as [->|Hne].
    + rewrite Hpx, Hqx. cbn [length]. rewrite IH.
      destruct (decide (x ∈ l)) as [|_]; [contradiction|].
      destruct (decide (x ∈ x :: l)) as [_|Hn]; [lia|].
      exfalso. apply Hn. now left.
    + rewrite (Hpq y Hne).
      assert (Hiff : x ∈ y :: l <-> x ∈ l).
      { rewrite elem_of_cons. split; [intros [->|]; congruence|auto]. }
      destruct (decide (x ∈ l)) as [Hl|Hl],
               (decide (x ∈ y :: l)) as [Hc|Hc]; try tauto;
        destruct (p y); cbn [length]; lia.
Qed.

Lemma filter_length_zero {A} (p : A -> bool) (l : list A) :
  length (List.filter p l) = 0%nat <-> forall y, y ∈ l -> p y = false.
Proof.
  induction l as [|x l IH]; simpl.
  - split; [intros _ y Hy; now apply elem_of_nil in Hy|reflexivity].
  - destruct (p x) eqn:Hx; simpl.
    + split; [discriminate|]. intros Hall.
      specialize (Hall x ltac:(now left)). congruence.
    + rewrite IH. split.
      * intros Hall y Hy. apply elem_of_cons in Hy as [->|Hy]; auto.
      * intros Hall y Hy. apply Hall. now right.
Qed.

Section Sort.
Variable g : DependencyGraph.
Variable cells : gset addr.
Hypothesis Hg : consistent g.

Lemma waits_for_spec done d :
  waits_for cells done d = true <-> d ∈ cells /\ d ∉ done.
Proof.
  unfold waits_for. rewrite andb_true_iff, negb_true_iff,
    bool_decide_eq_true, bool_decide_eq_false. tauto.
Qed.

Lemma pending_zero done c :
  pending g cells done c = 0%nat <->
  forall d, d ∈ get_set (dependencies g) c -> d ∈ cells -> d ∈ done.
Proof.
  unfold pending. rewrite filter_length_zero. split.
  - intros Hall d Hd Hc. specialize (Hall d ltac:(now apply elem_of_elements)).
    destruct (decide (d ∈ done)) as [|Hn]; [assumption|].
    assert (waits_for cells done d = true) by now apply waits_for_spec.
    congruence.
  - intros Hall d Hd. apply elem_of_elements in Hd.
    destruct (waits_for cells done d) eqn:Hw; [|reflexivity].
    apply waits_for_spec in Hw as [Hc Hn]. now specialize (Hall d Hd Hc).
Qed.

Lemma pending_step done x c :
  x ∈ cells -> x ∉ done ->
  pending g cells done c =
    (pending g cells (done ++ [x]) c
     + if decide (x ∈ get_set (dependencies g) c) then 1 else 0)%nat.
Proof.
  intros Hx Hn. unfold pending.
  rewrite (filter_length_remove (waits_for cells done)
             (waits_for cells (done ++ [x])) x).
  - f_equal. destruct (decide (x ∈ elements (get_set (dependencies g) c))),
      (decide (x ∈ get_set (dependencies g) c)); try reflexivity;
      exfalso; rewrite elem_of_elements in *; tauto.
  - apply NoDup_elements.
  - now apply waits_for_spec.
  - destruct (waits_for cells (done ++ [x]) x) eqn:Hw; [|reflexivity].
    apply waits_for_spec in Hw as [_ Hw]. exfalso. apply Hw.
    apply elem_of_app. right. now left.
  - intros y Hy. apply eq_true_iff_eq. rewrite !waits_for_spec.
    rewrite elem_of_app, list_elem_of_singleton. tauto.
Qed.

(** *** The in-degrees *)

Lemma get_degree_insert (m : gmap addr Z) k v k' :
  get_degree (<[k := v]> m) k' = if decide (k = k') then v else get_degree m k'.
Proof.
  unfold get_degree. rewrite lookup_insert. now destruct (decide (k = k')).
Qed.

Lemma count_fold cell (l : list addr) : forall deg c,
  get_degree
    (foldl (fun in_degree dep =>
              if decide (dep ∈ cells)
              then <[cell := get_degree in_degree cell + 1]> in_degree
              else in_degree) deg l) c
  = get_degree deg c
    + if decide (cell = c)
      then Z.of_nat (length (List.filter (fun d => bool_decide (d ∈ cells)) l))
      else 0.
Proof.
  induction l as [|d l IH]; intros deg c; cbn [foldl List.filter].
  - destruct (decide (cell = c)); simpl; lia.
  - rewrite IH. destruct (decide (d ∈ cells)) as [Hd|Hd].
    + rewrite (bool_decide_eq_true_2 _ Hd), get_degree_insert.
      destruct (decide (cell = c)) as [->|]; cbn [length]; lia.
    + rewrite (bool_decide_eq_false_2 _ Hd). reflexivity.
Qed.

Lemma in_degrees_fold (l : list addr) :
  NoDup l -> forall deg c,
  get_degree
    (foldl (fun in_degree cell =>
              foldl (fun in_degree dep =>
                       if decide (dep ∈ cells)
                       then <[cell := get_degree in_degree cell + 1]> in_degree
                       else in_degree)
                    in_degree (elements (get_set (dependencies g) cell)))
           deg l) c
  = get_degree deg c
    + if decide (c ∈ l) then Z.of_nat (pending g cells [] c) else 0.
Proof.
  induction 1 as [|x l Hx Hnd IH]; intros deg c; cbn [foldl].
  - destruct (decide (c ∈ [])) as [Hin|]; [now apply elem_of_nil in Hin|lia].
  - rewrite IH, count_fold.
    assert (Hcount : forall c,
      length (List.filter (fun d => bool_decide (d ∈ cells))
                          (elements (get_set (dependencies g) c)))
      = pending g cells [] c).
    { intros c'. unfold pending. f_equal. apply List.filter_ext.
      intros d. unfold waits_for.
      rewrite (bool_decide_eq_false_2 (d ∈ [])) by apply not_elem_of_nil.
      now rewrite andb_true_r. }
    rewrite Hcount.
    destruct (decide (x = c)) as [->|Hne].
    + rewrite (decide_True (P := c ∈ c :: l)) by now left.
      rewrite (decide_False (P := c ∈ l)) by assumption. lia.
    + destruct (decide (c ∈ l)) as [Hl|Hl].
      * rewrite (decide_True (P := c ∈ x :: l)) by now right. lia.
      * rewrite (decide_False (P := c ∈ x :: l)); [lia|].
        intros Hin. apply elem_of_cons in Hin as [->|Hin]; congruence.
Qed.

Lemma in_degrees_spec c :
  c ∈ cells ->
  get_degree (in_degrees g cells) c = Z.of_nat (pending g cells [] c).
Proof.
  intros Hc. unfold in_degrees. rewrite in_degrees_fold by apply NoDup_elements.
  rewrite decide_True by now apply elem_of_elements.
  unfold get_degree. now rewrite lookup_empty.
Qed.

(** *** Releasing the dependents of a cell *)

Lemma release_fold (l : list addr) :
  NoDup l -> forall deg q,
  (foldl (release cells) (deg, q) l).2 =
    q ++ List.filter (fun y => bool_decide (y ∈ cells)
                               && (get_degree deg y - 1 =? 0)) l /\
  forall y,
    get_degree (foldl (release cells) (deg, q) l).1 y =
      if bool_decide (y ∈ l) && bool_decide (y ∈ cells)
      then get_degree deg y - 1 else get_degree deg y.
Proof.
  induction 1 as [|x l Hx Hnd IH]; intros deg q; cbn [foldl List.filter].
  - split; [now rewrite app_nil_r|]. intros y.
    now rewrite (bool_decide_eq_false_2 (y ∈ [])) by apply not_elem_of_nil.
  - unfold release at 2 4.
    destruct (decide (x ∈ cells)) as [Hc|Hc].
    + rewrite (bool_decide_eq_true_2 _ Hc). cbn [andb].
      destruct (IH (<[x := get_degree deg x - 1]> deg)
                   (if get_degree deg x - 1 =? 0 then q ++ [x] else q))
        as [Hq Hd].
      split.
      * rewrite Hq.
        rewrite (List.filter_ext_in
                   (fun y => bool_decide (y ∈ cells)
                             && (get_degree (<[x := get_degree deg x - 1]> deg) y
                                 - 1 =? 0))
                   (fun y => bool_decide (y ∈ cells)
                             && (get_degree deg y - 1 =? 0))).
        -- destruct (get_degree deg x - 1 =? 0);
             [now rewrite <- app_assoc|reflexivity].
        -- intros y Hy. rewrite get_degree_insert.
           destruct (decide (x = y)) as [->|]; [|reflexivity].
           exfalso. apply Hx. now apply list_elem_of_In.
      * intros y. rewrite Hd, get_degree_insert.
        destruct (decide (x = y)) as [->|Hne].
        -- rewrite (bool_decide_eq_false_2 (y ∈ l)) by assumption.
           rewrite (bool_decide_eq_true_2 (y ∈ y :: l)) by now left.
           now rewrite (bool_decide_eq_true_2 _ Hc).
        -- destruct (decide (y ∈ l)) as [Hl|Hl].
           ++ rewrite (bool_decide_eq_true_2 _ Hl).
              now rewrite (bool_decide_eq_true_2 (y ∈ x :: l)) by now right.
           ++ rewrite (bool_decide_eq_false_2 _ Hl).
              rewrite (bool_decide_eq_false_2 (y ∈ x :: l)); [reflexivity|].
              intros Hin. apply elem_of_cons in Hin as [->|Hin]; congruence.
    + rewrite (bool_decide_eq_false_2 _ Hc). cbn [andb].
      destruct (IH deg q) as [Hq Hd]. split; [exact Hq|].
      intros y. rewrite Hd.
      destruct (decide (x = y)) as [->|Hne].
      * rewrite (bool_decide_eq_false_2 (y ∈ cells)) by assumption.
        now rewrite !andb_false_r.
      * destruct (decide (y ∈ l)) as [Hl|Hl].
        -- rewrite (bool_decide_eq_true_2 _ Hl).
           now rewrite (bool_decide_eq_true_2 (y ∈ x :: l)) by now right.
        -- rewrite (bool_decide_eq_false_2 _ Hl).
           rewrite (bool_decide_eq_false_2 (y ∈ x :: l)); [reflexivity|].
           intros Hin. apply elem_of_cons in Hin as [->|Hin]; congruence.
Qed.

(** *** One turn of the loop *)

Lemma elem_of_List_filter {A} (p : A -> bool) (l : list A) x :
  x ∈ List.filter p l <-> x ∈ l /\ p x = true.
Proof. rewrite !list_elem_of_In. apply filter_In. Qed.

Lemma NoDup_List_filter {A} (p : A -> bool) (l : list A) :
  NoDup l -> NoDup (List.filter p l).
Proof.
  induction 1 as [|x l Hx Hnd IH]; cbn [List.filter]; [constructor|].
  destruct (p x); [|assumption]. constructor; [|assumption].
  rewrite elem_of_List_filter. tauto.
Qed.

Lemma length_le_size (l : list addr) :
  NoDup l -> (forall c, c ∈ l -> c ∈ cells) -> (length l <= size cells)%nat.
Proof.
  intros Hnd Hsub.
  rewrite <- (size_list_to_set (C := gset addr) l Hnd).
  apply subseteq_size. intros c Hc. apply elem_of_list_to_set in Hc. auto.
Qed.

Lemma snoc_split {A} (l before after : list A) x c :
  l ++ [x] = before ++ c :: after ->
  (before = l /\ c = x /\ after = []) \/
  exists after', after = after' ++ [x] /\ l = before ++ c :: after'.
Proof.
  intros E. destruct after as [|a after] using rev_ind.
  - left. apply app_inj_tail in E as [-> ->]. auto.
  - right. exists after. clear IHafter.
    change (l ++ [x] = before ++ (c :: after) ++ [a]) in E.
    rewrite app_assoc in E. apply app_inj_tail in E as [-> ->]. auto.
Qed.

Lemma sort_inv_step deg x queue result :
  sort_inv g cells deg (x :: queue) result ->
  sort_inv g cells
    (foldl (release cells) (deg, queue)
           (elements (get_set (dependents g) x))).1
    (foldl (release cells) (deg, queue)
           (elements (get_set (dependents g) x))).2
    (result ++ [x]).
Proof.
  intros (Hnd & Hsub & Hdeg & Hpend & Hfirst).
  assert (Hx : x ∈ cells).
  { apply Hsub. apply elem_of_app. right. now left. }
  assert (Hxr : x ∉ result).
  { apply NoDup_app in Hnd as (_ & Hdis & _). intros Hin.
    apply (Hdis x Hin). now left. }
  destruct (release_fold (elements (get_set (dependents g) x))
              (NoDup_elements _) deg queue) as [Hq Hd].
  rewrite Hq.
  set (newly := List.filter
                  (fun y => bool_decide (y ∈ cells)
                            && (get_degree deg y - 1 =? 0))
                  (elements (get_set (dependents g) x))) in *.
  assert (Hnew : forall y, y ∈ newly <->
            y ∈ cells /\ x ∈ get_set (dependencies g) y
            /\ pending g cells result y = 1%nat).
  { intros y. unfold newly.
    rewrite elem_of_List_filter, elem_of_elements, andb_true_iff,
      bool_decide_eq_true, Z.eqb_eq, <- (Hg y x).
    split.
    - intros (Hy & Hc & Hz). rewrite (Hdeg y Hc) in Hz.
      split; [assumption|]. split; [assumption|]. lia.
    - intros (Hc & Hy & Hz). rewrite (Hdeg y Hc), Hz.
      split; [assumption|]. split; [assumption|]. lia. }
  assert (Hstep : forall y, pending g cells result y =
            (pending g cells (result ++ [x]) y
             + if decide (x ∈ get_set (dependencies g) y) then 1 else 0)%nat).
  { intros y. now apply pending_step. }
  assert (Hmem : forall c, c ∈ (result ++ [x]) ++ queue ++ newly <->
            c ∈ result ++ x :: queue \/ c ∈ newly).
  { intros c. rewrite !elem_of_app, !elem_of_cons.
    pose proof (not_elem_of_nil c). tauto. }
  split; [|split; [|split; [|split]]].
  - replace ((result ++ [x]) ++ queue ++ newly)
      with ((result ++ x :: queue) ++ newly)
      by (now rewrite <- !app_assoc).
    apply NoDup_app. split; [assumption|]. split.
    + intros y Hy Hy'. apply Hnew in Hy' as (Hc & _ & Hone).
      apply (Hpend y Hc) in Hy. lia.
    + apply NoDup_List_filter, NoDup_elements.
  - intros c Hc. apply Hmem in Hc as [Hc|Hc]; [now apply Hsub|].
    now apply Hnew in Hc as (Hc & _).
  - intros c Hc. rewrite Hd. rewrite (Hdeg c Hc), (Hstep c).
    rewrite (bool_decide_eq_true_2 _ Hc), andb_true_r.
    destruct (decide (x ∈ get_set (dependencies g) c)) as [Hy|Hy].
    + rewrite bool_decide_eq_true_2; [lia|].
      apply elem_of_elements. now apply Hg.
    + rewrite bool_decide_eq_false_2; [lia|].
      rewrite elem_of_elements. now rewrite <- (Hg c x).
  - intros c Hc. rewrite Hmem, Hnew, <- (Hpend c Hc).
    specialize (Hstep c).
    destruct (decide (x ∈ get_set (dependencies g) c)) as [Hy|Hy].
    + split; [intros Hz; right; repeat split; try assumption; lia|].
      intros [Hz|(_ & _ & Hz)]; lia.
    + split; [intros Hz; left; lia|].
      intros [Hz|(_ & Hy' & _)]; [lia|contradiction].
  - intros before c after E d Hd' Hdc.
    apply snoc_split in E as [(-> & -> & _)|(after' & _ & E)].
    + assert (Hz : pending g cells result x = 0%nat).
      { apply (Hpend x Hx). apply elem_of_app. right. now left. }
      now apply (proj1 (pending_zero result x) Hz).
    + now apply (Hfirst before c after' E).
Qed.

(** *** The loop and the sort *)

Lemma sort_loop_spec fuel : forall deg queue result,
  sort_inv g cells deg queue result ->
  (size cells < fuel + length result)%nat ->
  NoDup (sort_loop fuel g cells deg queue result) /\
  (forall c, c ∈ sort_loop fuel g cells deg queue result -> c ∈ cells) /\
  (forall c, c ∈ cells ->
     pending g cells (sort_loop fuel g cells deg queue result) c = 0%nat <->
     c ∈ sort_loop fuel g cells deg queue result) /\
  dependencies_first g cells (sort_loop fuel g cells deg queue result).
Proof.
  induction fuel as [|fuel IH]; intros deg queue result Hinv Hfuel.
  - exfalso. destruct Hinv as (Hnd & Hsub & _).
    apply NoDup_app in Hnd as (Hnd & _ & _).
    assert (length result <= size cells)%nat; [|lia].
    apply length_le_size; [assumption|].
    intros c Hc. apply Hsub, elem_of_app. now left.
  - destruct queue as [|x queue]; cbn [sort_loop].
    + destruct Hinv as (Hnd & Hsub & _ & Hpend & Hfirst).
      rewrite app_nil_r in *. auto.
    + pose proof (sort_inv_step deg x queue result Hinv) as Hstep.
      destruct (foldl (release cells) (deg, queue)
                      (elements (get_set (dependents g) x)))
        as [deg' queue'].
      apply IH; [exact Hstep|]. rewrite length_app. cbn [length]. lia.
Qed.

Lemma sort_inv_start :
  sort_inv g cells (in_degrees g cells)
    (List.filter (fun cell => get_degree (in_degrees g cells) cell =? 0)
                 (elements cells)) [].
Proof.
  split; [|split; [|split; [|split]]]; cbn [app].
  - apply NoDup_List_filter, NoDup_elements.
  - intros c Hc. apply elem_of_List_filter in Hc as [Hc _].
    now apply elem_of_elements.
  - intros c Hc. now apply in_degrees_spec.
  - intros c Hc. rewrite elem_of_List_filter, elem_of_elements, Z.eqb_eq,
      (in_degrees_spec c Hc). split; [intros ->; auto|lia].
  - intros before c after E. now destruct before.
Qed.

Lemma topological_sort_spec :
  NoDup (topological_sort g cells) /\
  (forall c, c ∈ topological_sort g cells -> c ∈ cells) /\
  (forall c, c ∈ cells ->
     pending g cells (topological_sort g cells) c = 0%nat <->
     c ∈ topological_sort g cells) /\
  dependencies_first g cells (topological_sort g cells).
Proof.
  unfold topological_sort. apply sort_loop_spec; [apply sort_inv_start|].
  cbn [length]. lia.
Qed.

(** Without a cycle among [cells] the order holds every cell of [cells]. *)
Lemma topological_sort_complete :
  acyclic_among g cells ->
  forall c, c ∈ cells -> c ∈ topological_sort g cells.
Proof.
  intros Hacyclic c Hc.
  destruct topological_sort_spec as (_ & _ & Hpend & _).
  set (order := topological_sort g cells) in *.
  assert (Hpart : cells ∖ list_to_set order = (∅ : gset addr)).
  { apply Hacyclic; [set_solver|].
    intros y Hy. apply elem_of_difference in Hy as [Hy Hn].
    rewrite elem_of_list_to_set in Hn.
    assert (Hp : pending g cells order y <> 0%nat).
    { intros Hz. apply Hn. now apply Hpend. }
    unfold pending in Hp.
    destruct (List.filter (waits_for cells order)
                (elements (get_set (dependencies g) y))) as [|d rest] eqn:E;
      [now elim Hp|].
    assert (Hd : d ∈ List.filter (waits_for cells order)
                   (elements (get_set (dependencies g) y))).
    { rewrite E. now left. }
    apply elem_of_List_filter in Hd as [Hd Hw].
    apply waits_for_spec in Hw as [Hdc Hdn].
    exists d. split; [now apply elem_of_elements|].
    apply elem_of_difference. split; [assumption|].
    now rewrite elem_of_list_to_set. }
  destruct (decide (c ∈ order)) as [|Hn]; [assumption|].
  exfalso. apply (not_elem_of_empty (C := gset addr) c).
  rewrite <- Hpart. apply elem_of_difference. split; [assumption|].
  now rewrite elem_of_list_to_set.
Qed.

(** Conversely, an order that puts dependencies first holds no cell of a
    part in which every cell reads another cell of the part. *)
Lemma ordered_cells_outside (part : gset addr) (order : list addr) :
  part ⊆ cells ->
  (forall c, c ∈ part ->
     exists d, d ∈ get_set (dependencies g) c /\ d ∈ part) ->
  dependencies_first g cells order ->
  forall c, c ∈ order -> c ∉ part.
Proof.
  intros Hsub Hpart.
  induction order as [|x l IH] using rev_ind; intros Hfirst c Hc.
  - now apply elem_of_nil in Hc.
  - assert (Hl : forall c, c ∈ l -> c ∉ part).
    { apply IH. intros before c' after E d Hd Hdc.
      apply (Hfirst before c' (after ++ [x])); [|assumption..].
      rewrite E, <- app_assoc. reflexivity. }
    apply elem_of_app in Hc as [Hc|Hc]; [now apply Hl|].
    apply list_elem_of_singleton in Hc as ->. intros Hx.
    destruct (Hpart x Hx) as (d & Hd & Hdp).
    apply (Hl d); [|assumption].
    apply (Hfirst l x [] eq_refl d Hd). now apply Hsub.
Qed.

Lemma complete_order_acyclic :
  (forall c, c ∈ cells -> c ∈ topological_sort g cells) ->
  acyclic_among g cells.
Proof.
  intros Hall part Hsub Hpart.
  destruct topological_sort_spec as (_ & _ & _ & Hfirst).
  apply set_eq. intros c. split; [|set_solver].
  intros Hc. exfalso.
  apply (ordered_cells_outside part (topological_sort g cells)
           Hsub Hpart Hfirst c); [|assumption].
  apply Hall. now apply Hsub.
Qed.

(** A test of [acyclic_among] by running the sort. *)
Lemma acyclic_by_sort :
  forallb (fun c => bool_decide (c ∈ topological_sort g cells))
          (elements cells) = true ->
  acyclic_among g cells.
Proof.
  intros Hall. apply complete_order_acyclic. intros c Hc.
  rewrite forallb_forall in Hall.
  apply elem_of_elements, list_elem_of_In in Hc. apply Hall in Hc.
  now apply bool_decide_eq_true in Hc.
Qed.

End Sort.

End SortFacts.

(** ** Recalculation in the order of the sort *)

Module RecalcFacts.
Import Py Model Formula Engine CycleFacts.

(** Induction on a syntax tree, with the arguments of a call. *)
Lemma ASTNode_all (P : ASTNode -> Prop) :
  (forall v, P (NumberNode v)) ->
  (forall v, P (StringNode v)) ->
  (forall row col, P (CellRefNode row col)) ->
  (forall cells, P (RangeNode cells)) ->
  (forall lhs op rhs, P lhs -> P rhs -> P (BinaryOpNode lhs op rhs)) ->
  (forall op operand, P operand -> P (UnaryOpNode op operand)) ->
  (forall name args, Forall P args -> P (FunctionNode name args)) ->
  forall ast, P ast.
Proof.
  intros Hn Hs Hc Hr Hb Hu Hf. fix IH 1. intros [v|v|row col|cells|lhs op rhs|op operand|name args].
  - apply Hn.
  - apply Hs.
  - apply Hc.
  - apply Hr.
  - apply Hb; apply IH.
  - apply Hu; apply IH.
  - apply Hf. induction args as [|a args IHargs]; constructor;
      [apply IH|exact IHargs].
Qed.

Section Locality.
Context `{Runtime}.
Variables f1 f2 : Z -> Z -> result pyval.

(** The value of a formula depends only on the cells it mentions. *)
Lemma evaluate_node_local ast :
  (forall row col, (row, col) ∈ extract_dependencies_from_ast ast ->
     f1 row col = f2 row col) ->
  _evaluate_node f1 ast = _evaluate_node f2 ast.
Proof.
  induction ast as [v|v|row col|cells|lhs op rhs IHl IHr|op operand IH|name args IH]
    using ASTNode_all; intros Hsame; cbn [_evaluate_node].
  - reflexivity.
  - reflexivity.
  - unfold read_cell_ref. rewrite Hsame; [reflexivity|].
    cbn [extract_dependencies_from_ast]. set_solver.
  - unfold read_range. do 3 f_equal. apply map_ext_in.
    intros [row col] Hin. rewrite Hsame; [reflexivity|].
    cbn [extract_dependencies_from_ast]. apply elem_of_list_to_set.
    now apply list_elem_of_In.
  - cbn [extract_dependencies_from_ast] in Hsame.
    rewrite IHl, IHr; [reflexivity| |]; intros row col Hin; apply Hsame;
      set_solver.
  - cbn [extract_dependencies_from_ast] in Hsame. now rewrite IH.
  - destruct (functions (upper_str name)); [|reflexivity].
    cbn [extract_dependencies_from_ast] in Hsame.
    match goal with
    | |- mbind _ ?l = mbind _ ?r => assert (Hargs : l = r)
    end; [|now rewrite Hargs].
    induction IH as [|a args Ha _ IHargs]; [reflexivity|].
    rewrite Ha, IHargs; [reflexivity| |]; intros row col Hin; apply Hsame;
      set_solver.
Qed.

Lemma evaluate_local ast :
  (forall row col, (row, col) ∈ extract_dependencies_from_ast ast ->
     f1 row col = f2 row col) ->
  evaluate f1 ast = evaluate f2 ast.
Proof. intros Hsame. unfold evaluate. now rewrite evaluate_node_local. Qed.

End Locality.

Section Recalc.
Context `{Runtime}.
Variable g : DependencyGraph.

Lemma get_cell_fst s pos :
  fst (get_cell s (fst pos) (snd pos)) = default empty_cell (cells s !! pos).
Proof.
  destruct pos as [row col]. unfold get_cell. simpl.
  now destruct (cells s !! (row, col)).
Qed.

(** [_calculate_cell] writes one cell only. *)
Lemma calculate_other s pos pos' :
  pos <> pos' -> cells (_calculate_cell g s pos) !! pos' = cells s !! pos'.
Proof.
  intros Hne. unfold _calculate_cell.
  repeat match goal with
         | |- context [if ?b then _ else _] => destruct b
         | |- context [match ast_cache g !! pos with _ => _ end] =>
             destruct (ast_cache g !! pos)
         end;
    rewrite !update_cell_other by assumption; reflexivity.
Qed.

(** What it writes there. *)
Lemma calculate_same s pos :
  exists c,
    cells (_calculate_cell g s pos) !! pos = Some c /\
    raw c = raw (default empty_cell (cells s !! pos)) /\
    Model.value c = normal_value g (update_cell s pos (set_error None)) pos /\
    error c = normal_error g (update_cell s pos (set_error None)) pos.
Proof.
  unfold _calculate_cell, normal_error, normal_value.
  rewrite get_cell_fst.
  set (s1 := update_cell s pos (set_error None)).
  assert (Hs1 : cells s1 !! pos
                = Some (set_error None (default empty_cell (cells s !! pos)))).
  { apply update_cell_same. }
  set (cell := set_error None (default empty_cell (cells s !! pos))).
  assert (Hd : default empty_cell (cells s1 !! pos) = cell).
  { now rewrite Hs1. }
  rewrite Hd.
  destruct (is_formula cell) eqn:Hformula; cbn [negb].
  - destruct (ast_cache g !! pos) as [ast|].
    + set (result := evaluate _ ast).
      destruct (is_error result) eqn:Herr.
      * eexists. rewrite update_cell_same, Hd.
        split; [reflexivity|]. split; [reflexivity|]. split; [reflexivity|].
        cbn [error set_value set_error].
        destruct result as [| | | |e|]; try discriminate. now rewrite Herr.
      * eexists. rewrite update_cell_same, Hd.
        split; [reflexivity|]. split; [reflexivity|]. split; [reflexivity|].
        cbn [error set_value set_error cell].
        destruct result as [| | | |e|]; try reflexivity. now rewrite Herr.
    + eexists. rewrite update_cell_same, Hd. repeat split.
  - eexists. rewrite update_cell_same, Hd. repeat split.
Qed.

(** The normal value of a cell depends on its text and on the values of
    the cells that its formula mentions. *)
Lemma normal_frame s s' pos :
  raw (default empty_cell (cells s !! pos))
    = raw (default empty_cell (cells s' !! pos)) ->
  (forall ast, ast_cache g !! pos = Some ast ->
     forall p, p ∈ extract_dependencies_from_ast ast ->
       cells s !! p = cells s' !! p) ->
  normal_value g s pos = normal_value g s' pos /\
  normal_error g s pos = normal_error g s' pos.
Proof.
  intros Hraw Hdeps.
  assert (Hv : normal_value g s pos = normal_value g s' pos).
  { unfold normal_value, is_formula. rewrite Hraw.
    destruct (negb _); [reflexivity|].
    destruct (ast_cache g !! pos) as [ast|] eqn:Hast; [|reflexivity].
    apply evaluate_local. intros row col Hin. f_equal.
    unfold _get_cell_value. now rewrite (Hdeps ast eq_refl (row, col) Hin). }
  split; [exact Hv|].
  unfold normal_error, is_formula. now rewrite Hraw, Hv.
Qed.

(** Calculating the cells in an order that puts dependencies first leaves
    every cell of the order with its normal value on the final sheet. *)
Lemma recalc_fold (dirty : gset addr) (order : list addr) :
  cache_coherent g ->
  forall s,
  NoDup order ->
  dependencies_first g dirty order ->
  (forall c, c ∈ order -> c ∈ dirty) ->
  (forall pos, pos ∉ order ->
     cells (foldl (_calculate_cell g) s order) !! pos = cells s !! pos) /\
  (forall pos,
     raw (default empty_cell (cells (foldl (_calculate_cell g) s order) !! pos))
     = raw (default empty_cell (cells s !! pos))) /\
  (forall x, x ∈ order -> recomputed g (foldl (_calculate_cell g) s order) x).
Proof.
  intros Hcache s.
  induction order as [|x l IH] using rev_ind; intros Hnd Hfirst Hsub.
  - cbn [foldl]. split; [auto|]. split; [auto|].
    intros x Hx. now apply elem_of_nil in Hx.
  - rewrite foldl_app. cbn [foldl].
    apply NoDup_app in Hnd as (Hnd & Hdis & _).
    assert (Hxl : x ∉ l).
    { intros Hin. apply (Hdis x Hin). now left. }
    assert (Hfirst' : dependencies_first g dirty l).
    { intros before c after E d Hd Hdc.
      apply (Hfirst before c (after ++ [x])); [|assumption..].
      rewrite E, <- app_assoc. reflexivity. }
    destruct IH as (IHother & IHraw & IHdone); [assumption..| |].
    { intros c Hc. apply Hsub, elem_of_app. now left. }
    set (sl := foldl (_calculate_cell g) s l) in *.
    destruct (calculate_same sl x) as (cx & Hcx & Hrawx & Hvalx & Herrx).
    assert (Hself : forall ast, ast_cache g !! x = Some ast ->
                      x ∉ extract_dependencies_from_ast ast).
    { intros ast Hast Hin. apply Hxl.
      apply (Hfirst l x [] eq_refl x).
      - now apply (Hcache x ast Hast).
      - apply Hsub, elem_of_app. right. now left. }
    assert (Hraw' : forall pos,
      raw (default empty_cell (cells (_calculate_cell g sl x) !! pos))
      = raw (default empty_cell (cells sl !! pos))).
    { intros pos. destruct (decide (x = pos)) as [<-|Hne].
      - now rewrite Hcx.
      - now rewrite calculate_other. }
    split; [|split].
    + intros pos Hpos. rewrite calculate_other.
      * apply IHother. intros Hin. apply Hpos, elem_of_app. now left.
      * intros ->. apply Hpos, elem_of_app. right. now left.
    + intros pos. now rewrite Hraw', IHraw.
    + intros y Hy. apply elem_of_app in Hy as [Hy|Hy].
      * destruct (IHdone y Hy) as (cy & Hcy & Hvaly & Herry).
        assert (Hne : x <> y) by congruence.
        destruct (normal_frame (_calculate_cell g sl x) sl y) as [Hv He].
        { apply Hraw'. }
        { intros ast Hast p Hp. apply calculate_other. intros <-.
          apply Hxl. apply list_elem_of_split in Hy as (l1 & l2 & ->).
          apply elem_of_app. left.
          apply (Hfirst l1 y (l2 ++ [x])).
          - now rewrite <- app_assoc.
          - now apply (Hcache y ast Hast).
          - apply Hsub, elem_of_app. right. now left. }
        exists cy. rewrite calculate_other by assumption.
        rewrite Hv, He. auto.
      * apply list_elem_of_singleton in Hy as ->.
        destruct (normal_frame (_calculate_cell g sl x)
                    (update_cell sl x (set_error None)) x) as [Hv He].
        { rewrite Hcx, update_cell_same. simpl. exact Hrawx. }
        { intros ast Hast p Hp.
          assert (Hne : x <> p).
          { intros <-. now apply (Hself ast Hast). }
          now rewrite calculate_other, update_cell_other. }
        exists cx. rewrite Hv, He. auto.
Qed.

End Recalc.

End RecalcFacts.

(** ** The engine between two edits *)

Module EngineFacts.
Import Py Model Formula Engine GraphFacts CycleFacts.

(** *** The graph after an edit *)

Lemma install_consistent g pos ast :
  consistent g -> consistent (install_formula g pos ast).
Proof.
  intros Hg. unfold install_formula.
  assert (Hstart : consistent
            (mkGraph (dependents g) (dependencies g)
                     (<[pos := ast]> (ast_cache g)))) by exact Hg.
  revert Hstart.
  generalize (mkGraph (dependents g) (dependencies g)
                      (<[pos := ast]> (ast_cache g))).
  induction (elements (extract_dependencies_from_ast ast)) as [|d l IH];
    intros g0 Hg0; cbn [foldl]; [assumption|].
  apply IH. now apply add_consistent.
Qed.

Lemma clear_coherent g pos :
  cache_coherent g -> cache_coherent (clear_dependencies g pos).
Proof.
  intros Hg pos' ast Hast. rewrite clear_dependencies_of.
  unfold clear_dependencies in Hast. cbn [ast_cache] in Hast.
  apply lookup_delete_Some in Hast as [Hne Hast].
  rewrite decide_False by assumption. now apply Hg.
Qed.

Lemma install_coherent g pos ast :
  cache_coherent g -> cache_coherent (install_formula g pos ast).
Proof.
  intros Hg pos' ast' Hast. unfold install_formula in *.
  rewrite add_all_cache in Hast. cbn [ast_cache] in Hast.
  rewrite add_all_dependencies. cbn [dependencies].
  destruct (decide (pos = pos')) as [<-|Hne].
  - rewrite lookup_insert_eq in Hast. injection Hast as <-.
    intros d Hd. apply elem_of_union_l, elem_of_list_to_set.
    now apply elem_of_elements.
  - rewrite lookup_insert_ne in Hast by assumption. now apply Hg.
Qed.



(** *** Along a cycle *)




Section Engine.
Context `{Runtime}.

(** *** The recalculation *)

Lemma recalculate_graph e :
  dependency_graph (recalculate e) = dependency_graph e.
Proof. unfold recalculate. now destruct (_ || _). Qed.

Lemma recalculate_rest e :
  calculating e = false ->
  calculating (recalculate e) = false /\ dirty_cells (recalculate e) = ∅.
Proof.
  intros Hc. unfold recalculate. rewrite Hc. cbn [orb].
  destruct (bool_decide (dirty_cells e = ∅)) eqn:Hd; [|now split].
  split; [assumption|]. now apply bool_decide_eq_true in Hd.
Qed.

Lemma finish_edit_rest e pos :
  calculating e = false ->
  dependency_graph (finish_edit e pos) = dependency_graph e /\
  calculating (finish_edit e pos) = false /\
  dirty_cells (finish_edit e pos) = ∅.
Proof.
  intros Hc. unfold finish_edit. cbv zeta.
  change (calculating (mark_dirty e pos)) with (calculating e).
  rewrite Hc. cbn [negb]. rewrite recalculate_graph.
  split; [reflexivity|]. now apply recalculate_rest.
Qed.

(** *** What every edit keeps *)

Lemma edit_ok e row col text :
  engine_ok e -> engine_ok (edit e row col text).
Proof.
  intros (Hg & Hcache & Hcalc & Hdirty).
  unfold edit, set_cell_formula. cbv zeta.
  set (e0 := with_model (set_cell_raw (model e) row col text).1 e).
  set (g1 := clear_dependencies (dependency_graph e0) (row, col)).
  assert (Hg1 : consistent g1) by now apply clear_consistent.
  assert (Hc1 : cache_coherent g1) by now apply clear_coherent.
  destruct (starts_with_eq text).
  - destruct (parse_formula text) as [ast|err].
    + cbn [dependency_graph with_graph].
      set (g2 := install_formula g1 (row, col) ast).
      assert (Hg2 : consistent g2) by now apply install_consistent.
      assert (Hc2 : cache_coherent g2) by now apply install_coherent.
      destruct (find_cycles g2 (row, col)) as [|x cyc].
      * destruct (finish_edit_rest (with_graph g2 (with_graph g1 e0)) (row, col))
          as (Hgraph & Hc & Hd); [exact Hcalc|].
        unfold engine_ok. rewrite Hgraph. auto.
      * unfold engine_ok. cbn. auto.
    + unfold engine_ok. cbn. auto.
  - destruct (finish_edit_rest (with_graph g1 e0) (row, col))
      as (Hgraph & Hc & Hd); [exact Hcalc|].
    unfold engine_ok. rewrite Hgraph. auto.
Qed.

Lemma reachable_ok e : engine_reachable e -> engine_ok e.
Proof.
  induction 1 as [m _|e row col text _ _ IH].
  - split; [apply new_graph_consistent|]. split; [|split; reflexivity].
    intros pos ast Hast. cbn in Hast. now rewrite lookup_empty in Hast.
  - now apply edit_ok.
Qed.

(** *** Recalculating after an edit *)


End Engine.

End EngineFacts.

(** ** Cycles are reported and can be broken *)

Module CycleRecovery.
Import Py Model Formula Engine GraphFacts CycleFacts EngineFacts.

Section Engine.
Context `{Runtime}.

(** *** The scenarios *)





(** *** An edit that goes on to the recalculation *)




End Engine.

#[local] Existing Instance unused_runtime.


End CycleRecovery.

(** ** Further properties of the dependency graph and the engine *)

Module EngineProperties.
Import Py Model Formula Engine GraphFacts CycleFacts EngineFacts.

(** [find_cycles] raises no false alarm: what it returns is empty, or a
    list of cells in which each is a dependent of the one before and the
    first is a dependent of the last. *)
Theorem find_cycles_reports_cycles g start :
  find_cycles g start = [] \/ is_cycle (dependents g) (find_cycles g start).
Proof. apply SearchFacts.find_cycles_sound. Qed.

(** On a graph whose two maps mirror each other, [topological_sort]
    returns cells of the given set only, each once, and each after the
    cells of the set that it depends on. *)
Theorem topological_sort_is_ordered g cells :
  consistent g ->
  NoDup (topological_sort g cells) /\
  (forall c, c ∈ topological_sort g cells -> c ∈ cells) /\
  dependencies_first g cells (topological_sort g cells).
Proof.
  intros Hg.
  destruct (SortFacts.topological_sort_spec g cells Hg)
    as (Hnd & Hsub & _ & Hfirst).
  auto.
Qed.

Lemma topological_sort_is_ordered_witness :
  NoDup (topological_sort
           (add_dependency (add_dependency new_graph (0, 1) (0, 0))
                           (0, 2) (0, 1))
           {[(0, 0); (0, 1); (0, 2)]}) /\
  dependencies_first
    (add_dependency (add_dependency new_graph (0, 1) (0, 0)) (0, 2) (0, 1))
    {[(0, 0); (0, 1); (0, 2)]}
    (topological_sort
       (add_dependency (add_dependency new_graph (0, 1) (0, 0)) (0, 2) (0, 1))
       {[(0, 0); (0, 1); (0, 2)]}).
Proof.
  destruct (topological_sort_is_ordered
              (add_dependency (add_dependency new_graph (0, 1) (0, 0))
                              (0, 2) (0, 1))
              {[(0, 0); (0, 1); (0, 2)]}) as (Hnd & _ & Hfirst).
  - do 2 apply add_consistent. apply new_graph_consistent.
  - split; assumption.
Defined.

(** [topological_sort] leaves out exactly the cells that a cycle holds
    back: it returns every cell of the set if and only if no part of the
    set is such that each of its cells depends on another cell of it. *)
Theorem topological_sort_leaves_out_cycles g cells :
  consistent g ->
  (acyclic_among g cells <->
   forall c, c ∈ cells -> c ∈ topological_sort g cells).
Proof.
  intros Hg. split.
  - apply SortFacts.topological_sort_complete, Hg.
  - apply SortFacts.complete_order_acyclic, Hg.
Qed.

Lemma topological_sort_leaves_out_cycles_witness :
  topological_sort
    (add_dependency (add_dependency new_graph (0, 0) (0, 1)) (0, 1) (0, 0))
    {[(0, 0); (0, 1)]} = [] /\
  ~ acyclic_among
      (add_dependency (add_dependency new_graph (0, 0) (0, 1)) (0, 1) (0, 0))
      {[(0, 0); (0, 1)]}.
Proof.
  assert (Hsort : topological_sort
            (add_dependency (add_dependency new_graph (0, 0) (0, 1))
                            (0, 1) (0, 0))
            {[(0, 0); (0, 1)]} = []).
  { vm_compute. reflexivity. }
  split; [exact Hsort|].
  intros Hacyclic.
  apply (topological_sort_leaves_out_cycles
           (add_dependency (add_dependency new_graph (0, 0) (0, 1))
                           (0, 1) (0, 0))
           {[(0, 0); (0, 1)]}) with (c := (0, 0)) in Hacyclic.
  - rewrite Hsort in Hacyclic. now apply elem_of_nil in Hacyclic.
  - do 2 apply add_consistent. apply new_graph_consistent.
  - apply elem_of_union_l. now apply elem_of_singleton.
Defined.

(** *** [mark_dirty] *)

Section Mark.
Variable g : DependencyGraph.
Variable start : addr.

Lemma mark_loop_within fuel : forall to_mark marked dirty x,
  (forall y, y ∈ to_mark -> rtc (edge (dependents g)) start y) ->
  x ∈ mark_loop fuel g to_mark marked dirty ->
  x ∈ dirty \/ rtc (edge (dependents g)) start x.
Proof.
  induction fuel as [|k IH]; intros to_mark marked dirty x Hreach Hx;
    [now left|].
  cbn [mark_loop] in Hx.
  destruct (elements to_mark) as [|current rest] eqn:Hel; [now left|].
  assert (Hcur : current ∈ to_mark).
  { apply elem_of_elements. rewrite Hel. now left. }
  destruct (decide (current ∈ marked)).
  - apply IH in Hx; [exact Hx|].
    intros y Hy. apply Hreach. set_solver.
  - apply IH in Hx.
    + destruct Hx as [Hx|Hx]; [|now right].
      apply elem_of_union in Hx as [Hx|Hx]; [|now left].
      apply elem_of_singleton in Hx as ->. right. now apply Hreach.
    + intros y Hy. apply elem_of_union in Hy as [Hy|Hy].
      * apply Hreach. set_solver.
      * eapply rtc_r; [apply Hreach, Hcur|exact Hy].
Qed.

End Mark.

(** [mark_dirty] adds to the dirty set the cell and the cells that depend
    on it, directly or through other cells, and nothing else. *)
Theorem mark_dirty_marks_dependents e cell x :
  x ∈ dirty_cells (mark_dirty e cell) <->
  x ∈ dirty_cells e \/
  rtc (edge (dependents (dependency_graph e))) cell x.
Proof.
  unfold mark_dirty. cbn [dirty_cells]. split.
  - apply mark_loop_within. intros y Hy.
    apply elem_of_singleton in Hy as ->. apply rtc_refl.
  - intros [Hx|Hx].
    + now apply (MarkFacts.mark_loop_keeps (dependency_graph e) cell).
    + now apply MarkFacts.mark_loop_reaches.
Qed.

(** *** [clear_dependencies] *)

(** On a graph whose two maps mirror each other, [clear_dependencies]
    leaves the cell without dependencies, without a cached formula and
    among the dependents of no cell; the dependencies and the cached
    formulas of the other cells, and their places among the dependents,
    are kept. *)
Theorem clear_dependencies_forgets g cell :
  consistent g ->
  get_dependencies (clear_dependencies g cell) cell = ∅ /\
  (forall d, cell ∉ get_dependents (clear_dependencies g cell) d) /\
  ast_cache (clear_dependencies g cell) !! cell = None /\
  (forall c, c <> cell ->
     get_dependencies (clear_dependencies g cell) c = get_dependencies g c /\
     ast_cache (clear_dependencies g cell) !! c = ast_cache g !! c) /\
  (forall d x, x <> cell ->
     x ∈ get_dependents (clear_dependencies g cell) d <->
     x ∈ get_dependents g d).
Proof.
  intros Hg. unfold get_dependencies, get_dependents.
  split; [|split; [|split; [|split]]].
  - rewrite clear_dependencies_of. now rewrite decide_True.
  - intros d. rewrite clear_dependents.
    destruct (decide (d ∈ get_set (dependencies g) cell)) as [Hd|Hd].
    + set_solver.
    + intros Hin. apply Hd. now apply Hg.
  - unfold clear_dependencies. cbn [ast_cache]. apply lookup_delete_eq.
  - intros c Hc. split.
    + rewrite clear_dependencies_of. now rewrite decide_False.
    + unfold clear_dependencies. cbn [ast_cache].
      now rewrite lookup_delete_ne.
  - intros d x Hx. rewrite clear_dependents.
    destruct (decide (d ∈ get_set (dependencies g) cell)); set_solver.
Qed.

Lemma clear_dependencies_forgets_witness :
  get_dependencies
    (clear_dependencies
       (add_dependency (add_dependency new_graph (0, 1) (0, 0)) (0, 2) (0, 0))
       (0, 1)) (0, 1) = ∅ /\
  (0, 2) ∈ get_dependents
             (clear_dependencies
                (add_dependency (add_dependency new_graph (0, 1) (0, 0))
                                (0, 2) (0, 0))
                (0, 1)) (0, 0).
Proof.
  destruct (clear_dependencies_forgets
              (add_dependency (add_dependency new_graph (0, 1) (0, 0))
                              (0, 2) (0, 0)) (0, 1))
    as (Hnone & _ & _ & _ & Hkept).
  - do 2 apply add_consistent. apply new_graph_consistent.
  - split; [exact Hnone|]. apply Hkept; [discriminate|].
    apply (bool_decide_unpack _). vm_compute. exact I.
Defined.

(** A test of [ascii_sheet] on the cells of the sheet. *)
Lemma ascii_sheet_by_cells s :
  forallb (fun kc : addr * Cell => ascii_cell kc.2) (map_to_list (cells s))
    = true ->
  ascii_sheet s.
Proof.
  intros Hall pos c Hc. rewrite forallb_forall in Hall.
  apply (Hall (pos, c)). apply list_elem_of_In.
  now apply elem_of_map_to_list.
Qed.

Section Engine.
Context `{Runtime}.

(** *** The value of a formula *)

(** The value of a formula depends on the sheet only through the cells
    that [extract_dependencies_from_ast] finds in it: two ways of reading
    cells that agree on those give the same value. *)
Theorem formula_reads_only_its_references f1 f2 ast :
  (forall row col, (row, col) ∈ extract_dependencies_from_ast ast ->
     f1 row col = f2 row col) ->
  evaluate f1 ast = evaluate f2 ast.
Proof. apply RecalcFacts.evaluate_local. Qed.

(** *** [_calculate_cell] *)

(** On an ASCII sheet [_calculate_cell] writes the cell it is given and
    no other: that cell is stored afterwards, with the text it had, no
    error left from before, and the literal of its text or the value of its
    cached formula; a formula without a cached syntax tree gives
    [#ERROR!]. *)
Theorem calculate_cell_writes_its_cell g s pos :
  ascii_sheet s ->
  (forall pos', pos' <> pos ->
     cells (_calculate_cell g s pos) !! pos' = cells s !! pos') /\
  (exists c,
     cells (_calculate_cell g s pos) !! pos = Some c /\
     raw c = raw (default empty_cell (cells s !! pos)) /\
     Model.value c
       = normal_value g (update_cell s pos (set_error None)) pos /\
     error c = normal_error g (update_cell s pos (set_error None)) pos) /\
  (is_formula (default empty_cell (cells s !! pos)) = true ->
   ast_cache g !! pos = None ->
   exists c, cells (_calculate_cell g s pos) !! pos = Some c /\
             Model.value c = PStr "#ERROR!" /\ error c = Some "#ERROR!").
Proof.
  intros _. split; [|split].
  - intros pos' Hne. apply RecalcFacts.calculate_other. congruence.
  - apply RecalcFacts.calculate_same.
  - intros Hformula Hcache.
    destruct (RecalcFacts.calculate_same g s pos) as (c & Hc & _ & Hv & He).
    exists c. split; [exact Hc|].
    unfold normal_error, normal_value in *.
    rewrite update_cell_same in Hv, He. cbn [default] in Hv, He.
    change (is_formula (id (set_error None (default empty_cell (cells s !! pos)))))
      with (is_formula (default empty_cell (cells s !! pos))) in Hv, He.
    rewrite Hformula, Hcache in Hv, He. cbn in Hv, He. auto.
Qed.

End Engine.

Lemma formula_reads_only_its_references_witness :
  evaluate (H := unused_runtime)
    (fun row col => if (row =? 0) && (col =? 0) then Ok (PFloat 2)
                    else Ok (PStr "x"))
    (BinaryOpNode (CellRefNode 0 0) "+" (NumberNode 1)) =
  evaluate (H := unused_runtime)
    (fun row col => if (row =? 0) && (col =? 0) then Ok (PFloat 2)
                    else Raise ValueError)
    (BinaryOpNode (CellRefNode 0 0) "+" (NumberNode 1)).
Proof.
  apply (formula_reads_only_its_references (H := unused_runtime)).
  intros row col Hin. cbn in Hin.
  apply elem_of_union in Hin as [Hin|Hin]; [|now apply elem_of_empty in Hin].
  apply elem_of_singleton in Hin. injection Hin as -> ->. reflexivity.
Defined.

Lemma calculate_cell_writes_its_cell_witness :
  cells (_calculate_cell (H := unused_runtime) new_graph
           (set_cell new_sheet 0 0 "5" None None) (0, 0)) !! (1, 1) = None /\
  exists c,
    cells (_calculate_cell (H := unused_runtime) new_graph
             (set_cell new_sheet 0 1 "=A1" None None) (0, 1)) !! (0, 1)
      = Some c /\
    Model.value c = PStr "#ERROR!" /\ error c = Some "#ERROR!".
Proof.
  split.
  - destruct (calculate_cell_writes_its_cell (H := unused_runtime) new_graph
                (set_cell new_sheet 0 0 "5" None None) (0, 0)) as (Hother & _).
    + apply ascii_sheet_by_cells. vm_compute. reflexivity.
    + rewrite Hother by discriminate. reflexivity.
  - destruct (calculate_cell_writes_its_cell (H := unused_runtime) new_graph
                (set_cell new_sheet 0 1 "=A1" None None) (0, 1))
      as (_ & _ & Hnone).
    + apply ascii_sheet_by_cells. vm_compute. reflexivity.
    + apply Hnone; reflexivity.
Defined.

Section Edits.
Context `{Runtime}.

Lemma mark_cycles_other cycles : forall s pos,
  pos ∉ cycles -> cells (foldl mark_cycle s cycles) !! pos = cells s !! pos.
Proof.
  induction cycles as [|x cycles IH]; intros s pos Hpos; cbn [foldl];
    [reflexivity|].
  rewrite IH by (intros Hin; apply Hpos; now right).
  unfold mark_cycle. apply update_cell_other.
  intros ->. apply Hpos. now left.
Qed.

(** *** [set_cell_formula] *)

(** When [set_cell_formula] finds a cycle it recalculates nothing: the
    cells outside the detected cycle are left as they were, also the
    dependents of the edited cell, and the dirty set and the
    [calculating] flag are unchanged. *)
Theorem reported_cycle_recalculates_nothing e row col formula ast :
  PyStr.ascii_text (list_ascii_of_string formula) = true ->
  starts_with_eq formula = true ->
  parse_formula formula = Ok ast ->
  find_cycles
    (install_formula (clear_dependencies (dependency_graph e) (row, col))
                     (row, col) ast) (row, col) <> [] ->
  (forall pos,
     pos ∉ find_cycles
             (install_formula
                (clear_dependencies (dependency_graph e) (row, col))
                (row, col) ast) (row, col) ->
     cells (sheet (model (set_cell_formula e row col formula))) !! pos
       = cells (sheet (model e)) !! pos) /\
  dirty_cells (set_cell_formula e row col formula) = dirty_cells e /\
  calculating (set_cell_formula e row col formula) = calculating e.
Proof.
  intros _ Heq Hparse Hcyc. unfold set_cell_formula.
  rewrite Heq, Hparse. cbn [dependency_graph with_graph].
  destruct (find_cycles _ (row, col)) as [|x cyc] eqn:Hfind; [congruence|].
  split; [|split; reflexivity].
  intros pos Hpos. cbn [model sheet with_model with_sheet with_graph].
  now apply mark_cycles_other.
Qed.

(** A formula that does not parse leaves [#ERROR!] as the value and the
    error of its cell, with the text the cell had; the cell loses its
    dependencies and its cached formula, no other cell changes, the cells
    that depend on it still do, and nothing is marked dirty. *)
Theorem unparsable_formula_marks_its_cell e row col formula err :
  PyStr.ascii_text (list_ascii_of_string formula) = true ->
  starts_with_eq formula = true ->
  parse_formula formula = Raise err ->
  err <> FuelExhausted ->
  (exists c,
     cells (sheet (model (set_cell_formula e row col formula))) !! (row, col)
       = Some c /\
     Model.value c = PStr "#ERROR!" /\ error c = Some "#ERROR!" /\
     raw c = raw (default empty_cell (cells (sheet (model e)) !! (row, col)))) /\
  (forall pos, pos <> (row, col) ->
     cells (sheet (model (set_cell_formula e row col formula))) !! pos
       = cells (sheet (model e)) !! pos) /\
  dependency_graph (set_cell_formula e row col formula)
    = clear_dependencies (dependency_graph e) (row, col) /\
  (forall x, x <> (row, col) ->
     x ∈ get_dependents (dependency_graph (set_cell_formula e row col formula))
           (row, col) <->
     x ∈ get_dependents (dependency_graph e) (row, col)) /\
  dirty_cells (set_cell_formula e row col formula) = dirty_cells e.
Proof.
  intros _ Heq Hparse _. unfold set_cell_formula.
  rewrite Heq, Hparse.
  cbn [dependency_graph dirty_cells model sheet with_model with_sheet
       with_graph].
  split; [|split; [|split; [reflexivity|split; [|reflexivity]]]].
  - eexists. rewrite update_cell_same. split; [reflexivity|].
    split; [reflexivity|]. split; reflexivity.
  - intros pos Hne. apply update_cell_other. congruence.
  - intros x Hx. unfold get_dependents. rewrite clear_dependents.
    destruct (decide _); set_solver.
Qed.

(** *** [recalculate] *)

(** On an ASCII sheet, with the [calculating] flag down, on a graph whose
    maps mirror each other and whose cached formulas read recorded
    dependencies only, and with no cycle among the dirty cells,
    [recalculate] leaves every dirty cell with the value of its content on
    the final sheet, touches no other cell, empties the dirty set and keeps
    the graph. *)
Theorem recalculate_recomputes_dirty_cells e :
  ascii_sheet (sheet (model e)) ->
  calculating e = false ->
  consistent (dependency_graph e) ->
  cache_coherent (dependency_graph e) ->
  acyclic_among (dependency_graph e) (dirty_cells e) ->
  (forall x, x ∈ dirty_cells e ->
     recomputed (dependency_graph e) (sheet (model (recalculate e))) x) /\
  (forall x, x ∉ dirty_cells e ->
     cells (sheet (model (recalculate e))) !! x
       = cells (sheet (model e)) !! x) /\
  dirty_cells (recalculate e) = ∅ /\
  calculating (recalculate e) = false /\
  dependency_graph (recalculate e) = dependency_graph e.
Proof.
  intros _ Hcalc Hg Hcache Hacyclic.
  destruct (recalculate_rest e Hcalc) as (Hc' & Hd').
  split; [|split; [|split; [exact Hd'|split; [exact Hc'|]]]];
    [| |apply recalculate_graph].
  - intros x Hx. unfold recalculate. rewrite Hcalc. cbn [orb].
    rewrite bool_decide_eq_false_2 by set_solver.
    cbn [model sheet with_sheet].
    destruct (SortFacts.topological_sort_spec (dependency_graph e)
                (dirty_cells e) Hg) as (Hnd & Hsub & _ & Hfirst).
    destruct (RecalcFacts.recalc_fold (dependency_graph e) (dirty_cells e)
                (topological_sort (dependency_graph e) (dirty_cells e))
                Hcache (sheet (model e)) Hnd Hfirst Hsub) as (_ & _ & Hdone).
    apply Hdone. now apply SortFacts.topological_sort_complete.
  - intros x Hx. unfold recalculate. rewrite Hcalc. cbn [orb].
    destruct (bool_decide (dirty_cells e = ∅)); [reflexivity|].
    cbn [model sheet with_sheet].
    destruct (SortFacts.topological_sort_spec (dependency_graph e)
                (dirty_cells e) Hg) as (Hnd & Hsub & _ & Hfirst).
    destruct (RecalcFacts.recalc_fold (dependency_graph e) (dirty_cells e)
                (topological_sort (dependency_graph e) (dirty_cells e))
                Hcache (sheet (model e)) Hnd Hfirst Hsub) as (Hother & _ & _).
    apply Hother. intros Hin. apply Hx. now apply Hsub.
Qed.

(** *** The engine between two edits *)

(** After any sequence of edits with ASCII texts, from a fresh engine over
    an ASCII sheet, the two maps of the graph mirror each other, every
    cached formula reads recorded dependencies only, the [calculating]
    flag is down and no cell is left dirty. *)
Theorem edits_keep_the_engine_sound e :
  engine_reachable e -> engine_ok e.
Proof. apply reachable_ok. Qed.

End Edits.

#[local] Existing Instance unused_runtime.

Lemma reported_cycle_recalculates_nothing_witness :
  cells (sheet (model
    (set_cell_formula
       (edit (edit (edit empty_engine 0 0 "=B1") 0 1 "=C1") 0 3 "=C1")
       0 2 "=A1"))) !! (0, 3)
  = cells (sheet (model
      (edit (edit (edit empty_engine 0 0 "=B1") 0 1 "=C1") 0 3 "=C1")))
      !! (0, 3).
Proof.
  assert (Hfind : find_cycles
            (install_formula
               (clear_dependencies
                  (dependency_graph
                     (edit (edit (edit empty_engine 0 0 "=B1") 0 1 "=C1")
                           0 3 "=C1")) (0, 2))
               (0, 2) (CellRefNode 0 0)) (0, 2)
            = [(0, 2); (0, 1); (0, 0)]).
  { vm_compute. reflexivity. }
  pose proof (reported_cycle_recalculates_nothing
                (edit (edit (edit empty_engine 0 0 "=B1") 0 1 "=C1") 0 3 "=C1")
                0 2 "=A1" (CellRefNode 0 0) eq_refl eq_refl) as Hthm.
  destruct Hthm as (Hother & _).
  - vm_compute. reflexivity.
  - rewrite Hfind. discriminate.
  - apply Hother. rewrite Hfind. intros Hin.
    repeat (apply elem_of_cons in Hin as [Hin|Hin]; [discriminate|]).
    now apply elem_of_nil in Hin.
Defined.

Lemma unparsable_formula_marks_its_cell_witness :
  exists c,
    cells (sheet (model (set_cell_formula empty_engine 0 0 "=1+"))) !! (0, 0)
      = Some c /\
    Model.value c = PStr "#ERROR!" /\ error c = Some "#ERROR!" /\
    raw c = raw (default empty_cell
                   (cells (sheet (model empty_engine)) !! (0, 0))).
Proof.
  pose proof (unparsable_formula_marks_its_cell empty_engine 0 0 "=1+"
                ValueError eq_refl eq_refl) as Hthm.
  destruct Hthm as (Hcell & _).
  - vm_compute. reflexivity.
  - discriminate.
  - exact Hcell.
Defined.

Lemma edits_keep_the_engine_sound_witness : engine_ok three_cycle.
Proof.
  unfold three_cycle. apply edits_keep_the_engine_sound.
  do 3 (apply reach_edit; [reflexivity|]).
  apply reach_new_engine. intros pos c Hc. vm_compute in Hc. discriminate.
Defined.

Lemma recalculate_recomputes_dirty_cells_witness :
  recomputed (dependency_graph (mark_dirty sum_sheet (0, 0)))
             (sheet (model (recalculate (mark_dirty sum_sheet (0, 0)))))
             (0, 3).
Proof.
  assert (Hok : engine_ok sum_sheet).
  { unfold sum_sheet. apply reachable_ok.
    do 4 (apply reach_edit; [reflexivity|]).
    apply reach_new_engine. intros pos c Hc. vm_compute in Hc. discriminate. }
  destruct Hok as (Hg & Hcache & Hcalc & _).
  assert (Hascii : ascii_sheet (sheet (model (mark_dirty sum_sheet (0, 0))))).
  { apply ascii_sheet_by_cells. vm_compute. reflexivity. }
  pose proof (recalculate_recomputes_dirty_cells (mark_dirty sum_sheet (0, 0))
                Hascii Hcalc Hg Hcache) as Hthm.
  destruct Hthm as (Hdone & _).
  - apply (SortFacts.acyclic_by_sort _ _ Hg). vm_compute. reflexivity.
  - apply Hdone. apply (bool_decide_unpack _). vm_compute. exact I.
Defined.

End EngineProperties.

(** ** Inserting and deleting rows and columns *)

Module SheetShifts.
Import Py Model.

(** The dictionary rebuilt from the items of another, when no two kept
    keys are sent to the same place. *)
Lemma rebuild_lookup (f : addr -> option addr) (m : gmap addr Cell) :
  (forall k1 k2 k, f k1 = Some k -> f k2 = Some k -> k1 = k2) ->
  forall k' c,
    rebuild f m !! k' = Some c <-> exists k, f k = Some k' /\ m !! k = Some c.
Proof.
  intros Hinj. unfold rebuild.
  apply (map_fold_weak_ind
           (fun acc m => forall k' c,
              acc !! k' = Some c <->
              exists k, f k = Some k' /\ m !! k = Some c)).
  - intros k' c. rewrite lookup_empty. split; [discriminate|].
    intros (k & _ & Hk). now rewrite lookup_empty in Hk.
  - intros i x m' acc Hnone IH k' c.
    destruct (f i) as [k''|] eqn:Hfi.
    + destruct (decide (k'' = k')) as [->|Hne].
      * rewrite lookup_insert_eq. split.
        -- intros [= <-]. exists i. now rewrite lookup_insert_eq.
        -- intros (k & Hfk & Hk).
           rewrite (Hinj k i k' Hfk Hfi), lookup_insert_eq in Hk. exact Hk.
      * rewrite lookup_insert_ne by assumption. rewrite IH. split.
        -- intros (k & Hfk & Hk). exists k. split; [exact Hfk|].
           rewrite lookup_insert_ne; [exact Hk|]. intros <-. congruence.
        -- intros (k & Hfk & Hk). exists k. split; [exact Hfk|].
           rewrite lookup_insert_ne in Hk; [exact Hk|]. intros <-. congruence.
    + rewrite IH. split.
      * intros (k & Hfk & Hk). exists k. split; [exact Hfk|].
        rewrite lookup_insert_ne; [exact Hk|]. intros <-. congruence.
      * intros (k & Hfk & Hk). exists k. split; [exact Hfk|].
        rewrite lookup_insert_ne in Hk; [exact Hk|]. intros <-. congruence.
Qed.

Lemma insert_row_lookup s row r c :
  cells (insert_row s row) !! (r, c) =
    if r <? row then cells s !! (r, c)
    else if r =? row then None
    else cells s !! (r - 1, c).
Proof.
  apply option_eq. intros x. unfold insert_row. cbn [cells].
  rewrite rebuild_lookup.
  - split.
    + intros ([r0 c0] & Hf & Hk). injection Hf as Hf.
      destruct (Z.leb_spec row r0); injection Hf as <- <-.
      * destruct (Z.ltb_spec (r0 + 1) row); [lia|].
        destruct (Z.eqb_spec (r0 + 1) row); [lia|].
        now replace (r0 + 1 - 1) with r0 by lia.
      * destruct (Z.ltb_spec r0 row); [exact Hk|lia].
    + destruct (Z.ltb_spec r row).
      * intros Hk. exists (r, c). split; [|exact Hk].
        destruct (Z.leb_spec row r); [lia|reflexivity].
      * destruct (Z.eqb_spec r row); [discriminate|].
        intros Hk. exists (r - 1, c). split; [|exact Hk].
        destruct (Z.leb_spec row (r - 1)); [|lia].
        do 2 f_equal. lia.
  - intros [r1 c1] [r2 c2] k H1 H2. injection H1 as H1. injection H2 as H2.
    destruct (Z.leb_spec row r1), (Z.leb_spec row r2); subst k;
      injection H2 as ? ?; f_equal; lia.
Qed.

Lemma delete_row_lookup s row r c :
  cells (delete_row s row) !! (r, c) =
    if r <? row then cells s !! (r, c) else cells s !! (r + 1, c).
Proof.
  apply option_eq. intros x. unfold delete_row. cbn [cells].
  rewrite rebuild_lookup.
  - split.
    + intros ([r0 c0] & Hf & Hk).
      destruct (Z.eqb_spec r0 row); [discriminate|]. injection Hf as Hf.
      destruct (Z.ltb_spec row r0); injection Hf as <- <-.
      * destruct (Z.ltb_spec (r0 - 1) row); [lia|].
        now replace (r0 - 1 + 1) with r0 by lia.
      * destruct (Z.ltb_spec r0 row); [exact Hk|lia].
    + destruct (Z.ltb_spec r row).
      * intros Hk. exists (r, c). split; [|exact Hk].
        destruct (Z.eqb_spec r row); [lia|].
        destruct (Z.ltb_spec row r); [lia|reflexivity].
      * intros Hk. exists (r + 1, c). split; [|exact Hk].
        destruct (Z.eqb_spec (r + 1) row); [lia|].
        destruct (Z.ltb_spec row (r + 1)); [|lia].
        do 2 f_equal. lia.
  - intros [r1 c1] [r2 c2] k H1 H2.
    destruct (Z.eqb_spec r1 row); [discriminate|].
    destruct (Z.eqb_spec r2 row); [discriminate|].
    injection H1 as H1. injection H2 as H2.
    destruct (Z.ltb_spec row r1), (Z.ltb_spec row r2); subst k;
      injection H2 as ? ?; f_equal; lia.
Qed.

Lemma insert_column_lookup s col r c :
  cells (insert_column s col) !! (r, c) =
    if c <? col then cells s !! (r, c)
    else if c =? col then None
    else cells s !! (r, c - 1).
Proof.
  apply option_eq. intros x. unfold insert_column. cbn [cells].
  rewrite rebuild_lookup.
  - split.
    + intros ([r0 c0] & Hf & Hk). injection Hf as Hf.
      destruct (Z.leb_spec col c0); injection Hf as <- <-.
      * destruct (Z.ltb_spec (c0 + 1) col); [lia|].
        destruct (Z.eqb_spec (c0 + 1) col); [lia|].
        now replace (c0 + 1 - 1) with c0 by lia.
      * destruct (Z.ltb_spec c0 col); [exact Hk|lia].
    + destruct (Z.ltb_spec c col).
      * intros Hk. exists (r, c). split; [|exact Hk].
        destruct (Z.leb_spec col c); [lia|reflexivity].
      * destruct (Z.eqb_spec c col); [discriminate|].
        intros Hk. exists (r, c - 1). split; [|exact Hk].
        destruct (Z.leb_spec col (c - 1)); [|lia].
        do 2 f_equal. lia.
  - intros [r1 c1] [r2 c2] k H1 H2. injection H1 as H1. injection H2 as H2.
    destruct (Z.leb_spec col c1), (Z.leb_spec col c2); subst k;
      injection H2 as ? ?; f_equal; lia.
Qed.

Lemma delete_column_lookup s col r c :
  cells (delete_column s col) !! (r, c) =
    if c <? col then cells s !! (r, c) else cells s !! (r, c + 1).
Proof.
  apply option_eq. intros x. unfold delete_column. cbn [cells].
  rewrite rebuild_lookup.
  - split.
    + intros ([r0 c0] & Hf & Hk).
      destruct (Z.eqb_spec c0 col); [discriminate|]. injection Hf as Hf.
      destruct (Z.ltb_spec col c0); injection Hf as <- <-.
      * destruct (Z.ltb_spec (c0 - 1) col); [lia|].
        now replace (c0 - 1 + 1) with c0 by lia.
      * destruct (Z.ltb_spec c0 col); [exact Hk|lia].
    + destruct (Z.ltb_spec c col).
      * intros Hk. exists (r, c). split; [|exact Hk].
        destruct (Z.eqb_spec c col); [lia|].
        destruct (Z.ltb_spec col c); [lia|reflexivity].
      * intros Hk. exists (r, c + 1). split; [|exact Hk].
        destruct (Z.eqb_spec (c + 1) col); [lia|].
        destruct (Z.ltb_spec col (c + 1)); [|lia].
        do 2 f_equal. lia.
  - intros [r1 c1] [r2 c2] k H1 H2.
    destruct (Z.eqb_spec c1 col); [discriminate|].
    destruct (Z.eqb_spec c2 col); [discriminate|].
    injection H1 as H1. injection H2 as H2.
    destruct (Z.ltb_spec col c1), (Z.ltb_spec col c2); subst k;
      injection H2 as ? ?; f_equal; lia.
Qed.

(** [insert_row] and [insert_column] move the cells at or after the
    given line one place further, leave that line empty and the cells
    before it in place, and raise the bound of the sheet by one. *)
Theorem insert_opens_an_empty_line s line r c :
  cells (insert_row s line) !! (r, c) =
    (if r <? line then cells s !! (r, c)
     else if r =? line then None
     else cells s !! (r - 1, c)) /\
  cells (insert_column s line) !! (r, c) =
    (if c <? line then cells s !! (r, c)
     else if c =? line then None
     else cells s !! (r, c - 1)) /\
  max_row (insert_row s line) = max_row s + 1 /\
  max_col (insert_column s line) = max_col s + 1.
Proof.
  split; [apply insert_row_lookup|].
  split; [apply insert_column_lookup|]. split; reflexivity.
Qed.

(** [delete_row] and [delete_column] drop the cells of the given line and
    move the cells after it one place back; the bound of the sheet goes
    down by one, except that it stays when it is not positive. *)
Theorem delete_closes_the_line s line r c :
  cells (delete_row s line) !! (r, c) =
    (if r <? line then cells s !! (r, c) else cells s !! (r + 1, c)) /\
  cells (delete_column s line) !! (r, c) =
    (if c <? line then cells s !! (r, c) else cells s !! (r, c + 1)) /\
  max_row (delete_row s line)
    = (if 0 <? max_row s then max_row s - 1 else max_row s) /\
  max_col (delete_column s line)
    = (if 0 <? max_col s then max_col s - 1 else max_col s).
Proof.
  split; [apply delete_row_lookup|].
  split; [apply delete_column_lookup|]. split; reflexivity.
Qed.

(** Deleting the line that was just inserted gives the sheet back: the
    same cells at the same places, and the same bounds when they were not
    negative. *)
Theorem insert_then_delete_restores s line :
  cells (delete_row (insert_row s line) line) = cells s /\
  cells (delete_column (insert_column s line) line) = cells s /\
  (0 <= max_row s -> delete_row (insert_row s line) line = s) /\
  (0 <= max_col s -> delete_column (insert_column s line) line = s).
Proof.
  assert (Hrows : cells (delete_row (insert_row s line) line) = cells s).
  { apply map_eq. intros [r c].
    rewrite delete_row_lookup, !insert_row_lookup.
    destruct (Z.ltb_spec r line).
    - reflexivity.
    - destruct (Z.ltb_spec (r + 1) line); [lia|].
      destruct (Z.eqb_spec (r + 1) line); [lia|].
      now replace (r + 1 - 1) with r by lia. }
  assert (Hcols : cells (delete_column (insert_column s line) line) = cells s).
  { apply map_eq. intros [r c].
    rewrite delete_column_lookup, !insert_column_lookup.
    destruct (Z.ltb_spec c line).
    - reflexivity.
    - destruct (Z.ltb_spec (c + 1) line); [lia|].
      destruct (Z.eqb_spec (c + 1) line); [lia|].
      now replace (c + 1 - 1) with c by lia. }
  split; [exact Hrows|]. split; [exact Hcols|]. split.
  - intros Hmax. destruct s as [cs nm mr mc]. cbn in *.
    unfold delete_row, insert_row in *. cbn [cells name max_row max_col] in *.
    rewrite Hrows. f_equal.
    destruct (Z.ltb_spec 0 (mr + 1)); lia.
  - intros Hmax. destruct s as [cs nm mr mc]. cbn in *.
    unfold delete_column, insert_column in *.
    cbn [cells name max_row max_col] in *.
    rewrite Hcols. f_equal.
    destruct (Z.ltb_spec 0 (mc + 1)); lia.
Qed.

Lemma insert_then_delete_restores_witness :
  delete_row (insert_row (set_cell new_sheet 2 0 "x" None None) 1) 1
    = set_cell new_sheet 2 0 "x" None None /\
  delete_column (insert_column (set_cell new_sheet 0 2 "x" None None) 1) 1
    = set_cell new_sheet 0 2 "x" None None.
Proof.
  split.
  - apply (insert_then_delete_restores
             (set_cell new_sheet 2 0 "x" None None) 1). cbn. lia.
  - apply (insert_then_delete_restores
             (set_cell new_sheet 0 2 "x" None None) 1). cbn. lia.
Defined.

End SheetShifts.

(** ** Undoing commands *)

Module UndoProperties.
Import Py Model Undo UndoFacts SheetShifts.

Section Manager.
Context {C W : Type} `{Command C W}.

(** A successful [undo] followed by a successful [redo] gives the two
    stacks back, and so does a successful [redo] followed by a successful
    [undo]; with nothing to undo, or to redo, the call answers [false] and
    changes nothing. *)
Theorem undo_and_redo_are_inverse (mgr : UndoRedoManager C) (w : W) :
  (forall mgr1 w1 mgr2 w2,
     manager_undo mgr w = (mgr1, w1, true) ->
     manager_redo mgr1 w1 = (mgr2, w2, true) -> mgr2 = mgr) /\
  (forall mgr1 w1 mgr2 w2,
     manager_redo mgr w = (mgr1, w1, true) ->
     manager_undo mgr1 w1 = (mgr2, w2, true) -> mgr2 = mgr) /\
  (undo_stack mgr = [] -> manager_undo mgr w = (mgr, w, false)) /\
  (redo_stack mgr = [] -> manager_redo mgr w = (mgr, w, false)).
Proof.
  split; [|split; [|split]].
  - intros mgr1 w1 mgr2 w2 Hundo Hredo. unfold manager_undo in Hundo.
    destruct (last (undo_stack mgr)) as [command|] eqn:Hl; [|discriminate].
    apply last_split in Hl.
    destruct (undo command w) as [w' [|]]; [|discriminate].
    injection Hundo as <- <-. unfold manager_redo in Hredo.
    cbn [redo_stack undo_stack max_history] in Hredo.
    rewrite last_snoc, removelast_last in Hredo.
    destruct (execute command w') as [w'' [|]]; [|discriminate].
    injection Hredo as <- _. destruct mgr as [us rs mh]. cbn in *.
    now rewrite <- Hl.
  - intros mgr1 w1 mgr2 w2 Hredo Hundo. unfold manager_redo in Hredo.
    destruct (last (redo_stack mgr)) as [command|] eqn:Hl; [|discriminate].
    apply last_split in Hl.
    destruct (execute command w) as [w' [|]]; [|discriminate].
    injection Hredo as <- <-. unfold manager_undo in Hundo.
    cbn [redo_stack undo_stack max_history] in Hundo.
    rewrite last_snoc, removelast_last in Hundo.
    destruct (undo command w') as [w'' [|]]; [|discriminate].
    injection Hundo as <- _. destruct mgr as [us rs mh]. cbn in *.
    now rewrite <- Hl.
  - intros Hempty. unfold manager_undo. now rewrite Hempty.
  - intros Hempty. unfold manager_redo. now rewrite Hempty.
Qed.

End Manager.

(** *** Commands on a sheet *)

Lemma restore_cells_lookup (s : Sheet) (deleted : gmap addr cell_data)
    (pos : addr) :
  cells (restore_cells s deleted) !! pos =
    match deleted !! pos with
    | Some (raw, value, format) =>
        Some (new_cell raw (default (PStr raw) (value_arg value))
                       (Some format))
    | None => cells s !! pos
    end.
Proof.
  unfold restore_cells. revert pos.
  apply (map_fold_weak_ind
           (fun acc m => forall pos,
              cells acc !! pos =
                match m !! pos with
                | Some (raw, value, format) =>
                    Some (new_cell raw (default (PStr raw) (value_arg value))
                                   (Some format))
                | None => cells s !! pos
                end)).
  - intros pos. now rewrite lookup_empty.
  - intros [r c] [[raw value] format] m acc Hnone IH pos.
    cbn [fst snd]. unfold set_cell. cbn [cells].
    destruct (decide ((r, c) = pos)) as [<-|Hne].
    + now rewrite !lookup_insert_eq.
    + rewrite !lookup_insert_ne by assumption. apply IH.
Qed.

Lemma capture_lookup (keep : addr -> bool) (m : SpreadsheetModel)
    (pos : addr) :
  capture keep m !! pos =
    if keep pos
    then (fun c => (raw c, Model.value c, format c)) <$> cells (sheet m) !! pos
    else None.
Proof.
  unfold capture. rewrite lookup_fmap.
  destruct (filter _ (cells (sheet m)) !! pos) as [x|] eqn:Hf.
  - apply map_lookup_filter_Some in Hf as [Hx Hk]. cbn in Hk.
    now rewrite Hk, Hx.
  - destruct (keep pos) eqn:Hk; [|reflexivity].
    destruct (cells (sheet m) !! pos) as [x|] eqn:Hx; [|reflexivity].
    assert (Hsome : filter (fun kc : addr * Cell => keep kc.1 = true)
                           (cells (sheet m)) !! pos = Some x).
    { apply map_lookup_filter_Some. split; [exact Hx|exact Hk]. }
    congruence.
Qed.



(** Undoing a [DeleteRowCommand] or a [DeleteColumnCommand] that was
    executed puts every cell back at its place: the cells of the deleted
    line with the text, the value and the format they had (their error is
    not restored), the other cells as they were. *)
Theorem delete_command_undo m line :
  (forall r c,
     cells (sheet (sheet_undo_step (make_delete_row m line)
                     (sheet_execute (make_delete_row m line) m).1).1)
       !! (r, c)
     = if r =? line then rebuilt_cell <$> cells (sheet m) !! (r, c)
       else cells (sheet m) !! (r, c)) /\
  (forall r c,
     cells (sheet (sheet_undo_step (make_delete_column m line)
                     (sheet_execute (make_delete_column m line) m).1).1)
       !! (r, c)
     = if c =? line then rebuilt_cell <$> cells (sheet m) !! (r, c)
       else cells (sheet m) !! (r, c)).
Proof.
  split; intros r c.
  - unfold make_delete_row. cbn [sheet_execute sheet_undo_step].
    unfold on_sheet. cbn [fst snd sheet with_sheet].
    rewrite restore_cells_lookup, capture_lookup, insert_row_lookup,
      !delete_row_lookup.
    destruct (Z.eqb_spec r line) as [->|Hne].
    + rewrite Z.ltb_irrefl.
      now destruct (cells (sheet m) !! (line, c)).
    + destruct (Z.ltb_spec r line); [reflexivity|].
      destruct (Z.ltb_spec (r - 1) line); [lia|].
      now replace (r - 1 + 1) with r by lia.
  - unfold make_delete_column. cbn [sheet_execute sheet_undo_step].
    unfold on_sheet. cbn [fst snd sheet with_sheet].
    rewrite restore_cells_lookup, capture_lookup, insert_column_lookup,
      !delete_column_lookup.
    destruct (Z.eqb_spec c line) as [->|Hne].
    + rewrite Z.ltb_irrefl.
      now destruct (cells (sheet m) !! (r, line)).
    + destruct (Z.ltb_spec c line); [reflexivity|].
      destruct (Z.ltb_spec (c - 1) line); [lia|].
      now replace (c - 1 + 1) with c by lia.
Qed.

Lemma undo_and_redo_are_inverse_witness :
  (manager_redo
     (manager_undo
        (execute_command new_manager (InsertRowCommand 0) new_model).1.1
        (execute_command new_manager (InsertRowCommand 0) new_model).1.2).1.1
     (manager_undo
        (execute_command new_manager (InsertRowCommand 0) new_model).1.1
        (execute_command new_manager (InsertRowCommand 0) new_model).1.2).1.2
  ).1.1
  = (execute_command new_manager (InsertRowCommand 0) new_model).1.1 /\
  manager_undo (new_manager (C := SheetCommand)) new_model
    = (new_manager, new_model, false).
Proof.
  split.
  - destruct (undo_and_redo_are_inverse
                (execute_command new_manager (InsertRowCommand 0) new_model).1.1
                (execute_command new_manager (InsertRowCommand 0) new_model).1.2)
      as (Hinverse & _).
    eapply Hinverse; vm_compute; reflexivity.
  - apply (undo_and_redo_are_inverse (new_manager (C := SheetCommand))
             new_model). reflexivity.
Defined.

End UndoProperties.

(** ** Ranges of addresses *)

Module RangeFacts.
Import PyStr Py Address AddressFacts.

Lemma py_range_In lo hi x : In x (py_range lo hi) <-> lo <= x < hi.
Proof.
  unfold py_range. rewrite in_map_iff. split.
  - intros (i & <- & Hi). apply in_seq in Hi. lia.
  - intros Hx. exists (Z.to_nat (x - lo)). split; [lia|].
    apply in_seq. lia.
Qed.

Lemma py_range_NoDup lo hi : List.NoDup (py_range lo hi).
Proof.
  unfold py_range. generalize (Z.to_nat (hi - lo)) as n. generalize 0%nat.
  intros start n. revert start.
  induction n as [|n IH]; intros start; cbn [seq map]; constructor.
  - rewrite in_map_iff. intros (i & Hi & Hin). apply in_seq in Hin. lia.
  - apply IH.
Qed.

Lemma py_range_length lo hi : length (py_range lo hi) = Z.to_nat (hi - lo).
Proof. unfold py_range. now rewrite length_map, length_seq. Qed.

(** The cells of a rectangle, row after row. *)
Lemma rectangle_In (rows cols : list Z) r c :
  In (r, c) (concat (map (fun row => map (fun col => (row, col)) cols) rows))
  <-> In r rows /\ In c cols.
Proof.
  rewrite in_concat. split.
  - intros (l & Hl & Hin). apply in_map_iff in Hl as (row & <- & Hrow).
    apply in_map_iff in Hin as (col & [= <- <-] & Hcol). auto.
  - intros [Hr Hc]. exists (map (fun col => (r, col)) cols). split.
    + apply in_map_iff. eauto.
    + apply in_map_iff. eauto.
Qed.

Lemma row_NoDup (row : Z) (cols : list Z) :
  List.NoDup cols -> NoDup (map (fun col => (row, col)) cols).
Proof.
  induction 1 as [|col cols Hcol Hcols IH]; cbn [map]; constructor;
    [|exact IH].
  rewrite list_elem_of_In, in_map_iff. intros (c & [= ->] & Hin).
  contradiction.
Qed.

Lemma rectangle_NoDup (rows cols : list Z) :
  List.NoDup rows -> List.NoDup cols ->
  NoDup (concat (map (fun row => map (fun col => (row, col)) cols) rows)).
Proof.
  intros Hrows Hcols. induction Hrows as [|row rows Hrow Hrows IH];
    cbn [map concat]; [constructor|].
  apply NoDup_app. split; [|split].
  - now apply row_NoDup.
  - intros [r c] Hin Hin'. apply list_elem_of_In in Hin, Hin'.
    apply in_map_iff in Hin as (col & [= <- <-] & _).
    apply rectangle_In in Hin' as [Hin' _]. contradiction.
  - exact IH.
Qed.

Lemma rectangle_length (rows cols : list Z) :
  length (concat (map (fun row => map (fun col => (row, col)) cols) rows))
  = (length rows * length cols)%nat.
Proof.
  induction rows as [|row rows IH]; cbn [map concat length]; [reflexivity|].
  rewrite length_app, length_map, IH. lia.
Qed.

(** An address that parses holds no colon. *)
Lemma parsed_no_colon a rc :
  parse_address a = Some rc ->
  forallb (fun c => negb (Ascii.eqb c ":")) (list_ascii_of_string a) = true.
Proof.
  intros Hparse.
  apply parses_accepted in Hparse as (letters & digits & Hacc).
  destruct Hacc as (_ & _ & Hl & Hd & Hu).
  assert (Hall : Forall (fun x => is_upper x || isdigit x
                                  || Ascii.eqb x "010" = true)
                        (upper (list_ascii_of_string a))).
  { apply forallb_Forall in Hl, Hd.
    destruct Hu as [-> | ->]; rewrite ?Forall_app; repeat split.
    - eapply Forall_impl; [exact Hl|]. intros x ->. reflexivity.
    - eapply Forall_impl; [exact Hd|]. intros x ->. now rewrite orb_true_r.
    - eapply Forall_impl; [exact Hl|]. intros x ->. reflexivity.
    - eapply Forall_impl; [exact Hd|]. intros x ->. now rewrite orb_true_r.
    - repeat constructor. }
  unfold upper in Hall. apply List.Forall_map in Hall.
  apply Forall_forallb. eapply Forall_impl; [exact Hall|].
  intros c Hc. destruct (Ascii.eqb_spec c ":"%char) as [->|]; [|reflexivity].
  vm_compute in Hc. discriminate.
Qed.

Lemma list_ascii_of_string_app (a b : string) :
  list_ascii_of_string (a ++ b)%string
  = list_ascii_of_string a ++ list_ascii_of_string b.
Proof.
  induction a as [|c a IH]; [reflexivity|].
  change (c :: list_ascii_of_string (a ++ b)%string
          = c :: (list_ascii_of_string a ++ list_ascii_of_string b)).
  now rewrite IH.
Qed.

(** [parse_range] of two addresses joined by a colon gives the cells of the
    rectangle between them, whichever corners they are: each cell once,
    row after row, and as many as the rectangle holds. *)
Theorem parse_range_is_a_rectangle a b r1 c1 r2 c2 :
  parse_address a = Some (r1, c1) ->
  parse_address b = Some (r2, c2) ->
  exists l,
    parse_range (a ++ ":" ++ b) = Some l /\
    NoDup l /\
    (forall r c,
       (r, c) ∈ l <->
       Z.min r1 r2 <= r <= Z.max r1 r2 /\ Z.min c1 c2 <= c <= Z.max c1 c2) /\
    length l
      = Z.to_nat ((Z.max r1 r2 - Z.min r1 r2 + 1)
                  * (Z.max c1 c2 - Z.min c1 c2 + 1)).
Proof.
  intros Ha Hb. unfold parse_range. cbv zeta.
  rewrite !list_ascii_of_string_app. cbn [list_ascii_of_string app].
  assert (Hcolon : has_colon (list_ascii_of_string a
                              ++ ":"%char :: list_ascii_of_string b) = true).
  { unfold has_colon. rewrite existsb_app. cbn. now rewrite orb_true_r. }
  rewrite Hcolon. cbn [negb].
  assert (Hsplit : split_colon (list_ascii_of_string a
                                ++ ":"%char :: list_ascii_of_string b)
                   = (list_ascii_of_string a, list_ascii_of_string b)).
  { unfold split_colon. rewrite span_all; [reflexivity| |reflexivity].
    now apply (parsed_no_colon a (r1, c1)). }
  rewrite Hsplit, !string_of_list_ascii_of_string, Ha, Hb.
  eexists. split; [reflexivity|]. split; [|split].
  - apply rectangle_NoDup; apply py_range_NoDup.
  - intros r c. rewrite list_elem_of_In, rectangle_In, !py_range_In.
    split; intros [Hr Hc]; split; lia.
  - rewrite rectangle_length, !py_range_length.
    rewrite Z2Nat.inj_mul by lia. f_equal; f_equal; lia.
Qed.

Lemma parse_range_is_a_rectangle_witness :
  exists l,
    parse_range "B2:A1" = Some l /\
    ((0, 1) ∈ l <->
     Z.min 1 0 <= 0 <= Z.max 1 0 /\ Z.min 1 0 <= 1 <= Z.max 1 0) /\
    length l = 4%nat.
Proof.
  destruct (parse_range_is_a_rectangle "B2" "A1" 1 1 0 0 eq_refl eq_refl)
    as (l & Hl & _ & Hin & Hlen).
  exists l. split; [exact Hl|]. split; [apply Hin|exact Hlen].
Defined.

End RangeFacts.

(** ** Operators on error sentinels and on zero *)

Module OperatorFacts.
Import PyStr Py Formula.

Section Evaluation.
Context `{Runtime}.
Variable get_cell_value : Z -> Z -> result pyval.

(** A binary operator whose operands both evaluate gives the left operand
    when that is an error sentinel, else the right operand when that is
    one, whatever the operator; a division whose right operand is the
    number zero gives [#DIV/0!], also when the left operand is no number;
    and a call of a function (with an ASCII name) that is not in the
    table gives [#NAME?] without evaluating its arguments. *)
Theorem operators_on_sentinels_and_zero lhs rhs op l r :
  _evaluate_node get_cell_value lhs = Ok l ->
  _evaluate_node get_cell_value rhs = Ok r ->
  (is_error l = true ->
     evaluate get_cell_value (BinaryOpNode lhs op rhs) = l) /\
  (is_error l = false -> is_error r = true ->
     evaluate get_cell_value (BinaryOpNode lhs op rhs) = r) /\
  (forall z, is_error l = false -> is_error r = false ->
     to_number r = Ok z -> (z =? 0)%float = true ->
     evaluate get_cell_value (BinaryOpNode lhs "/" rhs) = PStr "#DIV/0!") /\
  (forall name args,
     ascii_text (list_ascii_of_string name) = true ->
     functions (upper_str name) = None ->
     evaluate get_cell_value (FunctionNode name args) = PStr "#NAME?").
Proof.
  intros Hl Hr. unfold evaluate. cbn [_evaluate_node].
  rewrite Hl, Hr. cbn [mbind result_bind bind].
  split; [|split; [|split]].
  - intros He. unfold apply_binary. now rewrite He.
  - intros He He'. unfold apply_binary. now rewrite He, He'.
  - intros z He He' Hz Hzero. unfold apply_binary. rewrite He, He'.
    cbn. rewrite Hz. cbn [mbind result_bind bind]. now rewrite Hzero.
  - intros name args _ Hname. now rewrite Hname.
Qed.

End Evaluation.

Lemma operators_on_sentinels_and_zero_witness :
  evaluate (H := unused_runtime) (fun _ _ => Ok (PStr ""))
    (BinaryOpNode (StringNode "abc") "/" (NumberNode 0)) = PStr "#DIV/0!" /\
  evaluate (H := unused_runtime) (fun _ _ => Ok (PStr ""))
    (BinaryOpNode (StringNode "#N/A") "+" (StringNode "#REF!")) = PStr "#N/A".
Proof.
  split.
  - destruct (operators_on_sentinels_and_zero (H := unused_runtime)
                (fun _ _ => Ok (PStr "")) (StringNode "abc") (NumberNode 0)
                "/" (PStr "abc") (PFloat 0) eq_refl eq_refl)
      as (_ & _ & Hdiv & _).
    apply (Hdiv 0%float); reflexivity.
  - destruct (operators_on_sentinels_and_zero (H := unused_runtime)
                (fun _ _ => Ok (PStr "")) (StringNode "#N/A")
                (StringNode "#REF!") "+" (PStr "#N/A") (PStr "#REF!")
                eq_refl eq_refl) as (Hleft & _).
    apply Hleft. reflexivity.
Defined.

End OperatorFacts.
